(** * MoviePilot-Plugins: TopAnimeStrm and VideoStrm

    A shallow embedding of the string processing, selection and descriptor
    writing code of [plugins/topanimestrm/__init__.py] and
    [plugins/videostrm/__init__.py], and the properties proved about it.

    Python [str] values are sequences of Unicode code points; they are
    modelled as lists of code points ([list N]).  Code with effects runs
    in a state-and-exception monad over a world that holds the fields of
    the plugin object, the files by path, the state of the collaborators
    (browser, HTTP client, clock, operating system) and the trace of
    warnings and pauses.
    The operations of the Python standard library the plugins call ([str]
    methods, [re], [urllib.parse], [os.path], [sorted]) are modelled next
    to the plugin code, each in a module of its own.

    The definitions come first, the properties after them. *)

From Stdlib Require Import NArith ZArith List Bool Lia Ascii String.
From Stdlib Require Import Sorted Permutation.
From stdpp Require Import base option list gmap.
Import ListNotations.

Local Open Scope N_scope.
Local Open Scope bool_scope.
Local Open Scope list_scope.

(** A Python string: its code points, in order. *)
Definition str := list N.

(** The code points of an ASCII literal. *)
Definition lit (s : string) : str :=
  List.map N_of_ascii (list_ascii_of_string s).

(* ================================================================== *)
(** ** Unicode character classes used by [str] and [re] *)
(* ================================================================== *)

Module Unicode.

(** [str.isspace], also the class [\s] of [re] on [str] patterns. *)
Definition is_space (c : N) : bool :=
  ((0x09 <=? c) && (c <=? 0x0D)) || ((0x1C <=? c) && (c <=? 0x20))
  || (c =? 0x85) || (c =? 0xA0) || (c =? 0x1680)
  || ((0x2000 <=? c) && (c <=? 0x200A))
  || (c =? 0x2028) || (c =? 0x2029) || (c =? 0x202F) || (c =? 0x205F)
  || (c =? 0x3000).

(** First code points of the runs of ten decimal digits (general
    category Nd, Unicode 15.0, the database of CPython 3.12). *)
Definition decimal_zeros : list N :=
  [ 0x0030; 0x0660; 0x06F0; 0x07C0; 0x0966; 0x09E6; 0x0A66; 0x0AE6; 0x0B66;
    0x0BE6; 0x0C66; 0x0CE6; 0x0D66; 0x0DE6; 0x0E50; 0x0ED0; 0x0F20; 0x1040;
    0x1090; 0x17E0; 0x1810; 0x1946; 0x19D0; 0x1A80; 0x1A90; 0x1B50; 0x1BB0;
    0x1C40; 0x1C50; 0xA620; 0xA8D0; 0xA900; 0xA9D0; 0xA9F0; 0xAA50; 0xABF0;
    0xFF10; 0x104A0; 0x10D30; 0x11066; 0x110F0; 0x11136; 0x111D0; 0x112F0;
    0x11450; 0x114D0; 0x11650; 0x116C0; 0x11730; 0x118E0; 0x11950; 0x11C50;
    0x11D50; 0x11DA0; 0x11F50; 0x16A60; 0x16AC0; 0x16B50;
    0x1D7CE; 0x1D7D8; 0x1D7E2; 0x1D7EC; 0x1D7F6;
    0x1E140; 0x1E2F0; 0x1E4F0; 0x1E950; 0x1FBF0 ].

(** The decimal value of a code point, when it is a decimal digit. *)
Definition decimal_value (c : N) : option N :=
  match List.find (fun z => (z <=? c) && (c <? z + 10)) decimal_zeros with
  | Some z => Some (c - z)
  | None => None
  end.

(** The class [\d] of [re] on [str] patterns. *)
Definition is_decimal (c : N) : bool :=
  match decimal_value c with Some _ => true | None => false end.

End Unicode.

(* ================================================================== *)
(** ** Methods of [str] *)
(* ================================================================== *)

Module PyStr.

Fixpoint eqb (a b : str) : bool :=
  match a, b with
  | [], [] => true
  | x :: a', y :: b' => (x =? y) && eqb a' b'
  | _, _ => false
  end.

(** [s.startswith(p)] *)
Fixpoint startswith (s p : str) {struct p} : bool :=
  match p, s with
  | [], _ => true
  | x :: p', y :: s' => (x =? y) && startswith s' p'
  | _ :: _, [] => false
  end.

(** [s.endswith(p)] *)
Definition endswith (s p : str) : bool :=
  (length p <=? length s)%nat && eqb (drop (length s - length p) s) p.

(** [p in s] *)
Fixpoint contains (p s : str) : bool :=
  startswith s p ||
  match s with
  | [] => false
  | _ :: s' => contains p s'
  end.

(** [s.replace(old, new)] for a non-empty [old]: occurrences are taken
    from the left and do not overlap.  [skip] counts the characters of
    the occurrence just replaced that are still to be passed over. *)
Fixpoint replace_go (old new : str) (skip : nat) (s : str) : str :=
  match s with
  | [] => []
  | c :: s' =>
      match skip with
      | S k => replace_go old new k s'
      | O =>
          if startswith s old
          then new ++ replace_go old new (length old - 1) s'
          else c :: replace_go old new 0 s'
      end
  end.

Definition replace (s old new : str) : str := replace_go old new 0 s.

(** [s.split(sep)] for a non-empty [sep]; [cur] is the piece being read. *)
Fixpoint split_go (sep : str) (skip : nat) (cur : str) (s : str) : list str :=
  match s with
  | [] => [cur]
  | c :: s' =>
      match skip with
      | S k => split_go sep k cur s'
      | O =>
          if startswith s sep
          then cur :: split_go sep (length sep - 1) [] s'
          else split_go sep 0 (cur ++ [c]) s'
      end
  end.

Definition split (s sep : str) : list str := split_go sep 0 [] s.

(** [l[0]] and [l[-1]] on the result of [split], which is never empty. *)
Definition first (l : list str) : str := List.hd [] l.
Definition last (l : list str) : str := List.last l [].

(** [s.lstrip()], [s.rstrip()] and [s.strip()] without argument. *)
Fixpoint lstrip (s : str) : str :=
  match s with
  | c :: s' => if Unicode.is_space c then lstrip s' else s
  | [] => []
  end.

Definition rstrip (s : str) : str := rev (lstrip (rev s)).

Definition strip (s : str) : str := rstrip (lstrip s).

(** [s.split()] without argument: the maximal runs of characters that
    are not whitespace. *)
Fixpoint split_ws_go (cur : str) (s : str) : list str :=
  match s with
  | [] => match cur with [] => [] | _ => [cur] end
  | c :: s' =>
      if Unicode.is_space c
      then match cur with
           | [] => split_ws_go [] s'
           | _ => cur :: split_ws_go [] s'
           end
      else split_ws_go (cur ++ [c]) s'
  end.

Definition split_ws (s : str) : list str := split_ws_go [] s.

(** [sep.join(l)] *)
Fixpoint join (sep : str) (l : list str) : str :=
  match l with
  | [] => []
  | [x] => x
  | x :: l' => x ++ sep ++ join sep l'
  end.

(** [str(n)] for a non-negative integer: its decimal digits. *)
Fixpoint of_uint (d : Decimal.uint) : str :=
  match d with
  | Decimal.Nil => []
  | Decimal.D0 d' => 48 :: of_uint d'
  | Decimal.D1 d' => 49 :: of_uint d'
  | Decimal.D2 d' => 50 :: of_uint d'
  | Decimal.D3 d' => 51 :: of_uint d'
  | Decimal.D4 d' => 52 :: of_uint d'
  | Decimal.D5 d' => 53 :: of_uint d'
  | Decimal.D6 d' => 54 :: of_uint d'
  | Decimal.D7 d' => 55 :: of_uint d'
  | Decimal.D8 d' => 56 :: of_uint d'
  | Decimal.D9 d' => 57 :: of_uint d'
  end.

Definition of_N (n : N) : str := of_uint (N.to_uint n).

(** [sys.get_int_max_str_digits()], which the plugins leave at its
    default. *)
Definition int_max_str_digits : nat := 4300.

(** The value of a run of decimal digits, most significant first. *)
Definition digits_value (s : str) : N :=
  fold_left (fun acc c => 10 * acc + default 0 (Unicode.decimal_value c)) s 0.

(** [int(s)] on a run of decimal digits; [None] stands for the
    [ValueError] raised on a run of more than [int_max_str_digits]
    digits. *)
Definition to_int (s : str) : option N :=
  if (int_max_str_digits <? length s)%nat then None
  else Some (digits_value s).

(** [str(z)], also in an f-string, raises [ValueError] on an integer of
    more than [int_max_str_digits] digits. *)
Definition of_int_raises (z : Z) : bool :=
  (10 ^ Z.of_nat int_max_str_digits <=? Z.abs z)%Z.

End PyStr.

(* ================================================================== *)
(** ** The fragment of [re] the plugins use *)
(* ================================================================== *)

(** Every pattern of the two plugins is a sequence of character classes,
    each taken once or under [?], [*] or [+] (greedy, with backtracking),
    the anchors [^] and [$], and at most one capture group. *)

Module Re.

Definition charset := N -> bool.

Inductive atom :=
| One (c : charset)     (* [c] *)
| Opt (c : charset)     (* [c?] *)
| Star (c : charset)    (* [c*] *)
| Plus (c : charset)    (* [c+] *)
| Bol                   (* [^] *)
| Eol                   (* [$] *)
| Open                  (* [(] *)
| Close.                (* [)] *)

Definition pattern := list atom.

(** A match: the text after it, and the text of the group, if the
    pattern has one. *)
Definition mres : Type := str * option str.

(** A continuation takes: whether the position is the start of the
    subject, the text from the position on, and the text from the open
    parenthesis on. *)
Definition cont := bool -> str -> option str -> option mres.

(** [c*] followed by [k]: the longest run first, then shorter ones. *)
Fixpoint star (c : charset) (k : cont) (bos : bool) (s : str)
    (g : option str) : option mres :=
  match s with
  | x :: s' =>
      if c x
      then match star c k false s' g with
           | Some r => Some r
           | None => k bos s g
           end
      else k bos s g
  | [] => k bos s g
  end.

Definition group_text (g : option str) (s : str) : option str :=
  match g with
  | Some g0 => Some (take (length g0 - length s) g0)
  | None => None
  end.

(** Match the pattern at the current position. *)
Fixpoint run (p : pattern) : cont :=
  match p with
  | [] => fun _ s _ => Some (s, None)
  | a :: p' =>
      let k := run p' in
      match a with
      | One c => fun _ s g =>
          match s with
          | x :: s' => if c x then k false s' g else None
          | [] => None
          end
      | Opt c => fun bos s g =>
          match s with
          | x :: s' =>
              if c x
              then match k false s' g with
                   | Some r => Some r
                   | None => k bos s g
                   end
              else k bos s g
          | [] => k bos s g
          end
      | Star c => star c k
      | Plus c => fun _ s g =>
          match s with
          | x :: s' => if c x then star c k false s' g else None
          | [] => None
          end
      | Bol => fun bos s g => if bos then k bos s g else None
      | Eol => fun bos s g =>
          (* the end of the subject, or just before its final newline *)
          match s with
          | [] => k bos s g
          | [10] => k bos s g
          | _ => None
          end
      | Open => fun bos s _ => k bos s (Some s)
      | Close => fun bos s g =>
          match k bos s g with
          | Some (r, _) => Some (r, group_text g s)
          | None => None
          end
      end
  end.

Definition match_at (p : pattern) (bos : bool) (s : str) : option mres :=
  run p bos s None.

(** [re.search(p, s)]: the leftmost match. *)
Fixpoint search_go (p : pattern) (bos : bool) (s : str) : option mres :=
  match match_at p bos s with
  | Some r => Some r
  | None =>
      match s with
      | [] => None
      | _ :: s' => search_go p false s'
      end
  end.

Definition search (p : pattern) (s : str) : option mres := search_go p true s.

(** [re.sub(p, repl, s)] for a literal [repl]: the matches are taken
    from the left and do not overlap.  The plugins' patterns match at
    least one character; an empty match is passed over.  The scan ends
    within [length s + 1] steps. *)
Fixpoint sub_go (n : nat) (p : pattern) (repl : str) (bos : bool) (s : str)
    : str :=
  match n with
  | O => s
  | S n' =>
      let step :=
        match s with
        | [] => []
        | c :: s' => c :: sub_go n' p repl false s'
        end in
      match match_at p bos s with
      | Some (r, _) =>
          if (length r <? length s)%nat
          then repl ++ sub_go n' p repl false r
          else step
      | None => step
      end
  end.

Definition sub (p : pattern) (repl : str) (s : str) : str :=
  sub_go (S (length s)) p repl true s.

(** [re.findall(p, s)] for a pattern with one group: the group of each
    match, from the left, without overlap. *)
Fixpoint findall_go (n : nat) (p : pattern) (bos : bool) (s : str)
    : list str :=
  match n with
  | O => []
  | S n' =>
      let step :=
        match s with
        | [] => []
        | _ :: s' => findall_go n' p false s'
        end in
      match match_at p bos s with
      | Some (r, g) =>
          if (length r <? length s)%nat
          then default [] g :: findall_go n' p false r
          else step
      | None => step
      end
  end.

Definition findall (p : pattern) (s : str) : list str :=
  findall_go (S (length s)) p true s.

(** Character classes and literals. *)
Definition chr (a : ascii) : charset := fun c => c =? N_of_ascii a.
Definition notchr (a : ascii) : charset := fun c => negb (c =? N_of_ascii a).
Definition oneof (l : str) : charset := fun c => existsb (N.eqb c) l.
Definition noneof (l : str) : charset := fun c => negb (existsb (N.eqb c) l).
Definition space : charset := Unicode.is_space.
Definition nonspace : charset := fun c => negb (Unicode.is_space c).
Definition digit : charset := Unicode.is_decimal.
(** [.] without DOTALL: any character but the newline. *)
Definition dot : charset := fun c => negb (c =? 10).

Definition text (s : string) : pattern :=
  List.map (fun a => One (chr a)) (list_ascii_of_string s).

End Re.

(* ================================================================== *)
(** ** [urllib.parse.unquote] and [urllib.parse.quote] *)
(* ================================================================== *)

Module Urllib.

(** U+FFFD, which the [replace] error handler puts for undecodable bytes. *)
Definition replacement : N := 0xFFFD.

Definition hex_value (c : N) : option N :=
  if (48 <=? c) && (c <=? 57) then Some (c - 48)
  else if (65 <=? c) && (c <=? 70) then Some (c - 55)
  else if (97 <=? c) && (c <=? 102) then Some (c - 87)
  else None.

(** [unquote_to_bytes] on an ASCII run: [%XX] with two hexadecimal
    digits becomes the byte, any other [%] stays. *)
Fixpoint unquote_to_bytes (s : str) : list N :=
  match s with
  | [] => []
  | c :: s' =>
      if c =? 37 then
        match s' with
        | h1 :: h2 :: s'' =>
            match hex_value h1, hex_value h2 with
            | Some a, Some b => (16 * a + b) :: unquote_to_bytes s''
            | _, _ => c :: unquote_to_bytes s'
            end
        | _ => c :: unquote_to_bytes s'
        end
      else c :: unquote_to_bytes s'
  end.

Definition is_cont (b : N) : bool := (0x80 <=? b) && (b <=? 0xBF).

(** The second byte of a three-byte sequence: no overlong form after
    [E0], no surrogate after [ED]. *)
Definition second_of_3 (b0 b1 : N) : bool :=
  is_cont b1 &&
  (if b0 =? 0xE0 then 0xA0 <=? b1 else if b0 =? 0xED then b1 <? 0xA0 else true).

(** The second byte of a four-byte sequence: no overlong form after
    [F0], nothing above U+10FFFF after [F4]. *)
Definition second_of_4 (b0 b1 : N) : bool :=
  is_cont b1 &&
  (if b0 =? 0xF0 then 0x90 <=? b1 else if b0 =? 0xF4 then b1 <? 0x90 else true).

(** [bytes.decode('utf-8', 'replace')]: every maximal ill-formed part
    becomes one U+FFFD; a sequence cut short by the end of the input
    becomes one U+FFFD as a whole. *)
Fixpoint utf8_decode (bs : list N) : str :=
  match bs with
  | [] => []
  | b0 :: t0 =>
      if b0 <? 0x80 then b0 :: utf8_decode t0
      else if b0 <? 0xC2 then replacement :: utf8_decode t0
      else if b0 <? 0xE0 then
        match t0 with
        | [] => [replacement]
        | b1 :: t1 =>
            if is_cont b1
            then ((b0 - 0xC0) * 64 + (b1 - 0x80)) :: utf8_decode t1
            else replacement :: utf8_decode t0
        end
      else if b0 <? 0xF0 then
        match t0 with
        | [] => [replacement]
        | b1 :: t1 =>
            if second_of_3 b0 b1 then
              match t1 with
              | [] => [replacement]
              | b2 :: t2 =>
                  if is_cont b2
                  then ((b0 - 0xE0) * 4096 + (b1 - 0x80) * 64 + (b2 - 0x80))
                         :: utf8_decode t2
                  else replacement :: utf8_decode t1
              end
            else replacement :: utf8_decode t0
        end
      else if b0 <? 0xF5 then
        match t0 with
        | [] => [replacement]
        | b1 :: t1 =>
            if second_of_4 b0 b1 then
              match t1 with
              | [] => [replacement]
              | b2 :: t2 =>
                  if is_cont b2 then
                    match t2 with
                    | [] => [replacement]
                    | b3 :: t3 =>
                        if is_cont b3
                        then ((b0 - 0xF0) * 262144 + (b1 - 0x80) * 4096
                              + (b2 - 0x80) * 64 + (b3 - 0x80))
                               :: utf8_decode t3
                        else replacement :: utf8_decode t2
                    end
                  else replacement :: utf8_decode t1
              end
            else replacement :: utf8_decode t0
        end
      else replacement :: utf8_decode t0
  end.

(** The runs of ASCII characters are unquoted and decoded one by one;
    the characters between them are kept.  [run] is the ASCII run being
    read. *)
Fixpoint unquote_go (run : str) (s : str) : str :=
  match s with
  | [] => utf8_decode (unquote_to_bytes run)
  | c :: s' =>
      if c <? 0x80
      then unquote_go (run ++ [c]) s'
      else utf8_decode (unquote_to_bytes run) ++ c :: unquote_go [] s'
  end.

(** [unquote(s)] with the default [encoding='utf-8', errors='replace']. *)
Definition unquote (s : str) : str :=
  if negb (PyStr.contains [37] s) then s else unquote_go [] s.

(** [str.encode('utf-8')], strict: a surrogate cannot be encoded. *)
Definition utf8_encode_char (c : N) : option (list N) :=
  if c <? 0x80 then Some [c]
  else if c <? 0x800 then Some [0xC0 + c / 64; 0x80 + c mod 64]
  else if (0xD800 <=? c) && (c <=? 0xDFFF) then None
  else if c <? 0x10000
  then Some [0xE0 + c / 4096; 0x80 + (c / 64) mod 64; 0x80 + c mod 64]
  else Some [0xF0 + c / 262144; 0x80 + (c / 4096) mod 64;
             0x80 + (c / 64) mod 64; 0x80 + c mod 64].

Fixpoint utf8_encode (s : str) : option (list N) :=
  match s with
  | [] => Some []
  | c :: s' =>
      match utf8_encode_char c, utf8_encode s' with
      | Some b, Some bs => Some (b ++ bs)
      | _, _ => None
      end
  end.

(** Letters, digits and [_.-~] are never quoted. *)
Definition always_safe (b : N) : bool :=
  ((65 <=? b) && (b <=? 90)) || ((97 <=? b) && (b <=? 122))
  || ((48 <=? b) && (b <=? 57))
  || (b =? 95) || (b =? 46) || (b =? 45) || (b =? 126).

Definition hex_digit (n : N) : N := if n <? 10 then 48 + n else 55 + n.

Definition quote_byte (safe : str) (b : N) : str :=
  if always_safe b || existsb (N.eqb b) safe then [b]
  else [37; hex_digit (b / 16); hex_digit (b mod 16)].

(** [quote(s, safe=safe)]: [None] stands for the [UnicodeEncodeError]
    raised on a string that holds a surrogate. *)
Definition quote (s : str) (safe : str) : option str :=
  match utf8_encode s with
  | Some bs => Some (List.concat (List.map (quote_byte safe) bs))
  | None => None
  end.

End Urllib.

(* ================================================================== *)
(** ** [sorted] and [os.path.join] *)
(* ================================================================== *)

Module Py.

Section Sorted.
Context {A : Type} (key : A -> N) (reverse : bool).

(** [x] goes before [y] when its key does not come after. *)
Definition before (x y : A) : bool :=
  if reverse then key y <=? key x else key x <=? key y.

Fixpoint insert (x : A) (l : list A) : list A :=
  match l with
  | [] => [x]
  | y :: l' => if before x y then x :: l else y :: insert x l'
  end.

(** [sorted(l, key=key, reverse=reverse)]: the sort is stable, also
    when reversed, so elements with equal keys keep their order. *)
Fixpoint sorted (l : list A) : list A :=
  match l with
  | [] => []
  | x :: l' => insert x (sorted l')
  end.
End Sorted.

(** [os.path.join(a, b)] on POSIX. *)
Definition path_join (a b : str) : str :=
  if PyStr.startswith b [47] then b
  else if PyStr.eqb a [] || PyStr.endswith a [47] then a ++ b
  else a ++ [47] ++ b.

End Py.

(* ================================================================== *)
(** ** Effects: exceptions, the filesystem, the log *)
(* ================================================================== *)

Module Effects.

(** The exceptions the modelled code can meet.  What a collaborator
    (browser, HTTP client, XML parser) raises is [Collaborator]; its
    flag tells whether the exception is an instance of [Exception]
    ([KeyboardInterrupt] and [SystemExit] are not). *)
Inductive exn :=
| AttributeError
| TypeError
| ValueError
| OverflowError
| UnicodeEncodeError
| OSError
| Collaborator (id : N) (is_exception : bool).

(** [isinstance(e, Exception)] *)
Definition is_Exception (e : exn) : bool :=
  match e with
  | Collaborator _ b => b
  | _ => true
  end.

Inductive outcome (A : Type) :=
| Return (a : A)
| Raise (e : exn).
Arguments Return {A} a.
Arguments Raise {A} e.

(** The warnings of the modelled code; messages of the other levels
    are not recorded. *)
Inductive message :=
| RetryIn (mdelay : Z)        (* 未获取到文件信息，{mdelay}秒后重试 ... *)
| CheckSeasonOrNetwork        (* 请确保当前季度番剧文件夹存在或检查网络问题 *)
| PlaywrightUnavailable       (* Playwright不可用，... *)
| NoVideoElement.             (* 未找到预期的视频元素，继续尝试解析... *)

Inductive event :=
| Warn (m : message)          (* [logger.warn] *)
| Print (m : message)         (* [print] *)
| Sleep (seconds : Z).        (* a pause made by [time.sleep] *)

(** What [open(path, 'w')] followed by [write] comes to: the file holds
    the text; [open] raised and there is no file; or the file was
    created and the write raised, leaving [partial] in it. *)
Inductive io_result :=
| Written
| OpenFailed
| WriteFailed (partial : str).

(** The state the code runs in: the fields of the plugin object, the
    files by path, the state of the collaborators, and the events so
    far, oldest first. *)
Record world (P E : Type) := World {
  self : P;
  files : gmap str str;
  env : E;
  trace : list event
}.
Arguments World {P E}.
Arguments self {P E}.
Arguments files {P E}.
Arguments env {P E}.
Arguments trace {P E}.

Section Monad.
Context {P E : Type}.

Definition M (A : Type) : Type := world P E -> outcome A * world P E.

Definition ret {A} (a : A) : M A := fun w => (Return a, w).
Definition raise {A} (e : exn) : M A := fun w => (Raise e, w).

Definition bind {A B} (m : M A) (k : A -> M B) : M B :=
  fun w =>
    match m w with
    | (Return a, w') => k a w'
    | (Raise e, w') => (Raise e, w')
    end.

(** [try: m except Exception: handler] *)
Definition try_except {A} (m : M A) (handler : exn -> M A) : M A :=
  fun w =>
    match m w with
    | (Return a, w') => (Return a, w')
    | (Raise e, w') =>
        if is_Exception e then handler e w' else (Raise e, w')
    end.

(** [try: m finally: cleanup]: the clean-up runs whatever [m] did, and
    what it raises takes the place of the outcome of [m]. *)
Definition try_finally {A} (m : M A) (cleanup : M unit) : M A :=
  fun w =>
    let '(o, w') := m w in
    match cleanup w' with
    | (Return _, w'') => (o, w'')
    | (Raise e, w'') => (Raise e, w'')
    end.

Definition emit (ev : event) : M unit :=
  fun w => (Return tt, World (self w) (files w) (env w) (trace w ++ [ev])).

Definition get_self : M P := fun w => (Return (self w), w).

Definition set_self (p : P) : M unit :=
  fun w => (Return tt, World p (files w) (env w) (trace w)).

(** A pure computation that may raise. *)
Definition lift {A} (o : outcome A) : M A := fun w => (o, w).

(** A call of a collaborator, which may change its own state. *)
Definition call {A} (f : E -> outcome A * E) : M A :=
  fun w =>
    let '(o, e') := f (env w) in
    (o, World (self w) (files w) e' (trace w)).

(** [os.path.exists(path)] *)
Definition path_exists (path : str) : M bool :=
  fun w => (Return (bool_decide (is_Some (files w !! path))), w).

(** [with open(path, 'w') as file: file.write(text)]; [os_write] is
    what the operating system makes of it. *)
Definition write_file (os_write : str -> str -> E -> io_result)
    (path text : str) : M unit :=
  fun w =>
    match os_write path text (env w) with
    | Written =>
        (Return tt, World (self w) (<[path := text]> (files w)) (env w) (trace w))
    | OpenFailed => (Raise OSError, w)
    | WriteFailed partial =>
        (Raise OSError,
         World (self w) (<[path := partial]> (files w)) (env w) (trace w))
    end.

(** The longest pause in seconds whose nanoseconds fit 64 bits. *)
Definition sleep_max : Z := 9223372036.

(** [time.sleep(secs)] on an integer: [OverflowError] when the
    nanoseconds do not fit 64 bits, [ValueError] on a negative number;
    else the pause is the operating system's ([os_sleep]), which may
    refuse it or be interrupted.  A pause made is recorded. *)
Definition sleep (os_sleep : Z -> E -> outcome unit * E) (secs : Z) : M unit :=
  if ((secs <? - sleep_max) || (sleep_max <? secs))%Z then raise OverflowError
  else if (secs <? 0)%Z then raise ValueError
  else bind (call (os_sleep secs)) (fun _ => emit (Sleep secs)).
End Monad.

End Effects.

Notation "x <- m ;; k" := (Effects.bind m (fun x => k))
  (at level 100, m at next level, right associativity).
Notation "m ;;; k" := (Effects.bind m (fun _ => k))
  (at level 100, right associativity).

(* ================================================================== *)
(** ** plugins/topanimestrm: names, series, ranking and URLs *)
(* ================================================================== *)

Module TopAnimeStrm.

Definition mp4 : str := Eval cbv in lit ".mp4".
Definition a_view : str := Eval cbv in lit "?a=view".
Definition slash : str := Eval cbv in lit "/".
Definition mp4_d_true : str := Eval cbv in lit ".mp4?d=true".
Definition d_mp4 : str := Eval cbv in lit "?d=mp4".
Definition d_true : str := Eval cbv in lit "?d=true".
Definition dot : str := Eval cbv in lit ".".
Definition hyphen : str := Eval cbv in lit "-".
Definition dot_strm : str := Eval cbv in lit ".strm".
Definition none_text : str := Eval cbv in lit "None".
Definition openani_root : str := Eval cbv in lit "https://openani.an-i.workers.dev/".
Definition feed_addr : str := Eval cbv in lit "https://api.ani.rip/ani-download.xml".

(** [<[^>]+>] *)
Definition re_tag : Re.pattern :=
  [Re.One (Re.chr "<"); Re.Plus (Re.notchr ">"); Re.One (Re.chr ">")].

(** [^\[ANi\]\s*] *)
Definition re_ani_prefix : Re.pattern :=
  Re.Bol :: Re.text "[ANi]" ++ [Re.Star Re.space].

(** [\s*-\s*\d+\s*\[.*$] *)
Definition re_episode_part : Re.pattern :=
  [Re.Star Re.space; Re.One (Re.chr "-"); Re.Star Re.space;
   Re.Plus Re.digit; Re.Star Re.space; Re.One (Re.chr "[");
   Re.Star Re.dot; Re.Eol].

(** [\s*\[.*$] *)
Definition re_quality : Re.pattern :=
  [Re.Star Re.space; Re.One (Re.chr "["); Re.Star Re.dot; Re.Eol].

(** [- (\d+)] *)
Definition re_episode : Re.pattern :=
  [Re.One (Re.chr "-"); Re.One (Re.chr " ");
   Re.Open; Re.Plus Re.digit; Re.Close].

(** [unquote] raises nothing on a [str], so the [except] of the decoding
    step is never entered. *)
Definition _clean_filename (filename : str) : str :=
  match filename with
  | [] => []
  | _ =>
      let filename :=
        if PyStr.contains a_view filename
        then PyStr.first (PyStr.split filename a_view)
        else filename in
      let filename := Urllib.unquote filename in
      let filename := Re.sub re_tag [] filename in
      let filename :=
        if PyStr.contains slash filename
        then PyStr.last (PyStr.split filename slash)
        else filename in
      let filename := PyStr.strip filename in
      if negb (PyStr.endswith filename mp4)
      then filename ++ mp4
      else filename
  end.

Definition _extract_anime_name (filename : str) : str :=
  let name := Re.sub re_ani_prefix [] filename in
  let name := Re.sub re_episode_part [] name in
  let name := Re.sub re_quality [] name in
  PyStr.strip name.

(** [int(match.group(1))] raises [ValueError] on a run of too many
    digits. *)
Definition _extract_episode_number (filename : str) : Effects.outcome N :=
  match Re.search re_episode filename with
  | Some (_, Some digits) =>
      match PyStr.to_int digits with
      | Some n => Effects.Return n
      | None => Effects.Raise Effects.ValueError
      end
  | _ => Effects.Return 0
  end.

(** The dictionary [anime_series], in insertion order. *)
Definition series := list (str * list str).

(** [anime_series[anime_name].append(clean_name)], after the entry was
    created when the name was new. *)
Fixpoint add_episode (anime_name clean_name : str) (d : series) : series :=
  match d with
  | [] => [(anime_name, [clean_name])]
  | (k, episodes) :: d' =>
      if PyStr.eqb k anime_name
      then (k, episodes ++ [clean_name]) :: d'
      else (k, episodes) :: add_episode anime_name clean_name d'
  end.

(** One turn of the loop over [video_files]. *)
Definition collect (anime_series : series) (filename : str) : series :=
  match _clean_filename filename with
  | [] => anime_series
  | clean_name =>
      match _extract_anime_name clean_name with
      | [] => anime_series
      | anime_name => add_episode anime_name clean_name anime_series
      end
  end.

Definition group_series (video_files : list str) : series :=
  fold_left collect video_files [].

Definition episode_count (item : str * list str) : N :=
  N.of_nat (length (snd item)).

(** [sorted(anime_series.items(), key=lambda x: len(x[1]), reverse=True)] *)
Definition sorted_anime (anime_series : series) : series :=
  Py.sorted episode_count true anime_series.

Definition top15_anime (anime_series : series) : series :=
  take 15 (sorted_anime anime_series).

(** The keys of [sorted(l, key=key)]: the key of every element is
    computed, in the order of the list, before any comparison; the
    first key that raises ends the call. *)
Fixpoint with_keys {A : Type} (key : A -> Effects.outcome N) (l : list A)
    : Effects.outcome (list (N * A)) :=
  match l with
  | [] => Effects.Return []
  | x :: l' =>
      match key x with
      | Effects.Raise e => Effects.Raise e
      | Effects.Return k =>
          match with_keys key l' with
          | Effects.Raise e => Effects.Raise e
          | Effects.Return keyed => Effects.Return ((k, x) :: keyed)
          end
      end
  end.

(** [sorted(episodes, key=lambda x: self._extract_episode_number(x))] *)
Definition sorted_episodes (episodes : list str) : Effects.outcome (list str) :=
  match with_keys _extract_episode_number episodes with
  | Effects.Return keyed =>
      Effects.Return (List.map snd (Py.sorted fst false keyed))
  | Effects.Raise e => Effects.Raise e
  end.

(** The loop over [top15_anime]:
    [cleaned_files.extend(sorted_episodes)]. *)
Fixpoint extend_sorted (top15_anime : series) (cleaned_files : list str)
    : Effects.outcome (list str) :=
  match top15_anime with
  | [] => Effects.Return cleaned_files
  | (anime_name, episodes) :: top15_anime' =>
      match sorted_episodes episodes with
      | Effects.Raise e => Effects.Raise e
      | Effects.Return sorted_episodes =>
          extend_sorted top15_anime' (cleaned_files ++ sorted_episodes)
      end
  end.

(** The messages to the log (all of level info) are left out. *)
Definition _clean_and_get_top15 (video_files : list str)
    : Effects.outcome (list str) :=
  extend_sorted (top15_anime (group_series video_files)) [].

Definition _is_url_format_valid (url : str) : bool :=
  PyStr.endswith url mp4_d_true.

Definition _convert_url_format (url : str) : str :=
  if PyStr.contains d_mp4 url then PyStr.replace url d_mp4 mp4_d_true
  else if PyStr.endswith url mp4 then url ++ d_true
  else url ++ mp4_d_true.

(** The feed-shape branch of [__touch_strm_file]. *)
Definition feed_url (file_url : str) : str :=
  if _is_url_format_valid file_url then file_url
  else _convert_url_format file_url.

(** *** The rendered season page and the five extraction layers *)

(** What the browser gives for the season page: the serialized markup,
    the [src] of every [video] element, the [href] of every element
    the selector for links with .mp4 in their target returns, the
    [data-filename] of every element
    that has one, and the text of [body].  [get_attribute] and
    [text_content] return [None] when there is nothing to return.
    [found_selector] tells whether [wait_for_selector] succeeded. *)
Record page := Page {
  found_selector : bool;
  content : str;
  video_src : list (option str);
  link_href : list (option str);
  data_filename : list (option str);
  body_text : option str
}.

(** The double and the single quote. *)
Definition dquote : ascii := Eval cbv in ascii_of_N 34.
Definition squote : ascii := Eval cbv in ascii_of_N 39.
Definition quotes : str := [34; 39].

(** The first two patterns: a quote character [q], the group
    [[^q]*\.mp4[^q]*], and [q] again. *)
Definition re_quoted (q : ascii) : Re.pattern :=
  [Re.One (Re.chr q); Re.Open; Re.Star (Re.notchr q)] ++ Re.text ".mp4"
  ++ [Re.Star (Re.notchr q); Re.Close; Re.One (Re.chr q)].

(** The four keyed patterns: [key Q?\s*:\s*Q], the group
    [[^Q]*\.mp4[^Q]*], and [Q], where [Q] is the class of the two quote
    characters. *)
Definition re_keyed (key : string) : Re.pattern :=
  Re.text key
  ++ [Re.Opt (Re.oneof quotes); Re.Star Re.space; Re.One (Re.chr ":");
      Re.Star Re.space; Re.One (Re.oneof quotes);
      Re.Open; Re.Star (Re.noneof quotes)]
  ++ Re.text ".mp4"
  ++ [Re.Star (Re.noneof quotes); Re.Close; Re.One (Re.oneof quotes)].

Definition patterns : list Re.pattern :=
  [ re_quoted dquote; re_quoted squote;
    re_keyed "filename"; re_keyed "name"; re_keyed "src"; re_keyed "href" ].

(** The pattern of the body text: the group [[^/\s]+\.mp4[^\s]*]. *)
Definition re_text_mp4 : Re.pattern :=
  [Re.Open; Re.Plus (fun c => negb (c =? 47) && negb (Unicode.is_space c))]
  ++ Re.text ".mp4" ++ [Re.Star Re.nonspace; Re.Close].

(** [x in video_files] *)
Definition mem (x : str) (video_files : list str) : bool :=
  existsb (PyStr.eqb x) video_files.

(** [if x not in video_files: video_files.append(x)] *)
Definition append_new (video_files : list str) (x : str) : list str :=
  if mem x video_files then video_files else video_files ++ [x].

(** Layer 1: the [video] elements. *)
Definition layer_video (video_files : list str) (src : option str) : list str :=
  match src with
  | Some ((_ :: _) as src) =>
      if PyStr.endswith src mp4
      then video_files ++ [PyStr.last (PyStr.split src slash)]
      else video_files
  | _ => video_files
  end.

(** Layer 2: the links. *)
Definition layer_link (video_files : list str) (href : option str) : list str :=
  match href with
  | Some ((_ :: _) as href) =>
      if PyStr.contains mp4 href
      then append_new video_files (PyStr.last (PyStr.split href slash))
      else video_files
  | _ => video_files
  end.

(** Layer 3: the [data-filename] attributes. *)
Definition layer_data (video_files : list str) (filename : option str) : list str :=
  match filename with
  | Some ((_ :: _) as filename) =>
      if PyStr.contains mp4 filename
      then append_new video_files filename
      else video_files
  | _ => video_files
  end.

(** Layer 4: the quoted strings of the markup, pattern by pattern. *)
Definition layer_match (video_files : list str) (m : str) : list str :=
  match m with
  | [] => video_files
  | _ => append_new video_files m
  end.

Definition layer_pattern (content : str) (video_files : list str)
    (pattern : Re.pattern) : list str :=
  fold_left layer_match (Re.findall pattern content) video_files.

(** The list [video_files] handed to [_clean_and_get_top15]; the scan of
    the body text raises [TypeError] when there is no text. *)
Definition extract_video_files (p : page) : Effects.outcome (list str) :=
  let video_files := [] in
  let video_files := fold_left layer_video (video_src p) video_files in
  let video_files := fold_left layer_link (link_href p) video_files in
  let video_files := fold_left layer_data (data_filename p) video_files in
  let video_files := fold_left (layer_pattern (content p)) patterns video_files in
  match body_text p with
  | None => Effects.Raise Effects.TypeError
  | Some all_text =>
      Effects.Return
        (fold_left append_new (Re.findall re_text_mp4 all_text) video_files)
  end.

(** *** The plugin object and its methods with effects *)

(** [_storageplace] is [None] until configured; [_date] is not an
    attribute of the object until [__get_ani_season] sets it. *)
Record plugin := Plugin {
  _storageplace : option str;
  _date : option str
}.

(** [f'{x}'] for a string or [None]. *)
Definition format (x : option str) : str :=
  match x with
  | Some s => s
  | None => none_text
  end.

(** [for month in range(current_month, 0, -1): if month in [10, 7, 4, 1]] *)
Fixpoint season_month (current_month : nat) : option nat :=
  match current_month with
  | O => None
  | S m =>
      if existsb (Nat.eqb current_month) [10; 7; 4; 1]%nat
      then Some current_month
      else season_month m
  end.

Section Methods.
Import Effects.
Context {E : Type}.

(** The collaborators: the clock ([datetime.now()]: year and month);
    the availability of Playwright; the browser: its launch with a new
    page, the visit of a URL with the waits and the queries on the page,
    and its closing; the HTTP client; the XML parser with
    [DomUtils.tag_value] (the title and link of every [item]); and the
    operating system's answer to a write and to a pause. *)
Variable now : E -> N * nat.
Variable PLAYWRIGHT_AVAILABLE : bool.
Variable launch : E -> outcome unit * E.
Variable browse : str -> E -> outcome page * E.
Variable close : E -> outcome unit * E.
Variable http_get : str -> E -> outcome str * E.
Variable parse_items : str -> outcome (list (str * str)).
Variable os_write : str -> str -> E -> io_result.
Variable os_sleep : Z -> E -> outcome unit * E.

Abbreviation M := (@Effects.M plugin E).

Definition __get_ani_season (idx_month : option nat) : M (option str) :=
  fun w =>
    let '(current_year, month) := now (env w) in
    let current_month :=
      match idx_month with
      | Some ((S _) as m) => m
      | _ => month
      end in
    match season_month current_month with
    | Some month =>
        let season :=
          PyStr.of_N current_year ++ hyphen ++ PyStr.of_N (N.of_nat month) in
        (Return (Some season),
         World (Plugin (_storageplace (self w)) (Some season))
               (files w) (env w) (trace w))
    | None => (Return None, w)
    end.

(** [retry(ExceptionToCheck, tries, delay, backoff, logger, ret)(f)];
    [catches e] is [isinstance(e, ExceptionToCheck)], [has_logger]
    tells whether a logger was given.  [mtries] counts down to zero.
    What the handler raises (the f-string of the message on a delay of
    too many digits, [time.sleep] on a delay it does not take) ends the
    call. *)
Section Retry.
Context {A : Type}.
Variable catches : exn -> bool.
Variables (tries delay backoff : Z) (has_logger : bool) (ret_value : A).
Variable f : M A.

Definition report (m : message) : M unit :=
  if has_logger then emit (Warn m) else emit (Print m).

Fixpoint f_retry_loop (mtries : nat) (mdelay : Z) : M A :=
  match mtries with
  | O =>
      (if has_logger then emit (Warn CheckSeasonOrNetwork) else ret tt) ;;;
      ret ret_value
  | S mtries' =>
      fun w =>
        match f w with
        | (Return a, w') => (Return a, w')
        | (Raise e, w') =>
            if catches e
            then ((if PyStr.of_int_raises mdelay
                   then raise ValueError else ret tt) ;;;
                  report (RetryIn mdelay) ;;;
                  sleep os_sleep mdelay ;;;
                  f_retry_loop mtries' (mdelay * backoff)%Z) w'
            else (Raise e, w')
        end
  end.

Definition retry : M A := f_retry_loop (Z.to_nat tries) delay.
End Retry.

(** The body of [get_current_season_list], under its decorator. *)
Definition season_list_body : M (list str) :=
  if negb PLAYWRIGHT_AVAILABLE
  then emit (Warn PlaywrightUnavailable) ;;; ret []
  else
    season <- __get_ani_season None ;;
    let url := openani_root ++ format season ++ slash in
    try_except
      (call launch ;;;
       try_finally
         (p <- call (browse url) ;;
          (if found_selector p then ret tt else emit (Warn NoVideoElement)) ;;;
          video_files <- lift (extract_video_files p) ;;
          lift (_clean_and_get_top15 video_files))
         (call close))
      (fun _ => ret []).

(** [@retry(Exception, tries=3, logger=logger, ret=[])]; [delay] and
    [backoff] keep their defaults 3 and 1. *)
Definition get_current_season_list : M (list str) :=
  retry is_Exception 3 3 1 true [] season_list_body.

Definition resources_ani_rip : str := Eval cbv in lit "resources.ani.rip".
Definition openani_workers : str := Eval cbv in lit "openani.an-i.workers.dev".

(** The body of [get_latest_list]: every [rss_info] is the pair of its
    title and its link. *)
Definition latest_list_body : M (list (str * str)) :=
  let addr := feed_addr in
  ret_xml <- call (http_get addr) ;;
  items <- lift (parse_items ret_xml) ;;
  ret (List.map
         (fun '(title, link) =>
            (title, PyStr.replace link resources_ani_rip openani_workers))
         items).

Definition get_latest_list : M (list (str * str)) :=
  retry is_Exception 3 3 1 true [] latest_list_body.

(** The URL [__touch_strm_file] writes: built from the name and the
    season when no URL is given, else the URL of the feed, converted
    when its format is not the required one. *)
Definition src_url (file_name : str) (file_url : option str) : M str :=
  match file_url with
  | Some ((_ :: _) as file_url) => ret (feed_url file_url)
  | _ =>
      match Urllib.quote file_name dot with
      | None => raise UnicodeEncodeError
      | Some encoded_filename =>
          p <- get_self ;;
          match _date p with
          | None => raise AttributeError
          | Some date =>
              ret (openani_root ++ date ++ slash
                   ++ encoded_filename ++ d_true)
          end
      end
  end.

(** [f'{self._storageplace}/{clean_file_name}.strm'] *)
Definition strm_path (p : plugin) (file_name : str) : str :=
  format (_storageplace p) ++ slash ++ _clean_filename file_name ++ dot_strm.

Definition __touch_strm_file (file_name : str) (file_url : option str)
    : M bool :=
  url <- src_url file_name file_url ;;
  p <- get_self ;;
  let file_path := strm_path p file_name in
  exists_ <- path_exists file_path ;;
  if (exists_ : bool) then ret false
  else
    try_except
      (write_file os_write file_path url ;;; ret true)
      (fun _ => ret false).

(** [__task]: the number of descriptors created is [cnt]. *)
Fixpoint touch_all {X} (touch : X -> M bool) (l : list X) (cnt : N) : M N :=
  match l with
  | [] => ret cnt
  | x :: l' =>
      created <- touch x ;;
      touch_all touch l' (if (created : bool) then cnt + 1 else cnt)
  end.

Definition __task (fulladd : bool) : M N :=
  if negb fulladd then
    rss_info_list <- get_latest_list ;;
    touch_all (fun '(title, link) => __touch_strm_file title (Some link))
              rss_info_list 0
  else
    name_list <- get_current_season_list ;;
    touch_all (fun file_name => __touch_strm_file file_name None)
              name_list 0.
End Methods.

End TopAnimeStrm.

(* ================================================================== *)
(** ** plugins/videostrm: the descriptor of a search result *)
(* ================================================================== *)

Module VideoStrm.

(** The class of the pattern: less-than, greater-than, colon, double
    quote, slash, backslash, vertical bar, question mark, asterisk. *)
Definition illegal : str := [60; 62; 58; 34; 47; 92; 124; 63; 42].

Definition re_illegal : Re.pattern := [Re.One (Re.oneof illegal)].

Definition space : str := Eval cbv in lit " ".
Definition dot_strm : str := Eval cbv in lit ".strm".

Definition _sanitize_filename (filename : str) : str :=
  let filename := Re.sub re_illegal [] filename in
  let filename := PyStr.join space (PyStr.split_ws filename) in
  if (200 <? length filename)%nat then take 200 filename else filename.

Record plugin := Plugin {
  _storageplace : option str
}.

Section Methods.
Import Effects.
Context {E : Type}.

(** The collaborators: [os.makedirs(path, exist_ok=True)] and the
    operating system's answer to a write. *)
Variable os_makedirs : str -> E -> outcome unit * E.
Variable os_write : str -> str -> E -> io_result.

Abbreviation M := (@Effects.M plugin E).

(** [code if code else self._sanitize_filename(title)] *)
Definition strm_name (title : str) (code : option str) : str :=
  match code with
  | Some ((_ :: _) as code) => code
  | _ => _sanitize_filename title
  end.

Definition create_strm_file (title source_url : str) (code : option str)
    : M bool :=
  p <- get_self ;;
  match _storageplace p with
  | Some ((_ :: _) as storageplace) =>
      call (os_makedirs storageplace) ;;;
      let filename := strm_name title code in
      let file_path := Py.path_join storageplace (filename ++ dot_strm) in
      exists_ <- path_exists file_path ;;
      if (exists_ : bool) then ret false
      else
        try_except
          (write_file os_write file_path source_url ;;; ret true)
          (fun _ => ret false)
  | _ => ret false
  end.
End Methods.

End VideoStrm.

(* ================================================================== *)
(** ** plugins/videostrm: the search and the task *)
(* ================================================================== *)

Module VideoStrmTask.

(** [[a-zA-Z0-9]] *)
Definition alnum : Re.charset := fun c =>
  ((97 <=? c) && (c <=? 122)) || ((65 <=? c) && (c <=? 90))
  || ((48 <=? c) && (c <=? 57)).

(** [/[a-zA-Z0-9]+-\d+] *)
Definition re_code_path : Re.pattern :=
  [Re.One (Re.chr "/"); Re.Plus alnum; Re.One (Re.chr "-"); Re.Plus Re.digit].

(** [/([a-zA-Z0-9]+-\d+)] *)
Definition re_code : Re.pattern :=
  [Re.One (Re.chr "/"); Re.Open; Re.Plus alnum; Re.One (Re.chr "-");
   Re.Plus Re.digit; Re.Close].

(** [s.upper()] on the text of the group of [re_code]: the letters [a]
    to [z] become [A] to [Z]; the other characters of such a text (the
    letters [A] to [Z], the hyphen and the decimal digits) have no
    uppercase of their own. *)
Definition upper (s : str) : str :=
  List.map (fun c => if (97 <=? c) && (c <=? 122) then c - 32 else c) s.

(** A search result: [{'title': title, 'url': full_url, 'code': code}]. *)
Record video := Video {
  title : str;
  url : str;
  code : str
}.

(** A card of the result page, as the scan reads it: its [href]
    attribute, and, when the card has a title element, the text of that
    element; an attribute and a text may be [None]. *)
Record card := Card {
  href : option str;
  title_elem : option (option str)
}.

Definition http : str := Eval cbv in lit "http".
Definition slash : str := Eval cbv in lit "/".
Definition en_search : str := Eval cbv in lit "/en/search/".
Definition newline : str := [10].

(** The body of the loop over the cards; [results] is the list so far. *)
Definition add_card (_base_url : str) (results : list video) (c : card)
    : Effects.outcome (list video) :=
  match href c with
  | Some ((_ :: _) as href) =>
      match Re.search re_code_path href with
      | Some _ =>
          match Re.search re_code href with
          | Some (_, group1) =>
              let code := upper (default [] group1) in
              let title :=
                match title_elem c with
                | Some (Some text) => Effects.Return (PyStr.strip text)
                | Some None => Effects.Raise Effects.AttributeError
                | None => Effects.Return code
                end in
              match title with
              | Effects.Raise e => Effects.Raise e
              | Effects.Return title =>
                  let full_url :=
                    if PyStr.startswith href http then href
                    else _base_url ++ href in
                  if existsb (fun r => PyStr.eqb (VideoStrmTask.code r) code) results
                  then Effects.Return results
                  else Effects.Return (results ++ [Video title full_url code])
              end
          | None => Effects.Return results
          end
      | None => Effects.Return results
      end
  | _ => Effects.Return results
  end.

(** The loop over the cards: the list [results] as the loop leaves it,
    and the exception that ended the loop, if one did. *)
Fixpoint scan_cards (_base_url : str) (video_cards : list card)
    (results : list video) : list video * option Effects.exn :=
  match video_cards with
  | [] => (results, None)
  | c :: video_cards' =>
      match add_card _base_url results c with
      | Effects.Return results' => scan_cards _base_url video_cards' results'
      | Effects.Raise e => (results, Some e)
      end
  end.

(** [[k.strip() for k in search_keywords.split('\n') if k.strip()]] *)
Definition parse_keywords (search_keywords : str) : list str :=
  List.map PyStr.strip
    (List.filter (fun k => negb (PyStr.eqb (PyStr.strip k) []))
       (PyStr.split search_keywords newline)).

(** The warnings of the search and of the task. *)
Inductive notice :=
| SearchUnavailable           (* Playwright不可用，无法搜索视频 *)
| KeywordsMissing             (* 未配置搜索关键词 *)
| KeywordsEmpty.              (* 搜索关键词为空 *)

Section Methods.
Import Effects.
Context {E : Type}.

(** The attributes of the object the search and the task read. *)
Variable _base_url : str.
Variable _search_keywords : option str.

(** The collaborators: the browser (its launch with a new page, the
    result page of a search as the list of its cards, its closing), the
    extraction of the stream address of a video page
    ([get_video_source], which is not modelled further), the operating
    system (directories, writes, pauses), and [logger.warn]; of the log
    nothing else is kept. *)
Variable PLAYWRIGHT_AVAILABLE : bool.
Variable launch : E -> outcome unit * E.
Variable browse : str -> E -> outcome (list card) * E.
Variable close : E -> outcome unit * E.
Variable get_video_source : str -> E -> outcome (option str) * E.
Variable os_makedirs : str -> E -> outcome unit * E.
Variable os_write : str -> str -> E -> io_result.
Variable os_sleep : Z -> E -> outcome unit * E.
Variable logger_warn : notice -> E -> E.

Abbreviation M := (@Effects.M VideoStrm.plugin E).

Definition warn (n : notice) : M unit :=
  call (fun e => (Return tt, logger_warn n e)).

(** [except Exception as e: ...] followed by [return results]. *)
Definition handled (results : list video) (e : exn) : M (list video) :=
  if is_Exception e then ret results else raise e.

(** [search_videos]: the list [results] is made before the [try] and
    returned after it, so that what the loop had appended when an
    exception ended it is returned. *)
Definition search_videos (keyword : str) : M (list video) :=
  if negb PLAYWRIGHT_AVAILABLE then warn SearchUnavailable ;;; ret []
  else
    match Urllib.quote keyword slash with
    | None => raise UnicodeEncodeError
    | Some quoted =>
        let search_url := _base_url ++ en_search ++ quoted in
        fun w =>
          match call launch w with
          | (Raise e, w1) => handled [] e w1
          | (Return _, w1) =>
              let '(page, w2) := call (browse search_url) w1 in
              let '(results, raised) :=
                match page with
                | Return video_cards => scan_cards _base_url video_cards []
                | Raise e => ([], Some e)
                end in
              (* finally: browser.close() *)
              match call close w2 with
              | (Raise e, w3) => handled results e w3
              | (Return _, w3) =>
                  match raised with
                  | Some e => handled results e w3
                  | None => ret results w3
                  end
              end
          end
    end.

(** The body of the loop over the videos of a keyword: whether a
    descriptor was created. *)
Definition process_video (v : video) : M bool :=
  try_except
    (source_url <- call (get_video_source (url v)) ;;
     created <-
       match source_url with
       | Some ((_ :: _) as source_url) =>
           VideoStrm.create_strm_file os_makedirs os_write
             (title v) source_url (Some (code v))
       | _ => ret false
       end ;;
     sleep os_sleep 2 ;;;
     ret created)
    (fun _ => ret false).

Fixpoint process_videos (videos : list video) (total_created : N) : M N :=
  match videos with
  | [] => ret total_created
  | v :: videos' =>
      created <- process_video v ;;
      process_videos videos'
        (if (created : bool) then total_created + 1 else total_created)
  end.

Fixpoint process_keywords (keywords : list str) (total_created : N) : M N :=
  match keywords with
  | [] => ret total_created
  | keyword :: keywords' =>
      videos <- search_videos keyword ;;
      total_created <- process_videos videos total_created ;;
      process_keywords keywords' total_created
  end.

(** [__task]: the value is [total_created], which the source reports in
    its last message; 0 when the run ends before the loop. *)
Definition __task : M N :=
  match _search_keywords with
  | Some ((_ :: _) as search_keywords) =>
      match parse_keywords search_keywords with
      | [] => warn KeywordsEmpty ;;; ret 0
      | keywords => process_keywords keywords 0
      end
  | _ => warn KeywordsMissing ;;; ret 0
  end.
End Methods.

End VideoStrmTask.

(* ================================================================== *)
(** ** Notions the properties are stated with *)
(* ================================================================== *)

(** A string that [strip] leaves as it is. *)
Definition trimmed (s : str) : Prop :=
  PyStr.lstrip s = s /\ PyStr.lstrip (rev s) = rev s.

(** The text after the first greater-than sign. *)
Fixpoint after_gt (t : str) : option str :=
  match t with
  | [] => None
  | x :: t' => if x =? 62 then Some t' else after_gt t'
  end.

(** Where a match of the markup pattern begun at the head of [s] ends:
    a less-than sign, one character or more that are not the
    greater-than sign, and the greater-than sign. *)
Definition tag_end (s : str) : option str :=
  match s with
  | 60 :: c :: t => if c =? 62 then None else after_gt t
  | _ => None
  end.

(** No markup begins anywhere in the string. *)
Fixpoint tag_free (s : str) : Prop :=
  match s with
  | [] => True
  | c :: s' => tag_end (c :: s') = None /\ tag_free s'
  end.

(** The world with more events in its trace. *)
Definition logged {P E : Type} (events : list Effects.event)
    (w : Effects.world P E) : Effects.world P E :=
  Effects.World (Effects.self w) (Effects.files w) (Effects.env w)
    (Effects.trace w ++ events).

(** After the last attempt failed: the closing warning. *)
Definition after_giving_up {P E : Type} (w : Effects.world P E)
    : Effects.world P E :=
  logged [Effects.Warn Effects.CheckSeasonOrNetwork] w.

(** The warnings and pauses of [n] failed attempts in a row: the pause
    after attempt [i] (from 0) is [delay * backoff ^ i]. *)
Definition retry_schedule (n : nat) (delay backoff : Z) : list Effects.event :=
  List.flat_map
    (fun i => [Effects.Warn (Effects.RetryIn (delay * backoff ^ Z.of_nat i));
               Effects.Sleep (delay * backoff ^ Z.of_nat i)])
    (seq 0 n).

(** The first month of the quarter of a month from 1 to 12. *)
Definition quarter_start (month : nat) : nat := (3 * ((month - 1) / 3) + 1)%nat.

(** The computation leaves every file there is as it is, whatever its
    outcome. *)
Definition keeps_files {P E A : Type} (m : @Effects.M P E A) : Prop :=
  forall w o w',
    m w = (o, w') ->
    forall path text,
      Effects.files w !! path = Some text -> Effects.files w' !! path = Some text.

(** Every episode of every entry has the key of the entry as its
    series name. *)
Definition well_keyed (d : TopAnimeStrm.series) : Prop :=
  forall k episodes e,
    In (k, episodes) d -> In e episodes -> TopAnimeStrm._extract_anime_name e = k.

(** The order of the ranking: no fewer episodes than what comes after. *)
Definition ranks_before (a b : str * list str) : Prop :=
  (length (snd b) <= length (snd a))%nat.

(** A name whose episode number can be read. *)
Definition numbered (e : str) : Prop :=
  exists n, TopAnimeStrm._extract_episode_number e = Effects.Return n.

(** The order of the episodes of a series. *)
Definition airs_before (a b : str) : Prop :=
  exists x y,
    TopAnimeStrm._extract_episode_number a = Effects.Return x
    /\ TopAnimeStrm._extract_episode_number b = Effects.Return y
    /\ x <= y.

(** The episode number of the name is [n]. *)
Definition has_number (n : N) (e : str) : bool :=
  match TopAnimeStrm._extract_episode_number e with
  | Effects.Return m => m =? n
  | Effects.Raise _ => false
  end.

(** The key [sorted] compares a numbered name by. *)
Definition episode_key (e : str) : N :=
  match TopAnimeStrm._extract_episode_number e with
  | Effects.Return n => n
  | Effects.Raise _ => 0
  end.

(** No whitespace at the head, at the end, and no two whitespace
    characters in a row. *)
Definition no_leading_space (s : str) : Prop :=
  match s with
  | c :: _ => Unicode.is_space c = false
  | [] => True
  end.

Definition no_trailing_space (s : str) : Prop := no_leading_space (rev s).

Fixpoint no_double_space (s : str) : Prop :=
  match s with
  | a :: t =>
      match t with
      | b :: _ => Unicode.is_space a && Unicode.is_space b = false
      | [] => True
      end /\ no_double_space t
  | [] => True
  end.

(** A word: one character or more, none of them whitespace. *)
Definition word (w : str) : Prop :=
  w <> [] /\ Forall (fun c => Unicode.is_space c = false) w.

(** The names the loop of the aggregator takes in: normalized, not
    empty, with a series name that is not empty. *)
Definition accepted_names (video_files : list str) : list str :=
  List.filter
    (fun clean_name =>
       negb (PyStr.eqb clean_name [])
       && negb (PyStr.eqb (TopAnimeStrm._extract_anime_name clean_name) []))
    (List.map TopAnimeStrm._clean_filename video_files).

(** All the episodes of a dictionary of series, entry after entry. *)
Definition episodes_of (d : TopAnimeStrm.series) : list str :=
  List.concat (List.map snd d).

(** The continuation of a match fails on every text without the
    character [c]. *)
Definition needs_char (c : N) (k : Re.cont) : Prop :=
  forall bos t g, ~ In c t -> k bos t g = None.

(** A file name in the form of the source: the tag [[ANi]], the name of
    the series, a hyphen, the number of the episode and a bracketed rest,
    with whitespace between the parts. *)
Definition ani_file (ws0 name ws1 ws2 digits ws3 rest : str) : str :=
  [91; 65; 78; 105; 93] ++ ws0 ++ name ++ ws1 ++ [45] ++ ws2 ++ digits ++ ws3
  ++ [91] ++ rest.

(** Search results with distinct codes, each in upper case. *)
Definition codes_distinct (results : list VideoStrmTask.video) : Prop :=
  List.NoDup (List.map VideoStrmTask.code results)
  /\ Forall (fun r => VideoStrmTask.upper (VideoStrmTask.code r) = VideoStrmTask.code r)
       results.

(** The leading decimal digits of a string, and what follows them. *)
Fixpoint take_digits (s : str) : str :=
  match s with
  | c :: s' => if Unicode.is_decimal c then c :: take_digits s' else []
  | [] => []
  end.

Fixpoint skip_digits (s : str) : str :=
  match s with
  | c :: s' => if Unicode.is_decimal c then skip_digits s' else s
  | [] => []
  end.

(** An episode mark begins the string: a hyphen, one space, a digit. *)
Definition mark_here (t : str) : bool :=
  match t with
  | a :: b :: d :: _ => (a =? 45) && (b =? 32) && Unicode.is_decimal d
  | _ => false
  end.

(** [digits] is the run of digits of the first episode mark of [s]. *)
Definition first_mark (s digits : str) : Prop :=
  exists pre rest,
    s = pre ++ [45; 32] ++ digits ++ rest
    /\ digits <> []
    /\ forallb Unicode.is_decimal digits = true
    /\ match rest with c :: _ => Unicode.is_decimal c = false | [] => True end
    /\ forall i, (i < length pre)%nat -> mark_here (drop i s) = false.

(** There is no episode mark in [s]. *)
Definition no_mark (s : str) : Prop :=
  forall i, mark_here (drop i s) = false.

(** The episode number as the specification words it: the digits after
    the first hyphen followed by an optional space and digits. *)
Definition re_episode_as_claimed : Re.pattern :=
  [Re.One (Re.chr "-"); Re.Opt (Re.chr " ");
   Re.Open; Re.Plus Re.digit; Re.Close].

Definition episode_number_as_claimed (filename : str) : N :=
  match Re.search re_episode_as_claimed filename with
  | Some (_, Some digits) => PyStr.digits_value digits
  | _ => 0
  end.

(* ================================================================== *)
(** * Properties *)
(* ================================================================== *)

#[local] Arguments N.eqb : simpl never.
#[local] Arguments N.leb : simpl never.
#[local] Arguments N.ltb : simpl never.
#[local] Arguments N.add : simpl never.
#[local] Arguments N.sub : simpl never.
#[local] Arguments N.mul : simpl never.

(** ** Strings *)

Lemma eqb_true_iff (a b : str) : PyStr.eqb a b = true <-> a = b.
Proof.
  revert b. induction a as [|x a IH]; intros [|y b]; simpl; split;
    try congruence; try discriminate.
  - intros H. apply andb_true_iff in H as [Hx Hab].
    apply N.eqb_eq in Hx. apply IH in Hab. congruence.
  - intros H. injection H as -> ->. rewrite N.eqb_refl. simpl. now apply IH.
Qed.

Lemma eqb_refl (a : str) : PyStr.eqb a a = true.
Proof. now apply eqb_true_iff. Qed.

Lemma startswith_iff (s p : str) :
  PyStr.startswith s p = true <-> exists r, s = p ++ r.
Proof.
  revert s. induction p as [|x p IH]; intros s; simpl.
  - split; [intros _; now exists s | reflexivity].
  - destruct s as [|y s].
    + split; [discriminate | intros [r Hr]; discriminate].
    + rewrite andb_true_iff, N.eqb_eq, IH. split.
      * intros [-> [r ->]]. now exists r.
      * intros [r Hr]. injection Hr as -> ->. split; [reflexivity | now exists r].
Qed.

Lemma startswith_app (p r : str) : PyStr.startswith (p ++ r) p = true.
Proof. apply startswith_iff. now exists r. Qed.

Lemma endswith_iff (s p : str) :
  PyStr.endswith s p = true <-> exists x, s = x ++ p.
Proof.
  unfold PyStr.endswith. rewrite andb_true_iff, Nat.leb_le, eqb_true_iff. split.
  - intros [Hlen Heq]. exists (take (length s - length p) s).
    transitivity (take (length s - length p) s ++ drop (length s - length p) s);
      [symmetry; apply take_drop | now rewrite Heq].
  - intros [x ->]. rewrite length_app. split; [lia|].
    replace (length x + length p - length p)%nat with (length x) by lia.
    now rewrite drop_app_length.
Qed.

Lemma endswith_app (x p : str) : PyStr.endswith (x ++ p) p = true.
Proof. apply endswith_iff. now exists x. Qed.

Lemma contains_iff (p s : str) :
  PyStr.contains p s = true <-> exists a b, s = a ++ p ++ b.
Proof.
  induction s as [|c s IH]; simpl.
  - rewrite orb_false_r, startswith_iff. split.
    + intros [r Hr]. now exists [], r.
    + intros [a [b H]]. destruct a; [now exists b|discriminate].
  - rewrite orb_true_iff, startswith_iff, IH. split.
    + intros [[r Hr] | [a [b ->]]]; [now exists [], r | now exists (c :: a), b].
    + intros [[|c' a] [b H]]; [left; now exists b|].
      right. injection H as -> ->. now exists a, b.
Qed.

Lemma contains_false_suffix (p a b : str) :
  PyStr.contains p (a ++ b) = false -> PyStr.contains p b = false.
Proof.
  intros H. destruct (PyStr.contains p b) eqn:Hb; [|reflexivity].
  apply contains_iff in Hb as [x [y ->]].
  assert (PyStr.contains p (a ++ x ++ p ++ y) = true) as Ht; [|congruence].
  apply contains_iff. exists (a ++ x), y. now rewrite <- app_assoc.
Qed.

Lemma contains_single (c : N) (s : str) :
  PyStr.contains [c] s = true <-> In c s.
Proof.
  rewrite contains_iff. split.
  - intros [a [b ->]]. apply in_or_app. right. now left.
  - intros H. apply in_split in H as [a [b ->]]. now exists a, b.
Qed.

(** *** [strip] *)

Lemma lstrip_suffix (s : str) : exists ws, s = ws ++ PyStr.lstrip s.
Proof.
  induction s as [|c s [ws IH]]; simpl.
  - now exists [].
  - destruct (Unicode.is_space c).
    + exists (c :: ws). simpl. now f_equal.
    + now exists [].
Qed.

Lemma lstrip_head (s : str) :
  PyStr.lstrip s = [] \/
  exists c t, PyStr.lstrip s = c :: t /\ Unicode.is_space c = false.
Proof.
  induction s as [|c s IH]; simpl; [now left|].
  destruct (Unicode.is_space c) eqn:Hc; [exact IH|].
  right. now exists c, s.
Qed.

Lemma lstrip_fixed (s : str) :
  (s = [] \/ exists c t, s = c :: t /\ Unicode.is_space c = false) ->
  PyStr.lstrip s = s.
Proof.
  intros [-> | [c [t [-> Hc]]]]; simpl; [reflexivity | now rewrite Hc].
Qed.

Lemma lstrip_idem (s : str) : PyStr.lstrip (PyStr.lstrip s) = PyStr.lstrip s.
Proof. apply lstrip_fixed, lstrip_head. Qed.

Lemma strip_trimmed (s : str) : trimmed s -> PyStr.strip s = s.
Proof.
  intros [Hl Hr]. unfold PyStr.strip, PyStr.rstrip.
  rewrite Hl, Hr. apply rev_involutive.
Qed.

Lemma strip_prefix (s : str) : exists w, PyStr.lstrip s = PyStr.strip s ++ w.
Proof.
  unfold PyStr.strip, PyStr.rstrip.
  destruct (lstrip_suffix (rev (PyStr.lstrip s))) as [ws Hws].
  exists (rev ws). rewrite <- rev_app_distr, <- Hws. symmetry. apply rev_involutive.
Qed.

Lemma trimmed_strip (s : str) : trimmed (PyStr.strip s).
Proof.
  split.
  - destruct (strip_prefix s) as [w Hw]. apply lstrip_fixed.
    destruct (PyStr.strip s) as [|c t]; [now left|]. right. exists c, t.
    split; [reflexivity|].
    destruct (lstrip_head s) as [He | [c' [t' [He Hc]]]]; rewrite He in Hw.
    + discriminate.
    + simpl in Hw. injection Hw as -> _. exact Hc.
  - unfold PyStr.strip, PyStr.rstrip. rewrite rev_involutive. apply lstrip_idem.
Qed.

Lemma strip_incl (s : str) (c : N) : In c (PyStr.strip s) -> In c s.
Proof.
  intros H. destruct (strip_prefix s) as [w Hw].
  destruct (lstrip_suffix s) as [ws Hs]. rewrite Hs, Hw.
  apply in_or_app. right. apply in_or_app. now left.
Qed.

(** *** [split] on the slash *)

Lemma split_go_nonempty sep skip cur s : PyStr.split_go sep skip cur s <> [].
Proof.
  revert skip cur. induction s as [|c s IH]; intros skip cur; simpl; [discriminate|].
  destruct skip; [|apply IH].
  destruct (PyStr.startswith (c :: s) sep); [discriminate | apply IH].
Qed.

Lemma last_cons_nonempty (x : str) (l : list str) :
  l <> [] -> List.last (x :: l) [] = List.last l [].
Proof. destruct l; [congruence | reflexivity]. Qed.

Lemma last_slash_segment (cur s : str) :
  let seg := PyStr.last (PyStr.split_go TopAnimeStrm.slash 0 cur s) in
  (exists pre, cur ++ s = pre ++ seg) /\ (~ In 47 cur -> ~ In 47 seg).
Proof.
  unfold PyStr.last. revert cur.
  induction s as [|c s IH]; intros cur; simpl.
  - split; [exists []; now rewrite app_nil_r | tauto].
  - rewrite andb_true_r. destruct (47 =? c) eqn:Hc; cbv iota.
    + rewrite last_cons_nonempty by apply split_go_nonempty.
      destruct (IH []) as [[pre Hpre] Hno]. split; [|intros _; apply Hno; tauto].
      exists (cur ++ c :: pre). rewrite <- app_assoc. simpl. do 2 f_equal.
      exact Hpre.
    + destruct (IH (cur ++ [c])) as [[pre Hpre] Hno]. split.
      * exists pre. rewrite <- Hpre, <- app_assoc. reflexivity.
      * intros Hcur. apply Hno. intros Hin.
        apply in_app_or in Hin as [Hin | [Heq | []]]; [tauto|].
        subst c. now rewrite N.eqb_refl in Hc.
Qed.

(** *** The markup pattern *)

Lemma star_notgt (bos : bool) (t : str) (g : option str) :
  Re.star (Re.notchr ">") (Re.run [Re.One (Re.chr ">")]) bos t g =
  option_map (fun r => (r, None)) (after_gt t).
Proof.
  revert bos. induction t as [|x t IH]; intros bos; [reflexivity|].
  cbn [Re.star after_gt]. unfold Re.notchr at 1.
  change (N_of_ascii ">") with 62.
  destruct (x =? 62) eqn:Hx; cbn [negb].
  - cbn. unfold Re.chr. change (N_of_ascii ">") with 62. now rewrite Hx.
  - rewrite IH. destruct (after_gt t); [reflexivity|].
    cbn. unfold Re.chr. change (N_of_ascii ">") with 62. now rewrite Hx.
Qed.

Lemma match_tag (bos : bool) (s : str) :
  Re.match_at TopAnimeStrm.re_tag bos s =
  option_map (fun r => (r, None)) (tag_end s).
Proof.
  unfold Re.match_at, TopAnimeStrm.re_tag.
  destruct s as [|a s]; [reflexivity|].
  cbn [Re.run]. unfold Re.chr at 1. change (N_of_ascii "<") with 60.
  destruct (a =? 60) eqn:Ha.
  - apply N.eqb_eq in Ha as ->. destruct s as [|c t]; [reflexivity|].
    unfold Re.notchr at 1. change (N_of_ascii ">") with 62.
    cbn [tag_end]. destruct (c =? 62); cbn [negb]; [reflexivity|].
    apply star_notgt.
  - destruct a as [|p]; [reflexivity|].
    unfold tag_end.
    repeat (destruct p as [p|p|]; try reflexivity; try discriminate).
Qed.

Lemma after_gt_split (t r : str) :
  after_gt t = Some r -> exists pre, t = pre ++ 62 :: r /\ ~ In 62 pre.
Proof.
  revert r. induction t as [|x t IH]; intros r; simpl; [discriminate|].
  destruct (x =? 62) eqn:Hx.
  - intros [= ->]. apply N.eqb_eq in Hx as ->. exists []. split; [reflexivity | tauto].
  - intros H. destruct (IH r H) as [pre [-> Hpre]]. exists (x :: pre).
    split; [reflexivity|]. intros [-> | Hin]; [discriminate | tauto].
Qed.

Lemma after_gt_none (t : str) : after_gt t = None <-> ~ In 62 t.
Proof.
  induction t as [|x t IH]; simpl; [tauto|].
  destruct (x =? 62) eqn:Hx.
  - apply N.eqb_eq in Hx as ->. split; [discriminate | tauto].
  - apply N.eqb_neq in Hx. rewrite IH. tauto.
Qed.

Lemma tag_end_not_lt (c : N) (s : str) : c <> 60 -> tag_end (c :: s) = None.
Proof.
  intros Hc. unfold tag_end.
  destruct c as [|p]; [reflexivity|].
  repeat (destruct p as [p|p|]; try reflexivity).
  congruence.
Qed.

Lemma tag_end_lt (s : str) :
  tag_end (60 :: s) =
  match s with
  | c :: t => if c =? 62 then None else after_gt t
  | [] => None
  end.
Proof. reflexivity. Qed.

Lemma tag_end_split (s r : str) :
  tag_end s = Some r -> exists pre, s = pre ++ r /\ (length r < length s)%nat.
Proof.
  destruct s as [|a s]; [discriminate|].
  destruct (N.eq_dec a 60) as [-> | Ha]; [|now rewrite tag_end_not_lt].
  rewrite tag_end_lt. destruct s as [|c t]; [discriminate|].
  destruct (c =? 62); [discriminate|]. intros Hr.
  apply after_gt_split in Hr as [pre [-> _]].
  exists (60 :: c :: pre ++ [62]). split.
  - simpl. do 2 f_equal. now rewrite <- app_assoc.
  - simpl. rewrite length_app. simpl. lia.
Qed.

Lemma tag_end_no_gt (c : N) (s : str) : ~ In 62 s -> tag_end (c :: s) = None.
Proof.
  intros Hs. destruct (N.eq_dec c 60) as [-> | Hc]; [|now apply tag_end_not_lt].
  rewrite tag_end_lt. destruct s as [|d t]; [reflexivity|].
  destruct (d =? 62); [reflexivity|]. apply after_gt_none. simpl in Hs. tauto.
Qed.

Lemma tag_free_no_gt (s : str) : ~ In 62 s -> tag_free s.
Proof.
  induction s as [|c s IH]; simpl; [tauto|]. intros H. split.
  - apply tag_end_no_gt. tauto.
  - apply IH. tauto.
Qed.

Lemma tag_free_suffix (a b : str) : tag_free (a ++ b) -> tag_free b.
Proof. induction a as [|c a IH]; simpl; [tauto|]. intros [_ H]. now apply IH. Qed.

Lemma after_gt_app (t w r : str) :
  after_gt t = Some r -> after_gt (t ++ w) = Some (r ++ w).
Proof.
  revert r. induction t as [|x t IH]; intros r; simpl; [discriminate|].
  destruct (x =? 62); [now intros [= ->] | apply IH].
Qed.

Lemma after_gt_app_none (t w : str) :
  after_gt t = None -> after_gt (t ++ w) = after_gt w.
Proof.
  induction t as [|x t IH]; simpl; [reflexivity|].
  destruct (x =? 62); [discriminate | apply IH].
Qed.

Lemma tag_end_prefix (x w : str) : tag_end (x ++ w) = None -> tag_end x = None.
Proof.
  destruct x as [|a [|c t]]; try reflexivity.
  - intros _. destruct (N.eq_dec a 60) as [-> | Ha]; [reflexivity|].
    now apply tag_end_not_lt.
  - destruct (N.eq_dec a 60) as [-> | Ha]; [|intros _; now apply tag_end_not_lt].
    simpl app. rewrite !tag_end_lt. destruct (c =? 62); [reflexivity|].
    intros H. destruct (after_gt t) as [r|] eqn:Hr; [|reflexivity].
    now rewrite (after_gt_app _ w _ Hr) in H.
Qed.

Lemma tag_free_prefix (x w : str) : tag_free (x ++ w) -> tag_free x.
Proof.
  induction x as [|c x IH]; simpl; [tauto|]. intros [H1 H2]. split.
  - apply (tag_end_prefix (c :: x) w H1).
  - now apply IH.
Qed.

Lemma tag_free_app (x w : str) :
  tag_free x -> ~ In 62 w -> tag_free (x ++ w).
Proof.
  intros Hx Hw. induction x as [|c x IH]; simpl.
  - now apply tag_free_no_gt.
  - destruct Hx as [H1 H2]. split; [|now apply IH].
    destruct (N.eq_dec c 60) as [-> | Hc]; [|now apply tag_end_not_lt].
    rewrite tag_end_lt in *. destruct x as [|d t].
    + simpl. destruct w as [|e w]; [reflexivity|].
      destruct (e =? 62); [reflexivity|]. apply after_gt_none. simpl in Hw. tauto.
    + simpl. destruct (d =? 62); [reflexivity|].
      rewrite after_gt_app_none by exact H1. now apply after_gt_none.
Qed.

(** *** Removing the markup *)

Lemma sub_tag_step (n : nat) (bos : bool) (s : str) :
  Re.sub_go (S n) TopAnimeStrm.re_tag [] bos s =
  match tag_end s with
  | Some r => Re.sub_go n TopAnimeStrm.re_tag [] false r
  | None =>
      match s with
      | [] => []
      | c :: s' => c :: Re.sub_go n TopAnimeStrm.re_tag [] false s'
      end
  end.
Proof.
  cbn [Re.sub_go]. rewrite match_tag.
  destruct (tag_end s) as [r|] eqn:Hr; [|reflexivity].
  cbn [option_map]. apply tag_end_split in Hr as [_ [_ Hlen]].
  apply Nat.ltb_lt in Hlen. now rewrite Hlen.
Qed.

Lemma sub_tag_nil (n : nat) (bos : bool) :
  Re.sub_go n TopAnimeStrm.re_tag [] bos [] = [].
Proof. destruct n; [reflexivity | now rewrite sub_tag_step]. Qed.

Lemma sub_tag_incl (n : nat) (bos : bool) (s : str) (x : N) :
  In x (Re.sub_go n TopAnimeStrm.re_tag [] bos s) -> In x s.
Proof.
  revert bos s. induction n as [|n IH]; intros bos s; [tauto|].
  rewrite sub_tag_step. destruct (tag_end s) as [r|] eqn:Hr.
  - intros H. apply IH in H. apply tag_end_split in Hr as [pre [-> _]].
    apply in_or_app. now right.
  - destruct s as [|c s]; [tauto|]. intros [-> | H]; [now left|].
    right. now apply IH in H.
Qed.

Lemma sub_tag_free (n : nat) (bos : bool) (s : str) :
  (length s < n)%nat -> tag_free (Re.sub_go n TopAnimeStrm.re_tag [] bos s).
Proof.
  revert bos s. induction n as [|n IH]; intros bos s Hlen; [lia|].
  rewrite sub_tag_step. destruct (tag_end s) as [r|] eqn:Hr.
  - apply IH. apply tag_end_split in Hr as [_ [_ Hr]]. lia.
  - destruct s as [|c s]; [exact I|]. simpl in Hlen.
    split; [|apply IH; lia].
    destruct (N.eq_dec c 60) as [-> | Hc]; [|now apply tag_end_not_lt].
    rewrite tag_end_lt in Hr. destruct s as [|d t].
    + now rewrite sub_tag_nil.
    + destruct n as [|n]; [simpl in Hlen; lia|].
      destruct (d =? 62) eqn:Hd.
      * apply N.eqb_eq in Hd as ->. rewrite sub_tag_step.
        rewrite (tag_end_not_lt 62) by discriminate. reflexivity.
      * apply tag_end_no_gt. intros Hin. apply sub_tag_incl in Hin.
        apply after_gt_none in Hr. apply N.eqb_neq in Hd.
        destruct Hin as [Heq | Hin]; [congruence | tauto].
Qed.

Lemma sub_tag_id (n : nat) (bos : bool) (s : str) :
  tag_free s -> Re.sub_go n TopAnimeStrm.re_tag [] bos s = s.
Proof.
  revert bos s. induction n as [|n IH]; intros bos s Hs; [reflexivity|].
  rewrite sub_tag_step. destruct s as [|c s]; [reflexivity|].
  destruct Hs as [H1 H2]. rewrite H1. f_equal. now apply IH.
Qed.

Lemma sub_tag_idem (s : str) :
  tag_free (Re.sub TopAnimeStrm.re_tag [] s).
Proof. apply sub_tag_free. lia. Qed.

(** ** The name normalizer *)

(** The last step of [_clean_filename]. *)
Lemma ensure_mp4_endswith (x : str) :
  PyStr.endswith
    (if negb (PyStr.endswith x TopAnimeStrm.mp4) then x ++ TopAnimeStrm.mp4 else x)
    TopAnimeStrm.mp4 = true.
Proof.
  destruct (PyStr.endswith x TopAnimeStrm.mp4) eqn:Hx; simpl;
    [exact Hx | apply endswith_app].
Qed.

(** What [_clean_filename] returns on a name that is not empty: the
    stripped last segment [y] of the decoded name without markup, with
    the extension added when it is missing. *)
Lemma clean_filename_shape (filename : str) :
  filename <> [] ->
  exists y,
    TopAnimeStrm._clean_filename filename =
      (if negb (PyStr.endswith (PyStr.strip y) TopAnimeStrm.mp4)
       then PyStr.strip y ++ TopAnimeStrm.mp4 else PyStr.strip y)
    /\ tag_free y /\ ~ In 47 y.
Proof.
  intros Hne. destruct filename as [|c t]; [congruence|].
  unfold TopAnimeStrm._clean_filename.
  set (cut := if PyStr.contains TopAnimeStrm.a_view (c :: t) then _ else _).
  set (z := Re.sub TopAnimeStrm.re_tag [] (Urllib.unquote cut)).
  assert (tag_free z) as Hz by apply sub_tag_idem.
  exists (if PyStr.contains TopAnimeStrm.slash z
          then PyStr.last (PyStr.split z TopAnimeStrm.slash) else z).
  split; [reflexivity|].
  destruct (PyStr.contains TopAnimeStrm.slash z) eqn:Hs.
  - destruct (last_slash_segment [] z) as [[pre Hpre] Hno]. split.
    + simpl in Hpre. rewrite Hpre in Hz. now apply tag_free_suffix in Hz.
    + apply Hno. tauto.
  - split; [exact Hz|]. intros Hin. apply contains_single in Hin.
    unfold TopAnimeStrm.slash in Hs. congruence.
Qed.

Lemma mp4_no_space_gt_slash :
  ~ In 62 TopAnimeStrm.mp4 /\ ~ In 47 TopAnimeStrm.mp4
  /\ PyStr.lstrip TopAnimeStrm.mp4 = TopAnimeStrm.mp4
  /\ PyStr.lstrip (rev TopAnimeStrm.mp4) = rev TopAnimeStrm.mp4.
Proof.
  repeat split; try reflexivity;
    intros H; simpl in H; repeat (destruct H as [H | H]; [discriminate|]); exact H.
Qed.

Lemma trimmed_app_mp4 (x : str) : trimmed x -> trimmed (x ++ TopAnimeStrm.mp4).
Proof.
  intros [Hl _]. destruct mp4_no_space_gt_slash as [_ [_ [H1 H2]]]. split.
  - destruct x as [|c t]; [exact H1|]. simpl in Hl |- *.
    destruct (Unicode.is_space c); [|reflexivity].
    exfalso. destruct (lstrip_suffix t) as [ws Hws]. rewrite Hl in Hws.
    apply (f_equal (@length N)) in Hws. rewrite length_app in Hws. simpl in Hws. lia.
  - rewrite rev_app_distr. reflexivity.
Qed.

(** The normalized name of a name that is not empty ends with the
    extension, holds no markup and no slash, and is stripped. *)
Lemma clean_filename_normal (filename : str) :
  filename <> [] ->
  let m := TopAnimeStrm._clean_filename filename in
  PyStr.endswith m TopAnimeStrm.mp4 = true
  /\ tag_free m /\ ~ In 47 m /\ trimmed m.
Proof.
  intros Hne m. destruct (clean_filename_shape filename Hne) as [y [Hm [Hy Hs]]].
  subst m. rewrite Hm. clear Hm.
  destruct mp4_no_space_gt_slash as [Hgt [Hsl _]].
  assert (tag_free (PyStr.strip y)) as Htf.
  { destruct (strip_prefix y) as [w Hw]. destruct (lstrip_suffix y) as [ws Hws].
    rewrite Hws in Hy. apply tag_free_suffix in Hy. rewrite Hw in Hy.
    now apply tag_free_prefix in Hy. }
  assert (~ In 47 (PyStr.strip y)) as Hns.
  { intros Hin. now apply strip_incl in Hin. }
  split; [apply ensure_mp4_endswith|].
  destruct (PyStr.endswith (PyStr.strip y) TopAnimeStrm.mp4); simpl.
  - repeat split; try assumption; apply trimmed_strip.
  - split; [now apply tag_free_app|]. split.
    + intros Hin. apply in_app_or in Hin. tauto.
    + apply trimmed_app_mp4, trimmed_strip.
Qed.

(** C9.  The normalized name of a raw name that is not empty ends with
    the extension [.mp4]; the normalized name of the empty string is the
    empty string. *)
Theorem clean_filename_extension :
  TopAnimeStrm._clean_filename [] = [] /\
  forall filename : str,
    filename <> [] ->
    PyStr.endswith (TopAnimeStrm._clean_filename filename) TopAnimeStrm.mp4 = true.
Proof.
  split; [reflexivity|]. intros filename Hne.
  now destruct (clean_filename_normal filename Hne) as [H _].
Qed.

Lemma clean_filename_extension_witness :
  lit "[ANi] Show - 01 [1080P]" <> [] /\
  PyStr.endswith (TopAnimeStrm._clean_filename (lit "[ANi] Show - 01 [1080P]"))
    TopAnimeStrm.mp4 = true.
Proof.
  split; [discriminate|].
  apply (proj2 clean_filename_extension (lit "[ANi] Show - 01 [1080P]")).
  discriminate.
Defined.

(** C2, as the code has it.  Normalizing twice is normalizing once for
    every raw name whose normalized form does not hold [?a=view] and is
    left as it is by percent-decoding (as is every string without a
    percent sign). *)
Theorem clean_filename_idempotent_decoded (n : str) :
  PyStr.contains TopAnimeStrm.a_view (TopAnimeStrm._clean_filename n) = false ->
  Urllib.unquote (TopAnimeStrm._clean_filename n) = TopAnimeStrm._clean_filename n ->
  TopAnimeStrm._clean_filename (TopAnimeStrm._clean_filename n) =
  TopAnimeStrm._clean_filename n.
Proof.
  intros Hview Hunq. destruct n as [|c0 t0]; [reflexivity|].
  assert (c0 :: t0 <> []) as Hne by discriminate.
  destruct (clean_filename_normal _ Hne) as [Hend [Htf [Hsl Htr]]].
  set (m := TopAnimeStrm._clean_filename (c0 :: t0)) in *.
  clearbody m. destruct m as [|c t] eqn:Em; [discriminate|]. rewrite <- Em in *.
  assert (TopAnimeStrm._clean_filename m =
          let filename :=
            if PyStr.contains TopAnimeStrm.a_view m
            then PyStr.first (PyStr.split m TopAnimeStrm.a_view) else m in
          let filename := Urllib.unquote filename in
          let filename := Re.sub TopAnimeStrm.re_tag [] filename in
          let filename :=
            if PyStr.contains TopAnimeStrm.slash filename
            then PyStr.last (PyStr.split filename TopAnimeStrm.slash)
            else filename in
          let filename := PyStr.strip filename in
          if negb (PyStr.endswith filename TopAnimeStrm.mp4)
          then filename ++ TopAnimeStrm.mp4 else filename) as ->.
  { rewrite Em. reflexivity. }
  cbv zeta. rewrite Hview, Hunq.
  unfold Re.sub. rewrite (sub_tag_id _ _ _ Htf).
  assert (PyStr.contains TopAnimeStrm.slash m = false) as ->.
  { destruct (PyStr.contains TopAnimeStrm.slash m) eqn:H; [|reflexivity].
    apply contains_single in H. tauto. }
  rewrite (strip_trimmed _ Htr), Hend. reflexivity.
Qed.

Lemma clean_filename_idempotent_decoded_witness :
  PyStr.contains TopAnimeStrm.a_view
    (TopAnimeStrm._clean_filename (lit "dir/<b>Show - 01</b> ")) = false /\
  Urllib.unquote (TopAnimeStrm._clean_filename (lit "dir/<b>Show - 01</b> ")) =
    TopAnimeStrm._clean_filename (lit "dir/<b>Show - 01</b> ") /\
  TopAnimeStrm._clean_filename
    (TopAnimeStrm._clean_filename (lit "dir/<b>Show - 01</b> ")) =
  TopAnimeStrm._clean_filename (lit "dir/<b>Show - 01</b> ").
Proof.
  assert (PyStr.contains TopAnimeStrm.a_view
            (TopAnimeStrm._clean_filename (lit "dir/<b>Show - 01</b> ")) = false)
    as H1 by (vm_compute; reflexivity).
  assert (Urllib.unquote (TopAnimeStrm._clean_filename (lit "dir/<b>Show - 01</b> ")) =
            TopAnimeStrm._clean_filename (lit "dir/<b>Show - 01</b> "))
    as H2 by (vm_compute; reflexivity).
  split; [exact H1|]. split; [exact H2|].
  exact (clean_filename_idempotent_decoded _ H1 H2).
Defined.

(** C2, as stated, fails: a name with a percent sign coded as [%25]
    before two hexadecimal digits is decoded once more by the second
    normalization. *)
Lemma clean_filename_not_idempotent :
  TopAnimeStrm._clean_filename (TopAnimeStrm._clean_filename (lit "%2541")) <>
  TopAnimeStrm._clean_filename (lit "%2541").
Proof. vm_compute. discriminate. Qed.

(** ** The URL normalizer, feed shape *)

(** Without [?d=mp4] in it, a feed URL comes out with the required
    suffix. *)
Lemma feed_url_suffix_without_d_mp4 (url : str) :
  PyStr.contains TopAnimeStrm.d_mp4 url = false ->
  PyStr.endswith (TopAnimeStrm.feed_url url) TopAnimeStrm.mp4_d_true = true.
Proof.
  intros H. unfold TopAnimeStrm.feed_url, TopAnimeStrm._is_url_format_valid.
  destruct (PyStr.endswith url TopAnimeStrm.mp4_d_true) eqn:Hv; [exact Hv|].
  unfold TopAnimeStrm._convert_url_format. rewrite H.
  destruct (PyStr.endswith url TopAnimeStrm.mp4) eqn:Hm.
  - apply endswith_iff in Hm as [x ->]. apply endswith_iff. exists x.
    now rewrite <- app_assoc.
  - apply endswith_app.
Qed.

(** C1.  A feed URL that holds [?d=mp4] before further text: the
    substring is replaced where it stands, and what follows it stays at
    the end, so the URL that comes out does not have the required
    format. *)
Theorem feed_url_keeps_query_tail :
  TopAnimeStrm._is_url_format_valid
    (lit "https://openani.an-i.workers.dev/show/ep01?d=mp4&t=1") = false /\
  TopAnimeStrm.feed_url (lit "https://openani.an-i.workers.dev/show/ep01?d=mp4&t=1") =
    lit "https://openani.an-i.workers.dev/show/ep01.mp4?d=true&t=1" /\
  PyStr.endswith
    (TopAnimeStrm.feed_url (lit "https://openani.an-i.workers.dev/show/ep01?d=mp4&t=1"))
    TopAnimeStrm.mp4_d_true = false.
Proof. vm_compute. repeat split; reflexivity. Qed.

(** ** The episode ranker *)

Lemma digits_split (s : str) : s = take_digits s ++ skip_digits s.
Proof.
  induction s as [|c s IH]; simpl; [reflexivity|].
  destruct (Unicode.is_decimal c); simpl; [now f_equal | reflexivity].
Qed.

Lemma skip_digits_length (s : str) : (length (skip_digits s) <= length s)%nat.
Proof.
  induction s as [|c s IH]; simpl; [lia|].
  destruct (Unicode.is_decimal c); simpl; lia.
Qed.

Lemma digits_of_run (digits rest : str) :
  forallb Unicode.is_decimal digits = true ->
  match rest with c :: _ => Unicode.is_decimal c = false | [] => True end ->
  take_digits (digits ++ rest) = digits /\ skip_digits (digits ++ rest) = rest.
Proof.
  intros Hd Hr. induction digits as [|d digits IH]; simpl.
  - destruct rest as [|c r]; simpl; [now split|]. now rewrite Hr.
  - simpl in Hd. apply andb_true_iff in Hd as [Hd1 Hd2]. rewrite Hd1.
    destruct (IH Hd2) as [-> ->]. now split.
Qed.

(** The greedy run of digits before the end of the group takes all the
    digits there are. *)
Lemma star_digit_close (bos : bool) (s : str) (g : option str) :
  Re.star Re.digit (Re.run [Re.Close]) bos s g =
  Some (skip_digits s, Re.group_text g (skip_digits s)).
Proof.
  revert bos. induction s as [|c s IH]; intros bos; [reflexivity|].
  cbn [Re.star skip_digits]. unfold Re.digit at 1.
  destruct (Unicode.is_decimal c); [now rewrite IH | reflexivity].
Qed.

Lemma group_of_digits (d : N) (t : str) :
  Unicode.is_decimal d = true ->
  Re.group_text (Some (d :: t)) (skip_digits t) = Some (d :: take_digits t).
Proof.
  intros Hd. unfold Re.group_text. f_equal.
  assert (length (d :: t) - length (skip_digits t) = length (d :: take_digits t))%nat
    as ->.
  { simpl. rewrite (digits_split t) at 1. rewrite length_app. lia. }
  transitivity (take (length (d :: take_digits t))
                  ((d :: take_digits t) ++ skip_digits t)).
  - simpl. do 2 f_equal. apply digits_split.
  - apply take_app_length.
Qed.

(** A match of the episode pattern at the head of a string. *)
Lemma match_episode (bos : bool) (t : str) :
  Re.match_at TopAnimeStrm.re_episode bos t =
  match t with
  | a :: b :: d :: t' =>
      if mark_here t
      then Some (skip_digits t', Some (d :: take_digits t'))
      else None
  | _ => None
  end.
Proof.
  unfold Re.match_at, TopAnimeStrm.re_episode.
  destruct t as [|a [|b [|d t']]]; cbn [Re.run mark_here]; unfold Re.chr.
  - reflexivity.
  - change (N_of_ascii "-") with 45. now destruct (a =? 45).
  - change (N_of_ascii "-") with 45. change (N_of_ascii " ") with 32.
    destruct (a =? 45); [|reflexivity]. now destruct (b =? 32).
  - change (N_of_ascii "-") with 45. change (N_of_ascii " ") with 32.
    destruct (a =? 45); [|reflexivity]. destruct (b =? 32); [|reflexivity].
    cbn [andb]. unfold Re.digit at 1.
    destruct (Unicode.is_decimal d) eqn:Hd; [|reflexivity].
    rewrite star_digit_close. now rewrite group_of_digits.
Qed.

Lemma match_episode_none (bos : bool) (t : str) :
  mark_here t = false -> Re.match_at TopAnimeStrm.re_episode bos t = None.
Proof.
  intros H. rewrite match_episode. destruct t as [|a [|b [|d t']]]; try reflexivity.
  now rewrite H.
Qed.

(** [search] returns the match at the first position that has one. *)
Lemma search_first (bos : bool) (pre t : str) (r : Re.mres) :
  (forall i, (i < length pre)%nat -> mark_here (drop i (pre ++ t)) = false) ->
  Re.match_at TopAnimeStrm.re_episode false t = Some r ->
  Re.search_go TopAnimeStrm.re_episode bos (pre ++ t) = Some r.
Proof.
  revert bos. induction pre as [|c pre IH]; intros bos Hno Hr.
  - simpl. destruct t; cbn [Re.search_go]; rewrite match_episode in *; now rewrite Hr.
  - cbn [app Re.search_go].
    rewrite match_episode_none by (apply (Hno 0%nat); simpl; lia).
    apply IH; [|exact Hr]. intros i Hi. apply (Hno (S i)). simpl. lia.
Qed.

Lemma search_none (bos : bool) (s : str) :
  no_mark s -> Re.search_go TopAnimeStrm.re_episode bos s = None.
Proof.
  revert bos. induction s as [|c s IH]; intros bos Hno; cbn [Re.search_go].
  - now rewrite match_episode_none by apply (Hno 0%nat).
  - rewrite match_episode_none by apply (Hno 0%nat).
    apply IH. intros i. apply (Hno (S i)).
Qed.

(** C5, as the code has it.  The episode number is the integer value of
    the digits of the first occurrence of a hyphen, one space, and
    digits, when there are 4300 digits at most; on a longer run [int]
    raises [ValueError]; the number is 0 when the name has no such
    occurrence. *)
Theorem extract_episode_number_first_mark (filename : str) :
  (forall digits, first_mark filename digits ->
     (length digits <= PyStr.int_max_str_digits)%nat ->
     TopAnimeStrm._extract_episode_number filename
     = Effects.Return (PyStr.digits_value digits))
  /\ (forall digits, first_mark filename digits ->
        (PyStr.int_max_str_digits < length digits)%nat ->
        TopAnimeStrm._extract_episode_number filename
        = Effects.Raise Effects.ValueError)
  /\ (no_mark filename ->
      TopAnimeStrm._extract_episode_number filename = Effects.Return 0).
Proof.
  assert (forall digits, first_mark filename digits ->
            TopAnimeStrm._extract_episode_number filename
            = match PyStr.to_int digits with
              | Some n => Effects.Return n
              | None => Effects.Raise Effects.ValueError
              end) as Hmark.
  { unfold TopAnimeStrm._extract_episode_number, Re.search.
    intros digits [pre [rest [-> [Hne [Hd [Hr Hno]]]]]].
    destruct digits as [|d digits]; [congruence|].
    simpl in Hd. apply andb_true_iff in Hd as [Hd1 Hd2].
    destruct (digits_of_run digits rest Hd2 Hr) as [Ht Hs].
    rewrite (search_first true pre _ (rest, Some (d :: digits)));
      [reflexivity | exact Hno |].
    rewrite match_episode. cbn [app mark_here]. rewrite Hd1. cbn.
    now rewrite Ht, Hs. }
  split; [|split].
  - intros digits Hm Hlen. rewrite (Hmark digits Hm). unfold PyStr.to_int.
    apply Nat.ltb_ge in Hlen. now rewrite Hlen.
  - intros digits Hm Hlen. rewrite (Hmark digits Hm). unfold PyStr.to_int.
    apply Nat.ltb_lt in Hlen. now rewrite Hlen.
  - intros Hno. unfold TopAnimeStrm._extract_episode_number, Re.search.
    now rewrite search_none.
Qed.

Lemma extract_episode_number_first_mark_witness :
  first_mark (lit "[ANi] Show - 03 [1080P].mp4") (lit "03")
  /\ first_mark ([45; 32] ++ repeat 49 4301) (repeat 49 4301)
  /\ no_mark (lit "Show-3.mp4")
  /\ TopAnimeStrm._extract_episode_number (lit "[ANi] Show - 03 [1080P].mp4")
     = Effects.Return 3
  /\ TopAnimeStrm._extract_episode_number ([45; 32] ++ repeat 49 4301)
     = Effects.Raise Effects.ValueError
  /\ TopAnimeStrm._extract_episode_number (lit "Show-3.mp4") = Effects.Return 0.
Proof.
  assert (first_mark (lit "[ANi] Show - 03 [1080P].mp4") (lit "03")) as H1.
  { exists (lit "[ANi] Show "), (lit " [1080P].mp4").
    split; [reflexivity|]. split; [discriminate|]. split; [reflexivity|].
    split; [reflexivity|]. intros i Hi.
    do 11 (destruct i as [|i]; [reflexivity|]). simpl in Hi. lia. }
  assert (first_mark ([45; 32] ++ repeat 49 4301) (repeat 49 4301)) as H2.
  { exists [], []. split; [now rewrite app_nil_r|]. split; [discriminate|].
    split; [vm_compute; reflexivity|]. split; [exact I|].
    intros i Hi. simpl in Hi. lia. }
  assert (no_mark (lit "Show-3.mp4")) as H3.
  { intros i. do 10 (destruct i as [|i]; [reflexivity|]). now destruct i. }
  split; [exact H1|]. split; [exact H2|]. split; [exact H3|]. split; [|split].
  - apply (proj1 (extract_episode_number_first_mark _) _ H1).
    unfold PyStr.int_max_str_digits. cbn [length lit List.map list_ascii_of_string]. lia.
  - apply (proj1 (proj2 (extract_episode_number_first_mark _)) _ H2).
    rewrite repeat_length. unfold PyStr.int_max_str_digits. lia.
  - exact (proj2 (proj2 (extract_episode_number_first_mark _)) H3).
Defined.

(** C5, as stated, fails: without the space after the hyphen the code
    finds no episode number, where the digits after a hyphen and an
    optional space have the value 3. *)
Lemma extract_episode_number_needs_space :
  episode_number_as_claimed (lit "Show-3.mp4") = 3
  /\ TopAnimeStrm._extract_episode_number (lit "Show-3.mp4") = Effects.Return 0.
Proof. vm_compute. split; reflexivity. Qed.

(** ** [sorted] *)

Section SortedProps.
Context {A : Type} (key : A -> N) (reverse : bool).

Lemma before_total (x y : A) :
  Py.before key reverse x y = false -> Py.before key reverse y x = true.
Proof.
  unfold Py.before. destruct reverse; rewrite N.leb_gt, N.leb_le; lia.
Qed.

Lemma before_trans (x y z : A) :
  Py.before key reverse x y = true -> Py.before key reverse y z = true ->
  Py.before key reverse x z = true.
Proof.
  unfold Py.before. destruct reverse; rewrite !N.leb_le; lia.
Qed.

Lemma insert_permutation (x : A) (l : list A) :
  Permutation (Py.insert key reverse x l) (x :: l).
Proof.
  induction l as [|y l IH]; simpl; [reflexivity|].
  destruct (Py.before key reverse x y); [reflexivity|].
  rewrite IH. apply perm_swap.
Qed.

Lemma sorted_permutation (l : list A) : Permutation (Py.sorted key reverse l) l.
Proof.
  induction l as [|x l IH]; simpl; [reflexivity|].
  rewrite insert_permutation. now apply perm_skip.
Qed.

Lemma insert_strongly_sorted (x : A) (l : list A) :
  StronglySorted (fun a b => Py.before key reverse a b = true) l ->
  StronglySorted (fun a b => Py.before key reverse a b = true)
    (Py.insert key reverse x l).
Proof.
  induction 1 as [|y l Hl IH Hy]; simpl.
  - constructor; constructor.
  - destruct (Py.before key reverse x y) eqn:Hxy.
    + constructor; [now constructor|]. constructor; [exact Hxy|].
      eapply Forall_impl; [exact Hy|]. intros z Hz. cbv beta in Hz.
      eapply before_trans; eassumption.
    + constructor; [exact IH|].
      apply (Permutation_Forall (Permutation_sym (insert_permutation x l))).
      constructor; [now apply before_total | exact Hy].
Qed.

Lemma sorted_strongly_sorted (l : list A) :
  StronglySorted (fun a b => Py.before key reverse a b = true)
    (Py.sorted key reverse l).
Proof.
  induction l as [|x l IH]; simpl; [constructor | now apply insert_strongly_sorted].
Qed.

Lemma sorted_In (l : list A) (x : A) : In x (Py.sorted key reverse l) <-> In x l.
Proof.
  split; apply Permutation_in; [|symmetry]; apply sorted_permutation.
Qed.
End SortedProps.

Lemma strongly_sorted_impl {A : Type} (R S : A -> A -> Prop) (l : list A) :
  (forall a b, R a b -> S a b) -> StronglySorted R l -> StronglySorted S l.
Proof.
  intros HRS. induction 1 as [|x l Hl IH Hx]; constructor; [exact IH|].
  eapply Forall_impl; [exact Hx|]. intros y. apply HRS.
Qed.

(** ** [sorted] with a key that may raise *)

Lemma insert_decorated {A : Type} (k : A -> N) (reverse : bool) (x : A) (l : list A) :
  Py.insert fst reverse (k x, x) (List.map (fun y => (k y, y)) l)
  = List.map (fun y => (k y, y)) (Py.insert k reverse x l).
Proof.
  induction l as [|y l IH]; [reflexivity|]. cbn [List.map Py.insert].
  change (Py.before fst reverse (k x, x) (k y, y)) with (Py.before k reverse x y).
  destruct (Py.before k reverse x y); [reflexivity|].
  cbn [List.map]. now rewrite IH.
Qed.

Lemma sorted_decorated {A : Type} (k : A -> N) (reverse : bool) (l : list A) :
  List.map snd (Py.sorted fst reverse (List.map (fun y => (k y, y)) l))
  = Py.sorted k reverse l.
Proof.
  assert (Py.sorted fst reverse (List.map (fun y => (k y, y)) l)
          = List.map (fun y => (k y, y)) (Py.sorted k reverse l)) as ->.
  { induction l as [|x l IH]; [reflexivity|]. cbn [List.map Py.sorted].
    rewrite IH. apply insert_decorated. }
  rewrite List.map_map. cbn [snd]. apply List.map_id.
Qed.

Lemma numbered_key (e : str) :
  numbered e ->
  TopAnimeStrm._extract_episode_number e = Effects.Return (episode_key e).
Proof. intros [n Hn]. unfold episode_key. now rewrite Hn. Qed.

Lemma extract_episode_number_raises (e : str) (x : Effects.exn) :
  TopAnimeStrm._extract_episode_number e = Effects.Raise x -> x = Effects.ValueError.
Proof.
  unfold TopAnimeStrm._extract_episode_number.
  destruct (Re.search TopAnimeStrm.re_episode e) as [[rest [digits|]]|];
    try discriminate.
  destruct (PyStr.to_int digits); [discriminate|]. now intros [= <-].
Qed.

Lemma numbered_dec (e : str) :
  numbered e
  \/ TopAnimeStrm._extract_episode_number e = Effects.Raise Effects.ValueError.
Proof.
  destruct (TopAnimeStrm._extract_episode_number e) as [n|x] eqn:He.
  - left. now exists n.
  - right. now rewrite (extract_episode_number_raises e x He).
Qed.

Lemma with_keys_numbered (l : list str) :
  Forall numbered l ->
  TopAnimeStrm.with_keys TopAnimeStrm._extract_episode_number l
  = Effects.Return (List.map (fun e => (episode_key e, e)) l).
Proof.
  induction 1 as [|e l He _ IH]; [reflexivity|]. cbn [TopAnimeStrm.with_keys List.map].
  now rewrite (numbered_key e He), IH.
Qed.

Lemma with_keys_not_numbered (l : list str) :
  ~ Forall numbered l ->
  TopAnimeStrm.with_keys TopAnimeStrm._extract_episode_number l
  = Effects.Raise Effects.ValueError.
Proof.
  induction l as [|e l IH]; intros Hl; [exfalso; apply Hl; constructor|].
  cbn [TopAnimeStrm.with_keys]. destruct (numbered_dec e) as [He | ->]; [|reflexivity].
  rewrite (numbered_key e He). rewrite IH; [reflexivity|].
  intros Hl'. apply Hl. now constructor.
Qed.

Lemma sorted_episodes_numbered (episodes : list str) :
  Forall numbered episodes ->
  TopAnimeStrm.sorted_episodes episodes
  = Effects.Return (Py.sorted episode_key false episodes).
Proof.
  intros H. unfold TopAnimeStrm.sorted_episodes. rewrite (with_keys_numbered _ H).
  now rewrite sorted_decorated.
Qed.

Lemma sorted_episodes_not_numbered (episodes : list str) :
  ~ Forall numbered episodes ->
  TopAnimeStrm.sorted_episodes episodes = Effects.Raise Effects.ValueError.
Proof.
  intros H. unfold TopAnimeStrm.sorted_episodes. now rewrite (with_keys_not_numbered _ H).
Qed.

Lemma all_numbered_dec (l : list str) : Forall numbered l \/ ~ Forall numbered l.
Proof.
  induction l as [|e l [IH | IH]].
  - left. constructor.
  - destruct (numbered_dec e) as [He | He].
    + left. now constructor.
    + right. intros H. inversion H as [|? ? [n Hn] _]; subst. congruence.
  - right. intros H. inversion H; subst. now apply IH.
Qed.

Lemma sorted_episodes_returns (episodes sorted_episodes : list str) :
  TopAnimeStrm.sorted_episodes episodes = Effects.Return sorted_episodes ->
  Forall numbered episodes
  /\ sorted_episodes = Py.sorted episode_key false episodes.
Proof.
  intros H. destruct (all_numbered_dec episodes) as [Hn | Hn].
  - split; [exact Hn|]. rewrite (sorted_episodes_numbered _ Hn) in H.
    now injection H as <-.
  - rewrite (sorted_episodes_not_numbered _ Hn) in H. discriminate.
Qed.

Lemma extend_sorted_returns (top15_anime : TopAnimeStrm.series)
    (cleaned_files l : list str) :
  TopAnimeStrm.extend_sorted top15_anime cleaned_files = Effects.Return l ->
  Forall (fun item => Forall numbered (snd item)) top15_anime
  /\ l = cleaned_files
         ++ List.flat_map (fun item => Py.sorted episode_key false (snd item))
              top15_anime.
Proof.
  revert cleaned_files. induction top15_anime as [|[k eps] top IH];
    intros cleaned_files; cbn [TopAnimeStrm.extend_sorted List.flat_map].
  - intros [= <-]. split; [constructor | now rewrite app_nil_r].
  - destruct (TopAnimeStrm.sorted_episodes eps) as [s|x] eqn:Hs; [|discriminate].
    apply sorted_episodes_returns in Hs as [Hn ->]. intros H.
    apply IH in H as [Htop ->]. split; [now constructor|].
    cbn [snd]. now rewrite app_assoc.
Qed.

Lemma extend_sorted_numbered (top15_anime : TopAnimeStrm.series)
    (cleaned_files : list str) :
  Forall (fun item => Forall numbered (snd item)) top15_anime ->
  TopAnimeStrm.extend_sorted top15_anime cleaned_files
  = Effects.Return
      (cleaned_files
       ++ List.flat_map (fun item => Py.sorted episode_key false (snd item))
            top15_anime).
Proof.
  intros H. revert cleaned_files.
  induction H as [|[k eps] top Hn _ IH]; intros cleaned_files;
    cbn [TopAnimeStrm.extend_sorted List.flat_map].
  - now rewrite app_nil_r.
  - cbn [snd] in *. rewrite (sorted_episodes_numbered _ Hn), IH.
    now rewrite app_assoc.
Qed.

Lemma extend_sorted_groups (top15_anime : TopAnimeStrm.series)
    (cleaned_files l : list str) :
  TopAnimeStrm.extend_sorted top15_anime cleaned_files = Effects.Return l ->
  exists sorted_groups,
    Forall2 (fun item sorted_episodes =>
               TopAnimeStrm.sorted_episodes (snd item)
               = Effects.Return sorted_episodes) top15_anime sorted_groups
    /\ l = cleaned_files ++ List.concat sorted_groups.
Proof.
  revert cleaned_files. induction top15_anime as [|[k eps] top IH];
    intros cleaned_files; cbn [TopAnimeStrm.extend_sorted].
  - intros [= <-]. exists []. split; [constructor | now rewrite app_nil_r].
  - destruct (TopAnimeStrm.sorted_episodes eps) as [s|x] eqn:Hs; [|discriminate].
    intros H. apply IH in H as [sg [Hsg ->]]. exists (s :: sg).
    split; [now constructor|]. cbn [List.concat]. now rewrite app_assoc.
Qed.

(** ** The catalog aggregator *)

Lemma add_episode_keyed (anime_name clean_name : str) (d : TopAnimeStrm.series) :
  TopAnimeStrm._extract_anime_name clean_name = anime_name ->
  well_keyed d -> well_keyed (TopAnimeStrm.add_episode anime_name clean_name d).
Proof.
  intros Hname. induction d as [|[k0 eps0] d IH]; intros Hd k eps e; simpl.
  - intros [[= <- <-] | []] [<- | []]. exact Hname.
  - destruct (PyStr.eqb k0 anime_name) eqn:Hk.
    + apply eqb_true_iff in Hk as ->. intros [[= <- <-] | Hin] He.
      * apply in_app_or in He as [He | [<- | []]]; [|exact Hname].
        apply (Hd anime_name eps0 e); [now left | exact He].
      * apply (Hd k eps e); [now right | exact He].
    + intros [[= <- <-] | Hin] He.
      * apply (Hd k0 eps0 e); [now left | exact He].
      * apply IH with (episodes := eps); try assumption.
        intros k' eps' e' Hin' He'. apply (Hd k' eps' e'); [now right | exact He'].
Qed.

Lemma collect_keyed (d : TopAnimeStrm.series) (filename : str) :
  well_keyed d -> well_keyed (TopAnimeStrm.collect d filename).
Proof.
  intros Hd. unfold TopAnimeStrm.collect.
  destruct (TopAnimeStrm._clean_filename filename) as [|c t]; [exact Hd|].
  destruct (TopAnimeStrm._extract_anime_name (c :: t)) as [|c' t'] eqn:Hname;
    [exact Hd|].
  now apply add_episode_keyed.
Qed.

Lemma group_series_keyed (video_files : list str) :
  well_keyed (TopAnimeStrm.group_series video_files).
Proof.
  unfold TopAnimeStrm.group_series.
  assert (well_keyed []) as H0 by (intros k eps e []).
  revert H0. generalize (@nil (str * list str)).
  induction video_files as [|f l IH]; intros d Hd; simpl; [exact Hd|].
  apply IH. now apply collect_keyed.
Qed.

Lemma size_list_to_set_le (l : list str) :
  (size (list_to_set l : gset str) <= length l)%nat.
Proof.
  induction l as [|x l IH]; cbn [list_to_set length].
  - rewrite size_empty. lia.
  - rewrite size_union_alt, size_singleton.
    assert (size (list_to_set l ∖ {[x]} : gset str)
            <= size (list_to_set l : gset str))%nat as Hle.
    { apply subseteq_size, subseteq_difference_l. reflexivity. }
    lia.
Qed.

(** Every name the aggregator returns has the key of one of the groups
    kept as its series name. *)
Lemma top15_series_of_output (video_files cleaned_files : list str) (e : str) :
  TopAnimeStrm._clean_and_get_top15 video_files = Effects.Return cleaned_files ->
  In e cleaned_files ->
  In (TopAnimeStrm._extract_anime_name e)
     (List.map fst (TopAnimeStrm.top15_anime (TopAnimeStrm.group_series video_files))).
Proof.
  unfold TopAnimeStrm._clean_and_get_top15. intros Hrun He.
  apply extend_sorted_returns in Hrun as [_ ->]. cbn [app] in He.
  apply in_flat_map in He as [[k eps] [Hitem He]]. simpl in He.
  apply sorted_In in He. apply in_map_iff. exists (k, eps). split; [|exact Hitem].
  simpl. symmetry. apply (group_series_keyed video_files k eps e); [|exact He].
  unfold TopAnimeStrm.top15_anime in Hitem.
  apply list_elem_of_In, (subseteq_take 15), list_elem_of_In in Hitem.
  now apply sorted_In in Hitem.
Qed.

(** C6.  The groups are ranked by episode count, most episodes first:
    the ranking is a permutation of the groups in that order; the output
    is the episodes of the first 15 groups of the ranking, each group
    sorted, group after group; and the names of the output belong to 15
    series keys at most. *)
Theorem top15_at_most_15_series (video_files : list str) :
  let groups := TopAnimeStrm.group_series video_files in
  let ranking := TopAnimeStrm.sorted_anime groups in
  Permutation ranking groups
  /\ StronglySorted ranks_before ranking
  /\ forall cleaned_files,
       TopAnimeStrm._clean_and_get_top15 video_files = Effects.Return cleaned_files ->
       (exists sorted_groups,
          Forall2 (fun item sorted_episodes =>
                     TopAnimeStrm.sorted_episodes (snd item)
                     = Effects.Return sorted_episodes)
            (take 15 ranking) sorted_groups
          /\ cleaned_files = List.concat sorted_groups)
       /\ (size (list_to_set
                   (List.map TopAnimeStrm._extract_anime_name cleaned_files)
                 : gset str)
           <= 15)%nat.
Proof.
  intros groups ranking. split; [apply sorted_permutation|]. split.
  { eapply strongly_sorted_impl; [|apply sorted_strongly_sorted].
    intros a b H. unfold Py.before, TopAnimeStrm.episode_count in H.
    apply N.leb_le in H. unfold ranks_before. lia. }
  intros cleaned_files Hrun. split.
  - unfold TopAnimeStrm._clean_and_get_top15 in Hrun.
    apply extend_sorted_groups in Hrun as [sg [Hsg ->]]. now exists sg.
  - set (top := TopAnimeStrm.top15_anime groups).
    transitivity (size (list_to_set (List.map fst top) : gset str)).
    + apply subseteq_size. intros k Hk.
      apply elem_of_list_to_set, list_elem_of_In, in_map_iff in Hk as [e [<- He]].
      apply elem_of_list_to_set, list_elem_of_In.
      now apply (top15_series_of_output video_files cleaned_files).
    + etransitivity; [apply size_list_to_set_le|].
      rewrite length_map. unfold top, TopAnimeStrm.top15_anime.
      rewrite length_take. lia.
Qed.

Lemma top15_at_most_15_series_witness :
  let video_files :=
    [lit "[ANi] Show - 02 [1080P].mp4"; lit "[ANi] Other - 01 [1080P].mp4";
     lit "[ANi] Show - 01 [1080P].mp4"] in
  TopAnimeStrm._clean_and_get_top15 video_files
  = Effects.Return
      [lit "[ANi] Show - 01 [1080P].mp4"; lit "[ANi] Show - 02 [1080P].mp4";
       lit "[ANi] Other - 01 [1080P].mp4"]
  /\ (size (list_to_set
              (List.map TopAnimeStrm._extract_anime_name
                 [lit "[ANi] Show - 01 [1080P].mp4"; lit "[ANi] Show - 02 [1080P].mp4";
                  lit "[ANi] Other - 01 [1080P].mp4"]) : gset str)
      <= 15)%nat.
Proof.
  intros video_files.
  assert (TopAnimeStrm._clean_and_get_top15 video_files
          = Effects.Return
              [lit "[ANi] Show - 01 [1080P].mp4"; lit "[ANi] Show - 02 [1080P].mp4";
               lit "[ANi] Other - 01 [1080P].mp4"]) as H
    by (vm_compute; reflexivity).
  split; [exact H|].
  exact (proj2 (proj2 (proj2 (top15_at_most_15_series video_files)) _ H)).
Defined.

(** Within a group the episodes are in the order of their numbers. *)
Lemma sorted_episodes_in_order (episodes : list str) :
  Forall numbered episodes ->
  TopAnimeStrm.sorted_episodes episodes
  = Effects.Return (Py.sorted episode_key false episodes)
  /\ StronglySorted airs_before (Py.sorted episode_key false episodes)
  /\ Permutation (Py.sorted episode_key false episodes) episodes.
Proof.
  intros Hn. split; [now apply sorted_episodes_numbered|].
  split; [|apply sorted_permutation].
  assert (Forall numbered (Py.sorted episode_key false episodes)) as Hn'.
  { apply (Permutation_Forall (Permutation_sym (sorted_permutation _ _ _))). exact Hn. }
  pose proof (sorted_strongly_sorted episode_key false episodes) as Hs.
  induction Hs as [|a l Hl IH Ha]; [constructor|].
  inversion Hn' as [|? ? Hna Hnl]; subst. constructor; [now apply IH|].
  rewrite Forall_forall in Ha, Hnl. apply Forall_forall. intros b Hb.
  specialize (Ha b Hb). cbv beta in Ha. unfold Py.before in Ha.
  apply N.leb_le in Ha. exists (episode_key a), (episode_key b).
  repeat split; [now apply numbered_key | apply numbered_key, Hnl, Hb | exact Ha].
Qed.

(** C3, as the code has it.  None of the three names carries a bracketed
    tag, so the episode part is not removed and each name is its own
    series key: three groups of one episode, ranked in the order they
    were met, and flattened to the input sequence. *)
Theorem aggregate_three_names :
  let video_files := [lit "A - 1.mp4"; lit "A - 2.mp4"; lit "B - 1.mp4"] in
  TopAnimeStrm.group_series video_files =
    [ (lit "A - 1.mp4", [lit "A - 1.mp4"]);
      (lit "A - 2.mp4", [lit "A - 2.mp4"]);
      (lit "B - 1.mp4", [lit "B - 1.mp4"]) ]
  /\ TopAnimeStrm.sorted_anime (TopAnimeStrm.group_series video_files) =
       TopAnimeStrm.group_series video_files
  /\ TopAnimeStrm._clean_and_get_top15 video_files = Effects.Return video_files.
Proof. vm_compute. repeat split; reflexivity. Qed.

(** C3, as stated, fails: the first two names are not grouped under
    the key A, nor is the third under the key B. *)
Lemma aggregate_three_names_not_two_groups :
  TopAnimeStrm.group_series [lit "A - 1.mp4"; lit "A - 2.mp4"; lit "B - 1.mp4"] <>
    [ (lit "A", [lit "A - 1.mp4"; lit "A - 2.mp4"]);
      (lit "B", [lit "B - 1.mp4"]) ].
Proof. vm_compute. discriminate. Qed.

(** ** VideoStrm: the sanitized file name *)

Lemma match_illegal (bos : bool) (s : str) :
  Re.match_at VideoStrm.re_illegal bos s =
  match s with
  | c :: s' => if Re.oneof VideoStrm.illegal c then Some (s', None) else None
  | [] => None
  end.
Proof. destruct s; reflexivity. Qed.

(** Removing the matches of a class is filtering its characters out. *)
Lemma sub_illegal_filter (n : nat) (bos : bool) (s : str) :
  (length s < n)%nat ->
  Re.sub_go n VideoStrm.re_illegal [] bos s =
  List.filter (fun c => negb (Re.oneof VideoStrm.illegal c)) s.
Proof.
  revert bos s. induction n as [|n IH]; intros bos s Hlen; [lia|].
  cbn [Re.sub_go]. rewrite match_illegal. destruct s as [|c s]; [reflexivity|].
  simpl in Hlen. cbn [List.filter].
  destruct (Re.oneof VideoStrm.illegal c); cbn [negb].
  - replace (length s <? length (c :: s))%nat with true
      by (symmetry; apply Nat.ltb_lt; simpl; lia).
    apply IH. lia.
  - f_equal. apply IH. lia.
Qed.

Lemma split_ws_go_words (cur s : str) :
  Forall (fun c => Unicode.is_space c = false) cur ->
  Forall (fun w => word w /\ forall c, In c w -> In c (cur ++ s))
    (PyStr.split_ws_go cur s).
Proof.
  revert cur. induction s as [|c s IH]; intros cur Hcur; cbn [PyStr.split_ws_go].
  - destruct cur as [|a cur]; constructor; [|constructor].
    split; [split; [discriminate | exact Hcur]|]. intros x. now rewrite app_nil_r.
  - destruct (Unicode.is_space c) eqn:Hc.
    + assert (Forall (fun w => word w /\ forall x, In x w -> In x (cur ++ c :: s))
                (PyStr.split_ws_go [] s)) as Hrest.
      { eapply Forall_impl; [apply IH; constructor|].
        intros w [Hw Hin]. split; [exact Hw|]. intros x Hx.
        apply in_or_app. right. right. now apply Hin. }
      destruct cur as [|a cur]; [exact Hrest|]. constructor; [|exact Hrest].
      split; [split; [discriminate | exact Hcur]|].
      intros x Hx. apply in_or_app. now left.
    + eapply Forall_impl; [apply IH|].
      * apply Forall_app. split; [exact Hcur|]. constructor; [exact Hc | constructor].
      * intros w [Hw Hin]. split; [exact Hw|]. intros x Hx.
        rewrite <- app_assoc in Hin. now apply Hin.
Qed.

Lemma no_double_space_word (w : str) :
  Forall (fun c => Unicode.is_space c = false) w -> no_double_space w.
Proof.
  induction 1 as [|c w Hc Hw IH]; [exact I|]. split; [|exact IH].
  destruct w; [exact I|]. now rewrite Hc.
Qed.

Lemma no_double_space_word_app (w rest : str) :
  word w -> no_leading_space rest -> no_double_space rest ->
  no_double_space (w ++ 32 :: rest).
Proof.
  intros [Hne Hw] Hl Hr. induction Hw as [|c w Hc Hw IH]; [congruence|].
  cbn [app no_double_space]. destruct w as [|c2 w].
  - cbn [app]. rewrite Hc. split; [reflexivity|]. split; [|exact Hr].
    destruct rest as [|b rest]; [exact I|]. cbn in Hl. rewrite Hl.
    apply andb_false_r.
  - cbn [app]. rewrite Hc. split; [reflexivity|]. apply IH. discriminate.
Qed.

Lemma join_words (l : list str) :
  Forall word l ->
  let r := PyStr.join VideoStrm.space l in
  no_leading_space r /\ no_double_space r /\ no_trailing_space r
  /\ forall c, In c r -> c = 32 \/ exists w, In w l /\ In c w.
Proof.
  induction 1 as [|w l Hw Hl IH]; [cbn; tauto|].
  destruct IH as [IH1 [IH2 [IH3 IH4]]]. cbn zeta in *.
  assert (no_leading_space w /\ no_trailing_space w) as [Hlw Htw].
  { destruct Hw as [Hne Hall]. split.
    - destruct Hall; [congruence | assumption].
    - unfold no_trailing_space. apply Forall_rev in Hall.
      destruct (rev w) eqn:Hr; [exact I|]. now inversion Hall. }
  destruct l as [|w2 l].
  - cbn [PyStr.join]. repeat split; try assumption.
    + apply no_double_space_word, Hw.
    + intros c Hc. right. exists w. split; [now left | exact Hc].
  - change (PyStr.join VideoStrm.space (w :: w2 :: l))
      with (w ++ 32 :: PyStr.join VideoStrm.space (w2 :: l)).
    repeat split.
    + destruct w; [now destruct Hw | exact Hlw].
    + now apply no_double_space_word_app.
    + unfold no_trailing_space in *. rewrite rev_app_distr. cbn [rev].
      destruct (rev (PyStr.join VideoStrm.space (w2 :: l))) eqn:Hr; [|exact IH3].
      apply (f_equal (@rev N)) in Hr. rewrite rev_involutive in Hr.
      exfalso. inversion Hl as [|? ? [Hne2 _] _]; subst.
      destruct w2; [congruence|]. destruct l; discriminate.
    + intros c Hc. apply in_app_or in Hc as [Hc | [<- | Hc]].
      * right. exists w. split; [now left | exact Hc].
      * now left.
      * destruct (IH4 c Hc) as [-> | [w' [Hw' Hc']]]; [now left|].
        right. exists w'. split; [now right | exact Hc'].
Qed.

Lemma no_double_space_take (n : nat) (s : str) :
  no_double_space s -> no_double_space (take n s).
Proof.
  revert n. induction s as [|a s IH]; intros [|n] Hs; try exact I.
  cbn [take]. destruct Hs as [H1 H2]. split; [|now apply IH].
  destruct s as [|b s]; [now destruct n|]. destruct n; [exact I | exact H1].
Qed.

(** X30.  What holds of every sanitized name: none of the nine
    characters, no whitespace at the head, no two whitespace characters
    in a row, 200 characters at most; and no whitespace at the end when
    the name was not cut. *)
Lemma sanitize_filename_properties (title : str) :
  let joined :=
    PyStr.join VideoStrm.space
      (PyStr.split_ws (Re.sub VideoStrm.re_illegal [] title)) in
  let r := VideoStrm._sanitize_filename title in
  (forall c, In c VideoStrm.illegal -> ~ In c r)
  /\ no_leading_space r
  /\ no_double_space r
  /\ (length r <= 200)%nat
  /\ ((length joined <= 200)%nat -> no_trailing_space r).
Proof.
  intros joined r.
  pose proof (split_ws_go_words [] (Re.sub VideoStrm.re_illegal [] title)
                (List.Forall_nil _)) as Hwords.
  fold (PyStr.split_ws (Re.sub VideoStrm.re_illegal [] title)) in Hwords.
  destruct (join_words (PyStr.split_ws (Re.sub VideoStrm.re_illegal [] title)))
    as [H1 [H2 [H3 H4]]].
  { eapply Forall_impl; [exact Hwords|]. now intros w [Hw _]. }
  fold joined in H1, H2, H3, H4.
  assert (forall c, In c VideoStrm.illegal -> ~ In c joined) as Hill.
  { intros c Hc Hin. destruct (H4 c Hin) as [-> | [w [Hw Hcw]]].
    - cbn in Hc. repeat (destruct Hc as [Hc | Hc]; [discriminate|]). exact Hc.
    - rewrite Forall_forall in Hwords. apply list_elem_of_In in Hw.
      destruct (Hwords w Hw) as [_ Hsub]. apply Hsub in Hcw. cbn [app] in Hcw.
      unfold Re.sub in Hcw. rewrite sub_illegal_filter in Hcw by lia.
      apply filter_In in Hcw as [_ Hcw]. apply negb_true_iff in Hcw.
      assert (Re.oneof VideoStrm.illegal c = true) as Ht; [|congruence].
      apply existsb_exists. exists c. split; [exact Hc | apply N.eqb_refl]. }
  assert (r = if (200 <? length joined)%nat then take 200 joined else joined) as ->
    by reflexivity.
  destruct (200 <? length joined)%nat eqn:Hlen.
  - apply Nat.ltb_lt in Hlen. split; [|split; [|split; [|split]]].
    + intros c Hc Hin. apply (Hill c Hc).
      apply list_elem_of_In. apply list_elem_of_In in Hin.
      now apply (subseteq_take 200).
    + destruct joined; [exact I | exact H1].
    + now apply no_double_space_take.
    + rewrite length_take. lia.
    + lia.
  - apply Nat.ltb_ge in Hlen. split; [|split; [|split; [|split]]]; try assumption.
    intros _. exact H3.
Qed.

(** C10.  A title of 199 letters, a space and one more letter: the
    spaces are normalized first and the name is cut to 200 characters
    afterwards, so the name that comes out ends with the space; it is the
    name of the descriptor when no code is given. *)
Theorem sanitize_filename_trailing_space :
  let title := repeat 97 199 ++ lit " b" in
  length title = 201%nat
  /\ VideoStrm._sanitize_filename title = repeat 97 199 ++ [32]
  /\ ~ no_trailing_space (VideoStrm._sanitize_filename title)
  /\ VideoStrm.strm_name title None = VideoStrm._sanitize_filename title.
Proof.
  assert (VideoStrm._sanitize_filename (repeat 97 199 ++ lit " b")
          = repeat 97 199 ++ [32]) as H by (vm_compute; reflexivity).
  cbv zeta. split; [reflexivity|]. split; [exact H|]. split; [|reflexivity].
  rewrite H. unfold no_trailing_space. rewrite rev_app_distr. cbn. discriminate.
Qed.

(** ** The scraped listing: the five layers *)

Lemma mem_false_not_In (x : str) (l : list str) :
  TopAnimeStrm.mem x l = false -> ~ In x l.
Proof.
  unfold TopAnimeStrm.mem. intros H Hin.
  assert (existsb (PyStr.eqb x) l = true) as Ht; [|congruence].
  apply existsb_exists. exists x. split; [exact Hin | apply eqb_refl].
Qed.

Lemma append_new_NoDup (l : list str) (x : str) :
  List.NoDup l -> List.NoDup (TopAnimeStrm.append_new l x).
Proof.
  intros Hl. unfold TopAnimeStrm.append_new.
  destruct (TopAnimeStrm.mem x l) eqn:Hm; [exact Hl|].
  apply mem_false_not_In in Hm.
  apply NoDup_ListNoDup, NoDup_app. repeat split.
  - now apply NoDup_ListNoDup.
  - intros y Hy Hy'. apply list_elem_of_In in Hy.
    apply list_elem_of_In in Hy' as [<- | []]. tauto.
  - apply NoDup_ListNoDup. constructor; [intros [] | constructor].
Qed.

Lemma fold_left_NoDup {X : Type} (f : list str -> X -> list str) (xs : list X) :
  (forall l x, List.NoDup l -> List.NoDup (f l x)) ->
  forall l, List.NoDup l -> List.NoDup (fold_left f xs l).
Proof.
  intros Hf. induction xs as [|x xs IH]; intros l Hl; simpl; [exact Hl|].
  apply IH, Hf, Hl.
Qed.

Lemma layer_pattern_NoDup (content : str) (l : list str) (pat : Re.pattern) :
  List.NoDup l -> List.NoDup (TopAnimeStrm.layer_pattern content l pat).
Proof.
  intros Hl. unfold TopAnimeStrm.layer_pattern.
  apply fold_left_NoDup; [|exact Hl].
  intros l' m Hl'. destruct m; [exact Hl' | now apply append_new_NoDup].
Qed.

Lemma layer_link_NoDup (l : list str) (href : option str) :
  List.NoDup l -> List.NoDup (TopAnimeStrm.layer_link l href).
Proof.
  intros Hl. destruct href as [[|c t]|]; try exact Hl.
  unfold TopAnimeStrm.layer_link.
  destruct (PyStr.contains TopAnimeStrm.mp4 (c :: t));
    [now apply append_new_NoDup | exact Hl].
Qed.

Lemma layer_data_NoDup (l : list str) (filename : option str) :
  List.NoDup l -> List.NoDup (TopAnimeStrm.layer_data l filename).
Proof.
  intros Hl. destruct filename as [[|c t]|]; try exact Hl.
  unfold TopAnimeStrm.layer_data.
  destruct (PyStr.contains TopAnimeStrm.mp4 (c :: t));
    [now apply append_new_NoDup | exact Hl].
Qed.

(** X29.  The layers after the first add no name that is already
    there: when the names of the [video] elements are distinct, so are
    the names of the merged list. *)
Lemma later_layers_NoDup (p : TopAnimeStrm.page) (video_files : list str) :
  List.NoDup (fold_left TopAnimeStrm.layer_video (TopAnimeStrm.video_src p) []) ->
  TopAnimeStrm.extract_video_files p = Effects.Return video_files ->
  List.NoDup video_files.
Proof.
  intros H1. unfold TopAnimeStrm.extract_video_files.
  destruct (TopAnimeStrm.body_text p) as [all_text|]; [|discriminate].
  intros Hv. assert (forall a b : list str, Effects.Return a = Effects.Return b -> a = b)
    as Hinj by (intros a b [= ->]; reflexivity).
  apply Hinj in Hv. rewrite <- Hv.
  apply fold_left_NoDup; [apply append_new_NoDup|].
  apply fold_left_NoDup; [apply layer_pattern_NoDup|].
  apply fold_left_NoDup; [apply layer_data_NoDup|].
  apply fold_left_NoDup; [apply layer_link_NoDup | exact H1].
Qed.

(** C7.  A page with two [video] elements for the same file: the first
    layer appends the name of each without looking whether it is already
    there, and the merged list holds the name twice. *)
Theorem extract_video_files_duplicate :
  let p := TopAnimeStrm.Page true
             (lit "<video src='https://openani.an-i.workers.dev/2025-7/Show - 01.mp4'></video><video src='https://openani.an-i.workers.dev/2025-7/Show - 01.mp4'></video>")
             [ Some (lit "https://openani.an-i.workers.dev/2025-7/Show - 01.mp4");
               Some (lit "https://openani.an-i.workers.dev/2025-7/Show - 01.mp4") ]
             [] [] (Some []) in
  TopAnimeStrm.extract_video_files p =
    Effects.Return
      [ lit "Show - 01.mp4"; lit "Show - 01.mp4";
        lit "https://openani.an-i.workers.dev/2025-7/Show - 01.mp4" ]
  /\ forall video_files,
       TopAnimeStrm.extract_video_files p = Effects.Return video_files ->
       ~ List.NoDup video_files.
Proof.
  assert (TopAnimeStrm.extract_video_files
            (TopAnimeStrm.Page true
               (lit "<video src='https://openani.an-i.workers.dev/2025-7/Show - 01.mp4'></video><video src='https://openani.an-i.workers.dev/2025-7/Show - 01.mp4'></video>")
               [ Some (lit "https://openani.an-i.workers.dev/2025-7/Show - 01.mp4");
                 Some (lit "https://openani.an-i.workers.dev/2025-7/Show - 01.mp4") ]
               [] [] (Some [])) =
          Effects.Return
            [ lit "Show - 01.mp4"; lit "Show - 01.mp4";
              lit "https://openani.an-i.workers.dev/2025-7/Show - 01.mp4" ]) as H
    by (vm_compute; reflexivity).
  cbv zeta. split; [exact H|].
  intros video_files Hv. rewrite H in Hv. injection Hv as <-.
  intros Hnd. inversion Hnd as [|x l Hx _]; subst. apply Hx. now left.
Qed.

(** ** The descriptor writer *)

Section Touch.
Import Effects.
Context {E : Type}.
Variable os_write : str -> str -> E -> io_result.

(** A feed URL given, the URL to write can always be built. *)
Lemma src_url_of_feed (file_name : str) (c : N) (u : str)
    (w : world TopAnimeStrm.plugin E) :
  TopAnimeStrm.src_url file_name (Some (c :: u)) w =
  (Return (TopAnimeStrm.feed_url (c :: u)), w).
Proof. reflexivity. Qed.

(** The URL depends on the plugin object only, and building it changes
    nothing. *)
Lemma src_url_fst (file_name : str) (file_url : option str)
    (w w1 : world TopAnimeStrm.plugin E) :
  self w1 = self w ->
  fst (TopAnimeStrm.src_url file_name file_url w1) =
  fst (TopAnimeStrm.src_url file_name file_url w).
Proof.
  intros Hself. unfold TopAnimeStrm.src_url.
  destruct file_url as [[|c u]|]; try reflexivity;
    (destruct (Urllib.quote file_name TopAnimeStrm.dot); [|reflexivity];
     cbv [bind get_self ret raise]; rewrite Hself;
     now destruct (TopAnimeStrm._date (self w))).
Qed.

Lemma src_url_snd (file_name : str) (file_url : option str)
    (w : world TopAnimeStrm.plugin E) :
  snd (TopAnimeStrm.src_url file_name file_url w) = w.
Proof.
  unfold TopAnimeStrm.src_url.
  destruct file_url as [[|c u]|]; try reflexivity;
    (destruct (Urllib.quote file_name TopAnimeStrm.dot); [|reflexivity];
     cbv [bind get_self ret raise];
     now destruct (TopAnimeStrm._date (self w))).
Qed.

Lemma src_url_same_self (file_name : str) (file_url : option str)
    (w w1 : world TopAnimeStrm.plugin E) (url : str) :
  self w1 = self w ->
  TopAnimeStrm.src_url file_name file_url w = (Return url, w) ->
  TopAnimeStrm.src_url file_name file_url w1 = (Return url, w1).
Proof.
  intros Hself Hsrc.
  rewrite (surjective_pairing (TopAnimeStrm.src_url file_name file_url w1)).
  rewrite src_url_snd, (src_url_fst _ _ w w1 Hself), Hsrc. reflexivity.
Qed.

Lemma touch_existing (file_name : str) (file_url : option str)
    (w : world TopAnimeStrm.plugin E) (url : str) :
  TopAnimeStrm.src_url file_name file_url w = (Return url, w) ->
  is_Some (files w !! TopAnimeStrm.strm_path (self w) file_name) ->
  TopAnimeStrm.__touch_strm_file os_write file_name file_url w = (Return false, w).
Proof.
  intros Hsrc Hex. unfold TopAnimeStrm.__touch_strm_file.
  cbv [bind]. rewrite Hsrc. cbv [get_self path_exists ret].
  now rewrite bool_decide_eq_true_2.
Qed.

Lemma touch_fresh (file_name : str) (file_url : option str)
    (w : world TopAnimeStrm.plugin E) (url : str) :
  TopAnimeStrm.src_url file_name file_url w = (Return url, w) ->
  files w !! TopAnimeStrm.strm_path (self w) file_name = None ->
  os_write (TopAnimeStrm.strm_path (self w) file_name) url (env w) = Written ->
  TopAnimeStrm.__touch_strm_file os_write file_name file_url w =
  (Return true,
   World (self w)
     (<[TopAnimeStrm.strm_path (self w) file_name := url]> (files w))
     (env w) (trace w)).
Proof.
  intros Hsrc Hno Hio. unfold TopAnimeStrm.__touch_strm_file.
  cbv [bind]. rewrite Hsrc. cbv [get_self path_exists ret].
  rewrite bool_decide_eq_false_2 by (rewrite Hno; intros [x Hx]; discriminate).
  cbv [try_except write_file]. now rewrite Hio.
Qed.

(** C4, as the code has it.  The URL to write being built (as it is
    whenever a link is given; without a link, when the name can be
    encoded and the season is set): when a file is already at the
    path of the descriptor, [__touch_strm_file] returns [False] and
    leaves every file as it is; when there is none and the write goes
    through, the first call returns [True] and the file holds the URL,
    and a second call with the same arguments returns [False] and leaves
    the file as the first call wrote it. *)
Theorem touch_strm_file_write_once (file_name : str) (file_url : option str)
    (w : world TopAnimeStrm.plugin E) (url : str) :
  TopAnimeStrm.src_url file_name file_url w = (Return url, w) ->
  let file_path := TopAnimeStrm.strm_path (self w) file_name in
  (is_Some (files w !! file_path) ->
   TopAnimeStrm.__touch_strm_file os_write file_name file_url w = (Return false, w))
  /\ (files w !! file_path = None ->
      os_write file_path url (env w) = Written ->
      exists w1,
        TopAnimeStrm.__touch_strm_file os_write file_name file_url w = (Return true, w1)
        /\ files w1 !! file_path = Some url
        /\ TopAnimeStrm.__touch_strm_file os_write file_name file_url w1
           = (Return false, w1)).
Proof.
  intros Hsrc file_path. split; [now apply touch_existing with (url := url)|].
  intros Hno Hio.
  exists (World (self w) (<[file_path := url]> (files w)) (env w) (trace w)).
  split; [exact (touch_fresh _ _ _ _ Hsrc Hno Hio)|]. split.
  - cbn [files]. apply lookup_insert_eq.
  - apply touch_existing with (url := url).
    + now apply src_url_same_self with (w := w).
    + cbn [files self]. fold file_path. rewrite lookup_insert_eq. eauto.
Qed.
End Touch.

Lemma touch_strm_file_write_once_witness :
  let os_write := fun (_ _ : str) (_ : unit) => Effects.Written in
  let name := lit "[ANi] Show - 01 [1080P].mp4" in
  let link := lit "https://openani.an-i.workers.dev/2025-7/Show - 01.mp4?d=true" in
  let path := lit "/media/strm/[ANi] Show - 01 [1080P].mp4.strm" in
  let w := Effects.World
             (TopAnimeStrm.Plugin (Some (lit "/media/strm")) None) ∅ tt [] in
  let w1 := Effects.World
              (TopAnimeStrm.Plugin (Some (lit "/media/strm")) None)
              (<[path := link]> ∅) tt [] in
  TopAnimeStrm.__touch_strm_file os_write name (Some link) w = (Effects.Return true, w1)
  /\ Effects.files w1 !! path = Some link
  /\ TopAnimeStrm.__touch_strm_file os_write name (Some link) w1
     = (Effects.Return false, w1).
Proof.
  intros os_write name link path w w1.
  assert (TopAnimeStrm.src_url name (Some link) w = (Effects.Return link, w)) as Hsrc
    by (vm_compute; reflexivity).
  destruct (touch_strm_file_write_once os_write name (Some link) w link Hsrc)
    as [_ Hfresh].
  destruct Hfresh as [w' [H1 [H2 H3]]]; [apply lookup_empty | reflexivity |].
  assert (w' = w1) as ->.
  { rewrite (touch_fresh os_write name (Some link) w link Hsrc) in H1;
      [| apply lookup_empty | reflexivity].
    injection H1 as <-. reflexivity. }
  split; [exact H1|]. split; [exact H2 | exact H3].
Defined.

(** C4, as stated, fails: with a file at the path of the descriptor, an
    empty link and no season set on the plugin object, the URL is built
    before the path is looked at, and the call raises [AttributeError]
    where the claim has it return [False]. *)
Lemma touch_strm_file_existing_raises :
  let os_write := fun (_ _ : str) (_ : unit) => Effects.Written in
  let name := lit "[ANi] Show - 01 [1080P].mp4" in
  let path := lit "/media/strm/[ANi] Show - 01 [1080P].mp4.strm" in
  let w := Effects.World
             (TopAnimeStrm.Plugin (Some (lit "/media/strm")) None)
             (<[path := lit "https://openani.an-i.workers.dev/2025-7/old.mp4?d=true"]> ∅)
             tt [] in
  TopAnimeStrm.strm_path (Effects.self w) name = path
  /\ is_Some (Effects.files w !! path)
  /\ TopAnimeStrm.__touch_strm_file os_write name (Some []) w
     = (Effects.Raise Effects.AttributeError, w)
  /\ TopAnimeStrm.__touch_strm_file os_write name None w
     = (Effects.Raise Effects.AttributeError, w).
Proof.
  intros os_write name path w. split; [vm_compute; reflexivity|]. split.
  - unfold w. cbn [Effects.files]. rewrite lookup_insert_eq. eauto.
  - split; reflexivity.
Qed.

(** ** The retry policy of the two fetch operations *)

(** C8.  A feed and a season page that raise on every fetch, each fetch
    being counted.  [get_latest_list] does what the claim says: three
    attempts, a warning and a pause of 3 seconds after each, the closing
    warning, and the empty list.  [get_current_season_list], under the
    same decorator, does not: its body takes the exception itself, so
    there is one attempt, no warning, no pause and no closing warning
    before the empty list is returned. *)
Theorem season_list_single_attempt :
  let now := fun _ : nat => (2025, 7%nat) in
  let launch := fun fetches : nat => (Effects.Return tt, fetches) in
  let close := fun fetches : nat => (Effects.Return tt, fetches) in
  let browse := fun (_ : str) (fetches : nat) =>
                  (@Effects.Raise TopAnimeStrm.page (Effects.Collaborator 1 true),
                   S fetches) in
  let http_get := fun (_ : str) (fetches : nat) =>
                    (@Effects.Raise str (Effects.Collaborator 2 true), S fetches) in
  let parse_items := fun _ : str => @Effects.Return (list (str * str)) [] in
  let os_sleep := fun (_ : Z) (fetches : nat) => (Effects.Return tt, fetches) in
  let w := Effects.World (TopAnimeStrm.Plugin (Some (lit "/media/strm")) None)
             (∅ : gmap str str) 0%nat [] in
  TopAnimeStrm.get_latest_list http_get parse_items os_sleep w =
    (Effects.Return [],
     Effects.World (TopAnimeStrm.Plugin (Some (lit "/media/strm")) None) ∅ 3%nat
       [ Effects.Warn (Effects.RetryIn 3); Effects.Sleep 3;
         Effects.Warn (Effects.RetryIn 3); Effects.Sleep 3;
         Effects.Warn (Effects.RetryIn 3); Effects.Sleep 3;
         Effects.Warn Effects.CheckSeasonOrNetwork ])
  /\ TopAnimeStrm.get_current_season_list now true launch browse close os_sleep w =
    (Effects.Return [],
     Effects.World
       (TopAnimeStrm.Plugin (Some (lit "/media/strm")) (Some (lit "2025-7")))
       ∅ 1%nat []).
Proof.
  split; vm_compute; reflexivity.
Qed.

(** * Further properties *)

(** ** Normalized names as file names *)

Lemma search_tag_free (bos : bool) (s : str) :
  tag_free s -> Re.search_go TopAnimeStrm.re_tag bos s = None.
Proof.
  revert bos. induction s as [|c s IH]; intros bos Hs; cbn [Re.search_go];
    rewrite match_tag.
  - reflexivity.
  - destruct Hs as [H1 H2]. rewrite H1. cbn [option_map]. now apply IH.
Qed.

Lemma clean_filename_safe (filename : str) :
  let m := TopAnimeStrm._clean_filename filename in
  ~ In 47 m /\ Re.search TopAnimeStrm.re_tag m = None /\ PyStr.strip m = m.
Proof.
  destruct filename as [|c t].
  - cbn. split; [tauto | split; reflexivity].
  - assert (c :: t <> []) as Hne by discriminate.
    destruct (clean_filename_normal _ Hne) as [_ [Htf [Hsl Htr]]].
    cbv zeta. split; [exact Hsl|]. split.
    + now apply search_tag_free.
    + now apply strip_trimmed.
Qed.

(** X1.  Whatever the raw name, the normalized name holds no slash and
    no markup, and [strip] leaves it as it is. *)
Theorem clean_filename_safe_name (filename : str) :
  let m := TopAnimeStrm._clean_filename filename in
  ~ In 47 m /\ Re.search TopAnimeStrm.re_tag m = None /\ PyStr.strip m = m.
Proof.
  exact (clean_filename_safe filename).
Qed.

(** X2.  The descriptor is a file of the storage directory itself: after
    the directory and one slash, the path has no further slash, and it
    ends with [.strm]. *)
Theorem strm_path_in_storage (p : TopAnimeStrm.plugin) (file_name : str) :
  exists name,
    TopAnimeStrm.strm_path p file_name =
      TopAnimeStrm.format (TopAnimeStrm._storageplace p) ++ TopAnimeStrm.slash ++ name
    /\ ~ In 47 name
    /\ PyStr.endswith name TopAnimeStrm.dot_strm = true.
Proof.
  exists (TopAnimeStrm._clean_filename file_name ++ TopAnimeStrm.dot_strm).
  split; [reflexivity|]. split; [|apply endswith_app].
  intros Hin. apply in_app_or in Hin as [Hin | Hin].
  - now apply (clean_filename_safe file_name).
  - cbn in Hin. repeat (destruct Hin as [Hin | Hin]; [discriminate|]). exact Hin.
Qed.

(** ** The URL normalizer, feed shape *)

Lemma replace_go_no_head (old new x : str) (h : N) (old' : str) :
  old = h :: old' -> ~ In h x ->
  PyStr.replace_go old new 0 (x ++ old) = x ++ PyStr.replace_go old new 0 old.
Proof.
  intros -> Hx. induction x as [|c x IH]; [reflexivity|].
  cbn [app PyStr.replace_go PyStr.startswith].
  destruct (h =? c) eqn:Hc.
  - apply N.eqb_eq in Hc. subst c. exfalso. apply Hx. now left.
  - cbn [andb]. f_equal. apply IH. intros Hin. apply Hx. now right.
Qed.

Lemma not_valid_d_mp4 (x : str) :
  TopAnimeStrm._is_url_format_valid (x ++ TopAnimeStrm.d_mp4) = false.
Proof.
  unfold TopAnimeStrm._is_url_format_valid.
  destruct (PyStr.endswith _ _) eqn:H; [|reflexivity].
  apply endswith_iff in H as [y Hy]. apply (f_equal (@rev N)) in Hy.
  rewrite !rev_app_distr in Hy. discriminate.
Qed.

(** X3.  A feed URL made of a text without question mark and [?d=mp4]:
    the URL that comes out is the text and [.mp4?d=true]. *)
Theorem feed_url_of_d_mp4 (x : str) :
  ~ In 63 x ->
  TopAnimeStrm.feed_url (x ++ TopAnimeStrm.d_mp4) = x ++ TopAnimeStrm.mp4_d_true.
Proof.
  intros Hx. unfold TopAnimeStrm.feed_url. rewrite not_valid_d_mp4.
  unfold TopAnimeStrm._convert_url_format.
  assert (PyStr.contains TopAnimeStrm.d_mp4 (x ++ TopAnimeStrm.d_mp4) = true) as ->.
  { apply contains_iff. exists x, []. now rewrite app_nil_r. }
  unfold PyStr.replace.
  rewrite (replace_go_no_head _ _ x 63 (tl TopAnimeStrm.d_mp4)); [|reflexivity|exact Hx].
  reflexivity.
Qed.

Lemma feed_url_of_d_mp4_witness :
  ~ In 63 (lit "https://openani.an-i.workers.dev/show/ep01")
  /\ TopAnimeStrm.feed_url (lit "https://openani.an-i.workers.dev/show/ep01?d=mp4")
     = lit "https://openani.an-i.workers.dev/show/ep01.mp4?d=true".
Proof.
  assert (~ In 63 (lit "https://openani.an-i.workers.dev/show/ep01")) as H.
  { intros Hin. cbn in Hin. repeat (destruct Hin as [Hin | Hin]; [discriminate|]).
    exact Hin. }
  split; [exact H|]. exact (feed_url_of_d_mp4 _ H).
Defined.

(** X4.  A feed URL without [?d=mp4] in it: the URL that comes out
    begins with the URL given and ends with [.mp4?d=true]. *)
Theorem feed_url_appends_suffix (url : str) :
  PyStr.contains TopAnimeStrm.d_mp4 url = false ->
  PyStr.startswith (TopAnimeStrm.feed_url url) url = true
  /\ PyStr.endswith (TopAnimeStrm.feed_url url) TopAnimeStrm.mp4_d_true = true.
Proof.
  intros H. split; [|now apply feed_url_suffix_without_d_mp4].
  unfold TopAnimeStrm.feed_url, TopAnimeStrm._convert_url_format. rewrite H.
  destruct (TopAnimeStrm._is_url_format_valid url).
  - apply startswith_iff. exists []. now rewrite app_nil_r.
  - destruct (PyStr.endswith url TopAnimeStrm.mp4); apply startswith_app.
Qed.

Lemma feed_url_appends_suffix_witness :
  PyStr.contains TopAnimeStrm.d_mp4 (lit "https://openani.an-i.workers.dev/a.mp4") = false
  /\ PyStr.startswith (TopAnimeStrm.feed_url (lit "https://openani.an-i.workers.dev/a.mp4"))
       (lit "https://openani.an-i.workers.dev/a.mp4") = true
  /\ PyStr.endswith (TopAnimeStrm.feed_url (lit "https://openani.an-i.workers.dev/a.mp4"))
       TopAnimeStrm.mp4_d_true = true.
Proof.
  assert (PyStr.contains TopAnimeStrm.d_mp4
            (lit "https://openani.an-i.workers.dev/a.mp4") = false) as H
    by (vm_compute; reflexivity).
  split; [exact H|]. exact (feed_url_appends_suffix _ H).
Defined.

(** ** The descriptor writer: failures and what is kept *)

Section TouchMore.
Import Effects.
Context {E : Type}.
Variable os_write : str -> str -> E -> io_result.

(** X5.  The URL built and no file at the path: when the write does not
    go through, [__touch_strm_file] returns [False] without raising; the
    trace, the plugin object and the files at the other paths are as
    before. *)
Theorem touch_failed_write (file_name : str) (file_url : option str)
    (w : world TopAnimeStrm.plugin E) (url : str) :
  TopAnimeStrm.src_url file_name file_url w = (Return url, w) ->
  let file_path := TopAnimeStrm.strm_path (self w) file_name in
  files w !! file_path = None ->
  os_write file_path url (env w) <> Written ->
  exists w',
    TopAnimeStrm.__touch_strm_file os_write file_name file_url w = (Return false, w')
    /\ trace w' = trace w /\ self w' = self w
    /\ forall path, path <> file_path -> files w' !! path = files w !! path.
Proof.
  intros Hsrc file_path Hno Hio. unfold TopAnimeStrm.__touch_strm_file.
  cbv [bind]. rewrite Hsrc. cbv [get_self path_exists ret]. fold file_path.
  rewrite bool_decide_eq_false_2 by (rewrite Hno; intros [x Hx]; discriminate).
  cbv [try_except write_file].
  destruct (os_write file_path url (env w)) as [| |partial]; [congruence| |];
    cbn [is_Exception]; eexists; (split; [reflexivity|]); cbn [trace self files];
    repeat split; try reflexivity.
  intros path Hpath. now rewrite lookup_insert_ne.
Qed.

(** X6.  No URL given (or an empty one): with a name that holds a
    surrogate the call raises [UnicodeEncodeError]; with a name that can
    be encoded and no season set on the object, it raises
    [AttributeError]; in both cases before anything is looked up or
    written. *)
Theorem touch_without_url_raises (file_name : str) (file_url : option str)
    (w : world TopAnimeStrm.plugin E) :
  file_url = None \/ file_url = Some [] ->
  (Urllib.quote file_name TopAnimeStrm.dot = None ->
   TopAnimeStrm.__touch_strm_file os_write file_name file_url w
   = (Raise UnicodeEncodeError, w))
  /\ (Urllib.quote file_name TopAnimeStrm.dot <> None ->
      TopAnimeStrm._date (self w) = None ->
      TopAnimeStrm.__touch_strm_file os_write file_name file_url w
      = (Raise AttributeError, w)).
Proof.
  intros Hurl. unfold TopAnimeStrm.__touch_strm_file, TopAnimeStrm.src_url.
  split.
  - intros Hq. destruct Hurl as [-> | ->]; cbv [bind]; now rewrite Hq.
  - intros Hq Hdate.
    destruct (Urllib.quote file_name TopAnimeStrm.dot) as [q|] eqn:Eq; [|congruence].
    destruct Hurl as [-> | ->]; cbv [bind get_self]; rewrite Hdate; reflexivity.
Qed.

Lemma touch_strm_file_keeps (file_name : str) (file_url : option str) :
  keeps_files (TopAnimeStrm.__touch_strm_file os_write file_name file_url).
Proof.
  intros w o w' Hrun path text Hpath.
  unfold TopAnimeStrm.__touch_strm_file in Hrun. cbv [bind] in Hrun.
  destruct (TopAnimeStrm.src_url file_name file_url w) as [[url|e] w1] eqn:Hsrc.
  - pose proof (src_url_snd file_name file_url w) as Hw1. rewrite Hsrc in Hw1.
    cbn in Hw1. subst w1. cbv [get_self path_exists ret] in Hrun.
    set (file_path := TopAnimeStrm.strm_path (self w) file_name) in *.
    destruct (bool_decide (is_Some (files w !! file_path))) eqn:Hex.
    + injection Hrun as _ <-. exact Hpath.
    + apply bool_decide_eq_false_1 in Hex.
      assert (path <> file_path) as Hne.
      { intros ->. apply Hex. rewrite Hpath. eauto. }
      cbv [try_except write_file] in Hrun.
      destruct (os_write file_path url (env w)) as [| |partial];
        cbn [is_Exception] in Hrun; injection Hrun as _ <-; cbn [files];
        try exact Hpath; now rewrite lookup_insert_ne.
  - pose proof (src_url_snd file_name file_url w) as Hw1. rewrite Hsrc in Hw1.
    cbn in Hw1. subst w1. injection Hrun as _ <-. exact Hpath.
Qed.

(** X7.  Whatever the arguments and the outcome, [__touch_strm_file]
    leaves every file there is as it is: it writes at a path only when
    there is no file at it. *)
Theorem touch_keeps_files (file_name : str) (file_url : option str) :
  keeps_files (TopAnimeStrm.__touch_strm_file os_write file_name file_url).
Proof.
  exact (touch_strm_file_keeps file_name file_url).
Qed.
End TouchMore.

Lemma touch_failed_write_witness :
  let os_write := fun (_ _ : str) (_ : unit) => Effects.OpenFailed in
  let name := lit "[ANi] Show - 01 [1080P].mp4" in
  let link := lit "https://openani.an-i.workers.dev/2025-7/Show - 01.mp4?d=true" in
  let w := Effects.World
             (TopAnimeStrm.Plugin (Some (lit "/media/strm")) None)
             (∅ : gmap str str) tt [] in
  TopAnimeStrm.__touch_strm_file os_write name (Some link) w = (Effects.Return false, w).
Proof.
  intros os_write name link w.
  assert (TopAnimeStrm.src_url name (Some link) w = (Effects.Return link, w)) as Hsrc
    by (vm_compute; reflexivity).
  destruct (touch_failed_write os_write name (Some link) w link Hsrc)
    as [w' [Hrun _]]; [apply lookup_empty | discriminate |].
  rewrite Hrun. vm_compute in Hrun. injection Hrun as <-. reflexivity.
Defined.

Lemma touch_without_url_raises_witness :
  let os_write := fun (_ _ : str) (_ : unit) => Effects.Written in
  let w := Effects.World
             (TopAnimeStrm.Plugin (Some (lit "/media/strm")) None)
             (∅ : gmap str str) tt [] in
  TopAnimeStrm.__touch_strm_file os_write [0xD800] None w
    = (Effects.Raise Effects.UnicodeEncodeError, w)
  /\ TopAnimeStrm.__touch_strm_file os_write (lit "Show - 01.mp4") (Some []) w
     = (Effects.Raise Effects.AttributeError, w).
Proof.
  intros os_write w. split.
  - apply (proj1 (touch_without_url_raises os_write [0xD800] None w (or_introl eq_refl))).
    reflexivity.
  - apply (proj2 (touch_without_url_raises os_write (lit "Show - 01.mp4") (Some []) w
                    (or_intror eq_refl))); [discriminate | reflexivity].
Defined.

(** ** The task: what a run keeps and what it counts *)

Section KeepsFiles.
Import Effects.
Context {P E : Type}.

Lemma ret_keeps {A} (a : A) : keeps_files (@ret P E A a).
Proof. intros w o w' [= _ <-] path text H. exact H. Qed.

Lemma emit_keeps (ev : event) : keeps_files (@emit P E ev).
Proof. intros w o w' [= _ <-] path text H. exact H. Qed.

Lemma lift_keeps {A} (o : outcome A) : keeps_files (@lift P E A o).
Proof. intros w o' w' [= _ <-] path text H. exact H. Qed.

Lemma call_keeps {A} (f : E -> outcome A * E) : keeps_files (@call P E A f).
Proof.
  intros w o w'. unfold call. destruct (f (env w)) as [o1 e1].
  intros [= _ <-] path text H. exact H.
Qed.

Lemma bind_keeps {A B} (m : @M P E A) (k : A -> @M P E B) :
  keeps_files m -> (forall a, keeps_files (k a)) -> keeps_files (bind m k).
Proof.
  intros Hm Hk w o w'. unfold bind. destruct (m w) as [[a|e] w1] eqn:Hmw.
  - intros Hrun path text H. eapply Hk; [exact Hrun|]. eapply Hm; eassumption.
  - intros [= _ <-] path text H. eapply Hm; eassumption.
Qed.

Lemma try_except_keeps {A} (m : @M P E A) (handler : exn -> @M P E A) :
  keeps_files m -> (forall e, keeps_files (handler e)) ->
  keeps_files (try_except m handler).
Proof.
  intros Hm Hh w o w'. unfold try_except. destruct (m w) as [[a|e] w1] eqn:Hmw.
  - intros [= _ <-] path text H. eapply Hm; eassumption.
  - destruct (is_Exception e).
    + intros Hrun path text H. eapply Hh; [exact Hrun|]. eapply Hm; eassumption.
    + intros [= _ <-] path text H. eapply Hm; eassumption.
Qed.

Lemma raise_keeps {A} (e : exn) : keeps_files (@raise P E A e).
Proof. intros w o w' [= _ <-] path text H. exact H. Qed.

Lemma sleep_keeps (os_sleep : Z -> E -> outcome unit * E) (secs : Z) :
  keeps_files (@sleep P E os_sleep secs).
Proof.
  unfold sleep. destruct (_ || _); [apply raise_keeps|].
  destruct (secs <? 0)%Z; [apply raise_keeps|].
  apply bind_keeps; [apply call_keeps | intros _; apply emit_keeps].
Qed.

Lemma try_finally_keeps {A} (m : @M P E A) (cleanup : @M P E unit) :
  keeps_files m -> keeps_files cleanup -> keeps_files (try_finally m cleanup).
Proof.
  intros Hm Hc w o w'. unfold try_finally. destruct (m w) as [o1 w1] eqn:Hmw.
  destruct (cleanup w1) as [[u|e] w2] eqn:Hcw;
    intros [= _ <-] path text H; (eapply Hc; [exact Hcw|]); eapply Hm; eassumption.
Qed.
End KeepsFiles.

Section TaskProps.
Import Effects.
Context {E : Type}.
Variable now : E -> N * nat.
Variable PLAYWRIGHT_AVAILABLE : bool.
Variable launch : E -> outcome unit * E.
Variable browse : str -> E -> outcome TopAnimeStrm.page * E.
Variable close : E -> outcome unit * E.
Variable http_get : str -> E -> outcome str * E.
Variable parse_items : str -> outcome (list (str * str)).
Variable os_write : str -> str -> E -> io_result.
Variable os_sleep : Z -> E -> outcome unit * E.

Lemma retry_loop_keeps {A} (catches : exn -> bool) (backoff : Z) (has_logger : bool)
    (ret_value : A) (f : @M TopAnimeStrm.plugin E A) (mtries : nat) (mdelay : Z) :
  keeps_files f ->
  keeps_files
    (TopAnimeStrm.f_retry_loop os_sleep catches backoff has_logger ret_value f
       mtries mdelay).
Proof.
  intros Hf. revert mdelay. induction mtries as [|n IH]; intros mdelay.
  - cbn [TopAnimeStrm.f_retry_loop]. apply bind_keeps; [|intros _; apply ret_keeps].
    destruct has_logger; [apply emit_keeps | apply ret_keeps].
  - intros w o w'. cbn [TopAnimeStrm.f_retry_loop].
    destruct (f w) as [[a|e] w1] eqn:Hfw.
    + intros [= _ <-] path text H. eapply Hf; eassumption.
    + destruct (catches e).
      * intros Hrun path text H.
        assert (keeps_files
                  ((if PyStr.of_int_raises mdelay
                    then raise ValueError else ret tt) ;;;
                   TopAnimeStrm.report has_logger (RetryIn mdelay) ;;;
                   sleep os_sleep mdelay ;;;
                   TopAnimeStrm.f_retry_loop os_sleep catches backoff has_logger
                     ret_value f n (mdelay * backoff)%Z)) as Hk.
        { apply bind_keeps.
          { destruct (PyStr.of_int_raises mdelay);
              [apply raise_keeps | apply ret_keeps]. }
          intros _. apply bind_keeps.
          - unfold TopAnimeStrm.report. destruct has_logger; apply emit_keeps.
          - intros _. apply bind_keeps; [apply sleep_keeps | intros _; apply IH]. }
        eapply Hk; [exact Hrun|]. eapply Hf; eassumption.
      * intros [= _ <-] path text H. eapply Hf; eassumption.
Qed.

Lemma get_ani_season_keeps (idx_month : option nat) :
  keeps_files (TopAnimeStrm.__get_ani_season now idx_month).
Proof.
  intros w o w'. unfold TopAnimeStrm.__get_ani_season.
  destruct (now (env w)) as [current_year month].
  destruct (TopAnimeStrm.season_month _); intros [= _ <-] path text H; exact H.
Qed.

Lemma get_current_season_list_keeps :
  keeps_files
    (TopAnimeStrm.get_current_season_list now PLAYWRIGHT_AVAILABLE launch browse close
       os_sleep).
Proof.
  apply retry_loop_keeps. unfold TopAnimeStrm.season_list_body.
  destruct PLAYWRIGHT_AVAILABLE; cbn [negb].
  - apply bind_keeps; [apply get_ani_season_keeps|]. intros season.
    apply try_except_keeps; [|intros _; apply ret_keeps].
    apply bind_keeps; [apply call_keeps|]. intros _.
    apply try_finally_keeps; [|apply call_keeps].
    apply bind_keeps; [apply call_keeps|]. intros p.
    apply bind_keeps.
    { destruct (TopAnimeStrm.found_selector p); [apply ret_keeps | apply emit_keeps]. }
    intros _. apply bind_keeps; [apply lift_keeps|]. intros l. apply lift_keeps.
  - apply bind_keeps; [apply emit_keeps | intros _; apply ret_keeps].
Qed.

Lemma get_latest_list_keeps :
  keeps_files (TopAnimeStrm.get_latest_list http_get parse_items os_sleep).
Proof.
  apply retry_loop_keeps. unfold TopAnimeStrm.latest_list_body.
  apply bind_keeps; [apply call_keeps|]. intros text.
  apply bind_keeps; [apply lift_keeps|]. intros items. apply ret_keeps.
Qed.

Lemma touch_all_keeps {X} (touch : X -> @M TopAnimeStrm.plugin E bool)
    (l : list X) (cnt : N) :
  (forall x, keeps_files (touch x)) ->
  keeps_files (TopAnimeStrm.touch_all touch l cnt).
Proof.
  intros Ht. revert cnt. induction l as [|x l IH]; intros cnt;
    cbn [TopAnimeStrm.touch_all]; [apply ret_keeps|].
  apply bind_keeps; [apply Ht | intros created; apply IH].
Qed.

Lemma touch_all_count {X} (touch : X -> @M TopAnimeStrm.plugin E bool)
    (l : list X) (cnt n : N) (w w' : world TopAnimeStrm.plugin E) :
  TopAnimeStrm.touch_all touch l cnt w = (Return n, w') ->
  cnt <= n <= cnt + N.of_nat (length l).
Proof.
  revert cnt w. induction l as [|x l IH]; intros cnt w;
    cbn [TopAnimeStrm.touch_all].
  - intros [= <- _]. cbn. lia.
  - unfold bind at 1. destruct (touch x w) as [[created|e] w1]; [|discriminate].
    intros Hrun. apply IH in Hrun. cbn [length]. destruct created; lia.
Qed.

(** X8.  A run of the task, incremental or full, whatever its outcome:
    every file that was there before is there after it, with the same
    text. *)
Theorem task_keeps_files (fulladd : bool) :
  keeps_files
    (TopAnimeStrm.__task now PLAYWRIGHT_AVAILABLE launch browse close
       http_get parse_items os_write os_sleep fulladd).
Proof.
  unfold TopAnimeStrm.__task. destruct fulladd; cbn [negb].
  - apply bind_keeps; [apply get_current_season_list_keeps|]. intros names.
    apply touch_all_keeps. intros x. apply touch_strm_file_keeps.
  - apply bind_keeps; [apply get_latest_list_keeps|]. intros items.
    apply touch_all_keeps. intros [title link]. apply touch_strm_file_keeps.
Qed.

(** X9.  The count a run of the task reports is the number of new files
    at most the number of entries the fetch returned: the run that
    reports [cnt] went through a list of [cnt] entries at least. *)
Theorem task_count_bounded (fulladd : bool) (w w' : world TopAnimeStrm.plugin E)
    (cnt : N) :
  TopAnimeStrm.__task now PLAYWRIGHT_AVAILABLE launch browse close
    http_get parse_items os_write os_sleep fulladd w = (Return cnt, w') ->
  if fulladd
  then exists name_list w1,
         TopAnimeStrm.get_current_season_list now PLAYWRIGHT_AVAILABLE
           launch browse close os_sleep w = (Return name_list, w1)
         /\ cnt <= N.of_nat (length name_list)
  else exists rss_info_list w1,
         TopAnimeStrm.get_latest_list http_get parse_items os_sleep w
           = (Return rss_info_list, w1)
         /\ cnt <= N.of_nat (length rss_info_list).
Proof.
  unfold TopAnimeStrm.__task. destruct fulladd; cbn [negb]; unfold bind at 1.
  - destruct (TopAnimeStrm.get_current_season_list _ _ _ _ _ _ w) as [[l|e] w1];
      [|discriminate].
    intros Hrun. exists l, w1. split; [reflexivity|].
    apply touch_all_count in Hrun. lia.
  - destruct (TopAnimeStrm.get_latest_list _ _ _ w) as [[l|e] w1]; [|discriminate].
    intros Hrun. exists l, w1. split; [reflexivity|].
    apply touch_all_count in Hrun. lia.
Qed.
End TaskProps.

(** ** The season of the clock *)

Section SeasonProps.
Import Effects.
Context {E : Type}.
Variable now : E -> N * nat.

(** X10.  The month of the clock being one of the twelve:
    [__get_ani_season] returns the year, a hyphen and the first month of
    the quarter (1, 4, 7 or 10), and sets [_date] to it; nothing else
    changes. *)
Theorem get_ani_season_quarter (w : world TopAnimeStrm.plugin E)
    (current_year : N) (month : nat) :
  now (env w) = (current_year, month) ->
  (1 <= month <= 12)%nat ->
  let season := PyStr.of_N current_year ++ TopAnimeStrm.hyphen
                ++ PyStr.of_N (N.of_nat (quarter_start month)) in
  In (quarter_start month) [1; 4; 7; 10]%nat
  /\ (quarter_start month <= month < quarter_start month + 3)%nat
  /\ TopAnimeStrm.__get_ani_season now None w =
     (Return (Some season),
      World (TopAnimeStrm.Plugin (TopAnimeStrm._storageplace (self w)) (Some season))
        (files w) (env w) (trace w)).
Proof.
  intros Hnow Hm. unfold TopAnimeStrm.__get_ani_season. rewrite Hnow.
  do 13 (destruct month as [|month]; [cbn; repeat split; (lia || tauto)|]).
  lia.
Qed.
End SeasonProps.

Lemma get_ani_season_quarter_witness :
  let now := fun _ : unit => (2025, 9%nat) in
  let w := Effects.World
             (TopAnimeStrm.Plugin (Some (lit "/media/strm")) None)
             (∅ : gmap str str) tt [] in
  TopAnimeStrm.__get_ani_season now None w =
  (Effects.Return (Some (lit "2025-7")),
   Effects.World (TopAnimeStrm.Plugin (Some (lit "/media/strm")) (Some (lit "2025-7")))
     ∅ tt []).
Proof.
  intros now w.
  destruct (get_ani_season_quarter now w 2025 9%nat eq_refl) as [_ [_ H]]; [lia|].
  exact H.
Defined.

(** ** The retry policy in general *)

Lemma of_int_raises_small (z : Z) :
  (0 <= z <= Effects.sleep_max)%Z -> PyStr.of_int_raises z = false.
Proof.
  intros Hz. unfold PyStr.of_int_raises, PyStr.int_max_str_digits, Effects.sleep_max in *.
  apply Z.leb_gt. change (Z.of_nat 4300) with 4300%Z.
  assert (10 ^ 10 <= 10 ^ 4300)%Z as Hpow by (apply Z.pow_le_mono_r; lia).
  change (10 ^ 10)%Z with 10000000000%Z in Hpow. lia.
Qed.

Lemma sleep_accepted {P E : Type} (os_sleep : Z -> E -> Effects.outcome unit * E)
    (secs : Z) (w : Effects.world P E) (e' : E) :
  (0 <= secs <= Effects.sleep_max)%Z ->
  os_sleep secs (Effects.env w) = (Effects.Return tt, e') ->
  Effects.sleep os_sleep secs w
  = (Effects.Return tt,
     Effects.World (Effects.self w) (Effects.files w) e'
       (Effects.trace w ++ [Effects.Sleep secs])).
Proof.
  intros Hs Hos. unfold Effects.sleep.
  assert (((secs <? - Effects.sleep_max) || (Effects.sleep_max <? secs))%Z = false)
    as -> by (apply orb_false_iff; split; apply Z.ltb_ge; lia).
  assert ((secs <? 0)%Z = false) as -> by (apply Z.ltb_ge; lia).
  cbv [Effects.bind Effects.call Effects.emit]. rewrite Hos. reflexivity.
Qed.

Section RetryGeneral.
Import Effects.
Context {E A : Type}.
Variable os_sleep : Z -> E -> outcome unit * E.
Variable catches : exn -> bool.
Variables (delay backoff : Z) (ret_value : A).
Variable f : @M TopAnimeStrm.plugin E A.

Lemma retry_loop_schedule (n : nat) (k : nat) (w : world TopAnimeStrm.plugin E) :
  (forall i, (k <= i < k + n)%nat ->
     (0 <= delay * backoff ^ Z.of_nat i <= sleep_max)%Z) ->
  (forall i e, (k <= i < k + n)%nat ->
     exists e', os_sleep (delay * backoff ^ Z.of_nat i) e = (Return tt, e')) ->
  (forall v, exists e v', f v = (Raise e, v') /\ catches e = true
                          /\ trace v' = trace v) ->
  exists w',
    TopAnimeStrm.f_retry_loop os_sleep catches backoff true ret_value f n
      (delay * backoff ^ Z.of_nat k) w = (Return ret_value, w')
    /\ trace w' =
       trace w
       ++ List.flat_map
            (fun i => [Warn (RetryIn (delay * backoff ^ Z.of_nat i));
                       Sleep (delay * backoff ^ Z.of_nat i)])
            (seq k n)
       ++ [Warn CheckSeasonOrNetwork].
Proof.
  intros Hd Hos Hf. revert k w Hd Hos. induction n as [|n IH]; intros k w Hd Hos.
  - cbn. eexists. split; [reflexivity|]. reflexivity.
  - cbn [TopAnimeStrm.f_retry_loop seq List.flat_map].
    destruct (Hf w) as [e [v' [Hfw [He Htr]]]]. rewrite Hfw, He.
    assert (k <= k < k + S n)%nat as Hk by lia.
    unfold bind at 1. rewrite (of_int_raises_small _ (Hd k Hk)). cbv [ret].
    unfold bind at 1. cbv [TopAnimeStrm.report emit].
    unfold bind at 1.
    destruct (Hos k (env v') Hk) as [e' Hsleep].
    rewrite (sleep_accepted os_sleep _ _ e' (Hd k Hk)) by exact Hsleep.
    replace (delay * backoff ^ Z.of_nat k * backoff)%Z
      with (delay * backoff ^ Z.of_nat (S k))%Z
      by (rewrite Nat2Z.inj_succ, Z.pow_succ_r by lia; lia).
    edestruct (IH (S k)) as [w' [Hrun Htrace]];
      [intros i Hi; apply Hd; lia | intros i x Hi; apply Hos; lia|].
    eexists. split; [exact Hrun|].
    rewrite Htrace. cbn [trace]. rewrite Htr, <- !app_assoc. reflexivity.
Qed.

(** X11.  Every attempt raising an exception of the class to catch,
    without a word to the trace of its own, and every pause of the
    schedule being one that [time.sleep] takes (not negative, its
    nanoseconds within 64 bits) and the operating system makes: the
    wrapped call makes [tries] attempts, warns and pauses after each,
    the pause after attempt [i] being [delay * backoff ^ i], gives the
    closing warning and returns the default value. *)
Theorem retry_backoff_schedule (tries : Z) (w : world TopAnimeStrm.plugin E) :
  (forall i, (i < Z.to_nat tries)%nat ->
     (0 <= delay * backoff ^ Z.of_nat i <= sleep_max)%Z) ->
  (forall i e, (i < Z.to_nat tries)%nat ->
     exists e', os_sleep (delay * backoff ^ Z.of_nat i) e = (Return tt, e')) ->
  (forall v, exists e v', f v = (Raise e, v') /\ catches e = true
                          /\ trace v' = trace v) ->
  exists w',
    TopAnimeStrm.retry os_sleep catches tries delay backoff true ret_value f w
    = (Return ret_value, w')
    /\ trace w' = trace w ++ retry_schedule (Z.to_nat tries) delay backoff
                  ++ [Warn CheckSeasonOrNetwork].
Proof.
  intros Hd Hos Hf. unfold TopAnimeStrm.retry, retry_schedule.
  destruct (retry_loop_schedule (Z.to_nat tries) 0 w) as [w' [Hrun Htr]];
    [intros i Hi; apply Hd; lia | intros i e Hi; apply Hos; lia | exact Hf |].
  exists w'. split; [|exact Htr].
  rewrite <- Hrun. f_equal. cbn. lia.
Qed.

(** X12.  With no attempt allowed the function is not called: the
    closing warning and the default value.  With an attempt allowed, a
    first attempt that returns, or that raises an exception of another
    class, is the outcome of the call, with no warning and no pause. *)
Theorem retry_first_attempt (tries : Z) (w : world TopAnimeStrm.plugin E) :
  ((tries <= 0)%Z ->
   TopAnimeStrm.retry os_sleep catches tries delay backoff true ret_value f w
   = (Return ret_value, after_giving_up w))
  /\ ((0 < tries)%Z ->
      forall o w1,
        f w = (o, w1) ->
        match o with Return _ => True | Raise e => catches e = false end ->
        TopAnimeStrm.retry os_sleep catches tries delay backoff true ret_value f w
        = (o, w1)).
Proof.
  unfold TopAnimeStrm.retry. split.
  - intros Ht. replace (Z.to_nat tries) with 0%nat by lia. reflexivity.
  - intros Ht o w1 Hfw Ho. destruct (Z.to_nat tries) as [|n] eqn:Hn; [lia|].
    cbn [TopAnimeStrm.f_retry_loop]. rewrite Hfw.
    destruct o as [a|e]; [reflexivity | now rewrite Ho].
Qed.
End RetryGeneral.

(** ** The catalog aggregator: what goes in comes out *)

Lemma add_episode_episodes (k e : str) (d : TopAnimeStrm.series) :
  Permutation (episodes_of (TopAnimeStrm.add_episode k e d)) (episodes_of d ++ [e]).
Proof.
  unfold episodes_of. induction d as [|[k0 eps0] d IH]; cbn [TopAnimeStrm.add_episode].
  - reflexivity.
  - destruct (PyStr.eqb k0 k); cbn [List.map List.concat snd].
    + rewrite <- !app_assoc. apply Permutation_app_head, Permutation_app_comm.
    + rewrite IH, <- app_assoc. reflexivity.
Qed.

Lemma collect_episodes (d : TopAnimeStrm.series) (filename : str) :
  Permutation (episodes_of (TopAnimeStrm.collect d filename))
    (episodes_of d ++ accepted_names [filename]).
Proof.
  unfold TopAnimeStrm.collect, accepted_names. cbn [List.map List.filter].
  destruct (TopAnimeStrm._clean_filename filename) as [|c t];
    [cbn; now rewrite app_nil_r|].
  destruct (TopAnimeStrm._extract_anime_name (c :: t)) as [|c' t'] eqn:Hname.
  - cbn. now rewrite app_nil_r.
  - cbn [PyStr.eqb negb andb]. apply add_episode_episodes.
Qed.

Lemma accepted_names_app (l1 l2 : list str) :
  accepted_names (l1 ++ l2) = accepted_names l1 ++ accepted_names l2.
Proof. unfold accepted_names. now rewrite List.map_app, List.filter_app. Qed.

Lemma group_series_episodes (video_files : list str) :
  Permutation (episodes_of (TopAnimeStrm.group_series video_files))
    (accepted_names video_files).
Proof.
  unfold TopAnimeStrm.group_series.
  assert (forall d, Permutation (episodes_of (fold_left TopAnimeStrm.collect video_files d))
                      (episodes_of d ++ accepted_names video_files)) as H.
  { induction video_files as [|f l IH]; intros d; cbn [fold_left].
    - cbn. now rewrite app_nil_r.
    - rewrite IH, collect_episodes, <- app_assoc.
      change (f :: l) with ([f] ++ l). now rewrite accepted_names_app. }
  apply (H []).
Qed.

Lemma accepted_names_In (video_files : list str) (e : str) :
  In e (accepted_names video_files) <->
  (exists f, In f video_files /\ e = TopAnimeStrm._clean_filename f)
  /\ e <> [] /\ TopAnimeStrm._extract_anime_name e <> [].
Proof.
  unfold accepted_names. rewrite filter_In, in_map_iff, andb_true_iff, !negb_true_iff.
  assert (forall x : str, PyStr.eqb x [] = false <-> x <> []) as Hnil.
  { intros x. destruct x; cbn; split; congruence. }
  rewrite !Hnil. split.
  - intros [[f [<- Hf]] H]. split; [now exists f | exact H].
  - intros [[f [Hf ->]] H]. split; [now exists f | exact H].
Qed.

Lemma flat_map_sorted_episodes (d : TopAnimeStrm.series) :
  Permutation
    (List.flat_map (fun item => Py.sorted episode_key false (snd item)) d)
    (episodes_of d).
Proof.
  unfold episodes_of. induction d as [|item d IH]; cbn; [reflexivity|].
  apply Permutation_app; [apply sorted_permutation | exact IH].
Qed.

Lemma episodes_of_perm (d1 d2 : TopAnimeStrm.series) :
  Permutation d1 d2 -> Permutation (episodes_of d1) (episodes_of d2).
Proof.
  unfold episodes_of. induction 1; cbn.
  - reflexivity.
  - now apply Permutation_app_head.
  - rewrite !app_assoc. apply Permutation_app_tail, Permutation_app_comm.
  - etransitivity; eassumption.
Qed.

Lemma episodes_of_numbered (d : TopAnimeStrm.series) :
  Forall numbered (episodes_of d) ->
  Forall (fun item => Forall numbered (snd item)) d.
Proof.
  unfold episodes_of. induction d as [|item d IH]; cbn [List.map List.concat];
    intros H; [constructor|].
  apply Forall_app in H as [H1 H2]. constructor; [exact H1 | now apply IH].
Qed.

(** X13.  Every name the aggregator returns is the normalized form of
    one of the candidates, is not empty, has a series name that is not
    empty, and ends with [.mp4]: the aggregator makes up no name. *)
Theorem top15_names_from_input (video_files cleaned_files : list str) (e : str) :
  TopAnimeStrm._clean_and_get_top15 video_files = Effects.Return cleaned_files ->
  In e cleaned_files ->
  (exists f, In f video_files /\ e = TopAnimeStrm._clean_filename f)
  /\ e <> [] /\ TopAnimeStrm._extract_anime_name e <> []
  /\ PyStr.endswith e TopAnimeStrm.mp4 = true.
Proof.
  intros Hrun He.
  assert (In e (accepted_names video_files)) as Hacc.
  { apply (Permutation_in _ (group_series_episodes video_files)).
    unfold TopAnimeStrm._clean_and_get_top15 in Hrun.
    apply extend_sorted_returns in Hrun as [_ ->]. cbn [app] in He.
    apply in_flat_map in He as [item [Hitem He]]. apply sorted_In in He.
    unfold episodes_of. apply in_concat. exists (snd item). split; [|exact He].
    apply in_map. unfold TopAnimeStrm.top15_anime in Hitem.
    apply list_elem_of_In, (subseteq_take 15), list_elem_of_In in Hitem.
    now apply sorted_In in Hitem. }
  apply accepted_names_In in Hacc as [[f [Hf ->]] [Hne Hname]].
  split; [now exists f|]. split; [exact Hne|]. split; [exact Hname|].
  assert (f <> []) as Hf' by (intros ->; now apply Hne).
  now destruct (clean_filename_normal f Hf') as [Hend _].
Qed.

Lemma top15_names_from_input_witness :
  TopAnimeStrm._clean_and_get_top15
    [lit "dir/%5BANi%5D Show - 01 %5B1080P%5D.mp4?a=view"]
  = Effects.Return [lit "[ANi] Show - 01 [1080P].mp4"]
  /\ PyStr.endswith (lit "[ANi] Show - 01 [1080P].mp4") TopAnimeStrm.mp4 = true.
Proof.
  assert (TopAnimeStrm._clean_and_get_top15
            [lit "dir/%5BANi%5D Show - 01 %5B1080P%5D.mp4?a=view"]
          = Effects.Return [lit "[ANi] Show - 01 [1080P].mp4"]) as H
    by (vm_compute; reflexivity).
  split; [exact H|].
  now destruct (top15_names_from_input _ _ (lit "[ANi] Show - 01 [1080P].mp4") H
                  (or_introl eq_refl)) as [_ [_ [_ Hend]]].
Defined.

(** X14.  With 15 series at most, and names whose episode numbers can
    all be read, nothing is lost: the aggregator returns, and its
    output is a permutation of the names taken in (with their
    repetitions). *)
Theorem top15_keeps_all_when_few (video_files : list str) :
  (length (TopAnimeStrm.group_series video_files) <= 15)%nat ->
  Forall numbered (accepted_names video_files) ->
  exists cleaned_files,
    TopAnimeStrm._clean_and_get_top15 video_files = Effects.Return cleaned_files
    /\ Permutation cleaned_files (accepted_names video_files).
Proof.
  intros Hlen Hnum. unfold TopAnimeStrm._clean_and_get_top15, TopAnimeStrm.top15_anime.
  rewrite take_ge.
  2:{ unfold TopAnimeStrm.sorted_anime.
      rewrite (Permutation_length (sorted_permutation _ _ _)). exact Hlen. }
  assert (Permutation
            (episodes_of (TopAnimeStrm.sorted_anime (TopAnimeStrm.group_series video_files)))
            (accepted_names video_files)) as Hperm.
  { etransitivity; [apply episodes_of_perm, sorted_permutation|].
    apply group_series_episodes. }
  eexists. split.
  - apply extend_sorted_numbered, episodes_of_numbered.
    apply (Permutation_Forall (Permutation_sym Hperm)). exact Hnum.
  - cbn [app]. etransitivity; [apply flat_map_sorted_episodes | exact Hperm].
Qed.

Lemma top15_keeps_all_when_few_witness :
  let video_files :=
    [lit "[ANi] B - 02 [1080P].mp4"; lit "[ANi] A - 01 [1080P].mp4";
     lit "[ANi] B - 01 [1080P].mp4"] in
  exists cleaned_files,
    TopAnimeStrm._clean_and_get_top15 video_files = Effects.Return cleaned_files
    /\ Permutation cleaned_files video_files.
Proof.
  intros video_files.
  assert (accepted_names video_files = video_files) as Hacc
    by (vm_compute; reflexivity).
  destruct (top15_keeps_all_when_few video_files) as [l [Hl Hp]].
  - vm_compute. lia.
  - rewrite Hacc. unfold video_files.
    repeat (constructor; [eexists; vm_compute; reflexivity|]). constructor.
  - exists l. split; [exact Hl|]. now rewrite Hacc in Hp.
Defined.

Lemma add_episode_keys (k e : str) (d : TopAnimeStrm.series) :
  List.map fst (TopAnimeStrm.add_episode k e d) =
  if TopAnimeStrm.mem k (List.map fst d) then List.map fst d
  else List.map fst d ++ [k].
Proof.
  unfold TopAnimeStrm.mem.
  induction d as [|[k0 eps0] d IH]; cbn [TopAnimeStrm.add_episode List.map existsb fst];
    [reflexivity|].
  destruct (PyStr.eqb k0 k) eqn:Hk.
  - apply eqb_true_iff in Hk as ->. now rewrite eqb_refl.
  - cbn [List.map fst]. rewrite IH.
    assert (PyStr.eqb k k0 = false) as ->.
    { destruct (PyStr.eqb k k0) eqn:H; [|reflexivity].
      apply eqb_true_iff in H as ->. now rewrite eqb_refl in Hk. }
    cbn [orb]. now destruct (existsb (PyStr.eqb k) (List.map fst d)).
Qed.

Lemma add_episode_nonempty (k e : str) (d : TopAnimeStrm.series) :
  k <> [] ->
  Forall (fun item => fst item <> [] /\ snd item <> []) d ->
  Forall (fun item => fst item <> [] /\ snd item <> [])
    (TopAnimeStrm.add_episode k e d).
Proof.
  intros Hk. induction 1 as [|[k0 eps0] d [H1 H2] Hd IH];
    cbn [TopAnimeStrm.add_episode].
  - constructor; [|constructor]. split; [exact Hk | discriminate].
  - destruct (PyStr.eqb k0 k); constructor; try assumption.
    + split; [exact H1|]. cbn. now destruct eps0.
    + now split.
Qed.

(** X15.  The groups of the aggregator: the series keys are distinct,
    no key is empty and no group is empty. *)
Theorem group_series_keys (video_files : list str) :
  List.NoDup (List.map fst (TopAnimeStrm.group_series video_files))
  /\ Forall (fun item => fst item <> [] /\ snd item <> [])
       (TopAnimeStrm.group_series video_files).
Proof.
  unfold TopAnimeStrm.group_series.
  assert (forall d,
            List.NoDup (List.map fst d)
            /\ Forall (fun item => fst item <> [] /\ snd item <> []) d ->
            List.NoDup (List.map fst (fold_left TopAnimeStrm.collect video_files d))
            /\ Forall (fun item => fst item <> [] /\ snd item <> [])
                 (fold_left TopAnimeStrm.collect video_files d)) as H.
  { induction video_files as [|f l IH]; intros d Hd; cbn [fold_left]; [exact Hd|].
    apply IH. unfold TopAnimeStrm.collect.
    destruct (TopAnimeStrm._clean_filename f) as [|c t]; [exact Hd|].
    destruct (TopAnimeStrm._extract_anime_name (c :: t)) as [|c' t']; [exact Hd|].
    destruct Hd as [Hnd Hne]. split.
    - rewrite add_episode_keys. apply (append_new_NoDup _ _ Hnd).
    - apply add_episode_nonempty; [discriminate | exact Hne]. }
  apply H. split; constructor.
Qed.

(** ** [sorted] is stable *)

Lemma insert_filter {A : Type} (key : A -> N) (reverse : bool) (k : N) (x : A)
    (l : list A) :
  List.filter (fun y => key y =? k) (Py.insert key reverse x l) =
  List.filter (fun y => key y =? k) (x :: l).
Proof.
  induction l as [|y l IH]; [reflexivity|]. cbn [Py.insert].
  destruct (Py.before key reverse x y) eqn:Hb; [reflexivity|].
  cbn [List.filter] in *. rewrite IH.
  destruct (key x =? k) eqn:Hx; [|reflexivity].
  destruct (key y =? k) eqn:Hy; [|reflexivity].
  apply N.eqb_eq in Hx, Hy. unfold Py.before in Hb.
  destruct reverse; apply N.leb_gt in Hb; lia.
Qed.

Lemma sorted_filter {A : Type} (key : A -> N) (reverse : bool) (k : N) (l : list A) :
  List.filter (fun y => key y =? k) (Py.sorted key reverse l) =
  List.filter (fun y => key y =? k) l.
Proof.
  induction l as [|x l IH]; [reflexivity|]. cbn [Py.sorted].
  rewrite insert_filter. cbn [List.filter]. now rewrite IH.
Qed.

Lemma has_number_key (n : N) (e : str) :
  numbered e -> has_number n e = (episode_key e =? n).
Proof. intros [m Hm]. unfold has_number, episode_key. now rewrite Hm. Qed.

Lemma filter_has_number (n : N) (l : list str) :
  Forall numbered l ->
  List.filter (has_number n) l = List.filter (fun e => episode_key e =? n) l.
Proof.
  induction 1 as [|e l He _ IH]; [reflexivity|]. cbn [List.filter].
  now rewrite (has_number_key n e He), IH.
Qed.

(** X16.  When the episode number of every name of a group can be read,
    the episodes come out in the order of their numbers, each as often
    as it went in, and episodes of the same number (all those without a
    number count as 0) keep the order they were met in; when the number
    of some name cannot be read, the sort raises [ValueError]. *)
Theorem sorted_episodes_stable (episodes : list str) :
  (Forall numbered episodes ->
   exists sorted_episodes,
     TopAnimeStrm.sorted_episodes episodes = Effects.Return sorted_episodes
     /\ StronglySorted airs_before sorted_episodes
     /\ Permutation sorted_episodes episodes
     /\ forall n,
          List.filter (has_number n) sorted_episodes
          = List.filter (has_number n) episodes)
  /\ (~ Forall numbered episodes ->
      TopAnimeStrm.sorted_episodes episodes = Effects.Raise Effects.ValueError).
Proof.
  split; [|apply sorted_episodes_not_numbered].
  intros Hn. destruct (sorted_episodes_in_order episodes Hn) as [H1 [H2 H3]].
  exists (Py.sorted episode_key false episodes).
  split; [exact H1|]. split; [exact H2|]. split; [exact H3|]. intros n.
  rewrite !filter_has_number;
    [apply sorted_filter | exact Hn
     | apply (Permutation_Forall (Permutation_sym H3)); exact Hn].
Qed.

Lemma sorted_episodes_stable_witness :
  TopAnimeStrm.sorted_episodes
    [lit "Show - 02 [a].mp4"; lit "Show.mp4"; lit "Show - 01 [a].mp4";
     lit "Show - 2 [b].mp4"]
  = Effects.Return
      [lit "Show.mp4"; lit "Show - 01 [a].mp4"; lit "Show - 02 [a].mp4";
       lit "Show - 2 [b].mp4"]
  /\ TopAnimeStrm.sorted_episodes
       [lit "Show - 01 [a].mp4"; [45; 32] ++ repeat 49 4301]
     = Effects.Raise Effects.ValueError.
Proof.
  split.
  - destruct (proj1 (sorted_episodes_stable
                       [lit "Show - 02 [a].mp4"; lit "Show.mp4";
                        lit "Show - 01 [a].mp4"; lit "Show - 2 [b].mp4"]))
      as [l [Hl _]].
    + repeat (constructor; [eexists; vm_compute; reflexivity|]). constructor.
    + rewrite Hl. vm_compute in Hl. injection Hl as <-. reflexivity.
  - apply (proj2 (sorted_episodes_stable _)). intros H.
    inversion H as [|? ? _ H']; subst. inversion H' as [|? ? [n Hn] _]; subst.
    vm_compute in Hn. discriminate.
Defined.

(** X17.  The ranking of the series: most episodes first, and series
    with the same number of episodes in the order they were first
    met. *)
Theorem sorted_anime_stable (anime_series : TopAnimeStrm.series) :
  StronglySorted ranks_before (TopAnimeStrm.sorted_anime anime_series)
  /\ forall n,
       List.filter (fun item => N.of_nat (length (snd item)) =? n)
         (TopAnimeStrm.sorted_anime anime_series)
       = List.filter (fun item => N.of_nat (length (snd item)) =? n) anime_series.
Proof.
  split.
  - eapply strongly_sorted_impl; [|apply sorted_strongly_sorted].
    intros a b H. unfold Py.before, TopAnimeStrm.episode_count in H.
    apply N.leb_le in H. unfold ranks_before. lia.
  - intros n. apply (sorted_filter TopAnimeStrm.episode_count true n).
Qed.

(** ** The series extractor *)

Lemma star_needs_char (c : N) (cls : Re.charset) (k : Re.cont) :
  needs_char c k -> needs_char c (Re.star cls k).
Proof.
  intros Hk bos t. revert bos. induction t as [|x t IH]; intros bos g Ht;
    cbn [Re.star]; [now apply Hk|].
  destruct (cls x); [|now apply Hk].
  rewrite IH by (intros Hin; apply Ht; now right). now apply Hk.
Qed.

Lemma run_cons_needs_char (c : N) (a : Re.atom) (p : Re.pattern) :
  needs_char c (Re.run p) -> needs_char c (Re.run (a :: p)).
Proof.
  intros Hk bos t g Ht.
  assert (forall x t', t = x :: t' -> ~ In c t') as Htl
    by (intros x t' -> Hin; apply Ht; now right).
  destruct a; cbn [Re.run].
  - destruct t as [|x t']; [reflexivity|]. destruct (c0 x); [|reflexivity].
    apply Hk. now apply (Htl x).
  - destruct t as [|x t']; [now apply Hk|]. destruct (c0 x); [|now apply Hk].
    rewrite (Hk false t' g) by now apply (Htl x). now apply Hk.
  - apply (star_needs_char c c0 _ Hk). exact Ht.
  - destruct t as [|x t']; [reflexivity|]. destruct (c0 x); [|reflexivity].
    apply (star_needs_char c c0 _ Hk). now apply (Htl x).
  - destruct bos; [now apply Hk | reflexivity].
  - destruct t as [|x t']; [now apply Hk|].
    destruct x as [|px]; [now destruct t'|].
    repeat (destruct px as [px|px|]; try (now destruct t')).
    destruct t'; [now apply Hk | reflexivity].
  - now apply Hk.
  - now rewrite Hk.
Qed.

Lemma run_one_needs_char (a : ascii) (p : Re.pattern) :
  needs_char (N_of_ascii a) (Re.run (Re.One (Re.chr a) :: p)).
Proof.
  intros bos t g Ht. cbn [Re.run]. destruct t as [|x t']; [reflexivity|].
  unfold Re.chr. destruct (x =? N_of_ascii a) eqn:Hx; [|reflexivity].
  apply N.eqb_eq in Hx. exfalso. apply Ht. now left.
Qed.

Lemma sub_needs_char (c : N) (p : Re.pattern) (repl : str) (n : nat) (bos : bool)
    (s : str) :
  needs_char c (Re.run p) -> ~ In c s -> Re.sub_go n p repl bos s = s.
Proof.
  intros Hp. revert bos s. induction n as [|n IH]; intros bos s Hs; [reflexivity|].
  cbn [Re.sub_go]. unfold Re.match_at. rewrite (Hp bos s None Hs).
  destruct s as [|x s]; [reflexivity|]. f_equal. apply IH.
  intros Hin. apply Hs. now right.
Qed.

(** X18.  A name without an opening bracket: none of the three patterns
    of [_extract_anime_name] matches, and the series name is the name
    itself, stripped, with its episode number and its extension. *)
Theorem extract_anime_name_without_bracket (filename : str) :
  ~ In 91 filename ->
  TopAnimeStrm._extract_anime_name filename = PyStr.strip filename.
Proof.
  intros H. unfold TopAnimeStrm._extract_anime_name, Re.sub.
  rewrite (sub_needs_char 91 TopAnimeStrm.re_ani_prefix) by
    (try exact H; apply run_cons_needs_char, (run_one_needs_char "[")).
  rewrite (sub_needs_char 91 TopAnimeStrm.re_episode_part) by
    (try exact H; do 5 apply run_cons_needs_char; apply (run_one_needs_char "[")).
  rewrite (sub_needs_char 91 TopAnimeStrm.re_quality) by
    (try exact H; apply run_cons_needs_char, (run_one_needs_char "[")).
  reflexivity.
Qed.

Lemma extract_anime_name_without_bracket_witness :
  ~ In 91 (lit "A - 1.mp4")
  /\ TopAnimeStrm._extract_anime_name (lit "A - 1.mp4") = lit "A - 1.mp4".
Proof.
  assert (~ In 91 (lit "A - 1.mp4")) as H.
  { intros Hin. cbn in Hin. repeat (destruct Hin as [Hin | Hin]; [discriminate|]).
    exact Hin. }
  split; [exact H|]. rewrite (extract_anime_name_without_bracket _ H). reflexivity.
Defined.

(** ** The series extractor on names in the form of the source *)

Lemma space_not_decimal (c : N) :
  Unicode.is_space c = true -> Unicode.is_decimal c = false.
Proof.
  intros H.
  assert (In c [9; 10; 11; 12; 13; 28; 29; 30; 31; 32; 0x85; 0xA0; 0x1680;
                0x2000; 0x2001; 0x2002; 0x2003; 0x2004; 0x2005; 0x2006; 0x2007;
                0x2008; 0x2009; 0x200A; 0x2028; 0x2029; 0x202F; 0x205F; 0x3000])
    as Hin.
  { unfold Unicode.is_space in H.
    repeat rewrite ?orb_true_iff, ?andb_true_iff, ?N.leb_le, ?N.eqb_eq in H.
    cbn [In]. lia. }
  cbn [In] in Hin.
  repeat (destruct Hin as [<- | Hin]; [vm_compute; reflexivity|]). destruct Hin.
Qed.

Lemma decimal_not_space (c : N) :
  Unicode.is_decimal c = true -> Unicode.is_space c = false.
Proof.
  intros H. destruct (Unicode.is_space c) eqn:Hs; [|reflexivity].
  apply space_not_decimal in Hs. congruence.
Qed.

(** A greedy run that ends where the class ends, before a text the rest
    of the pattern matches. *)
Lemma star_greedy (cls : Re.charset) (k : Re.cont) (u t : str) (g : option str)
    (r : Re.mres) :
  Forall (fun c => cls c = true) u ->
  match t with h :: _ => cls h = false | [] => True end ->
  (forall b, k b t g = Some r) ->
  forall bos, Re.star cls k bos (u ++ t) g = Some r.
Proof.
  intros Hu Ht Hk. induction Hu as [|x u Hx Hu IH]; intros bos.
  - cbn [app]. destruct t as [|h t]; cbn [Re.star]; [apply Hk|].
    rewrite Ht. apply Hk.
  - cbn [app Re.star]. rewrite Hx. now rewrite IH.
Qed.

(** A run of whitespace before a hyphen, begun in a text without hyphen
    that ends with a character that is not whitespace: no match. *)
Lemma star_space_no_hyphen (p : Re.pattern) (v : str) (d : N) (w : str)
    (bos : bool) (g : option str) :
  ~ In 45 v -> d <> 45 -> Unicode.is_space d = false ->
  Re.star Re.space (Re.run (Re.One (Re.chr "-") :: p)) bos (v ++ d :: w) g = None.
Proof.
  intros Hv Hd Hs. revert bos.
  assert (forall b x t, x <> 45 ->
            Re.run (Re.One (Re.chr "-") :: p) b (x :: t) g = None) as Hk.
  { intros b x t Hx. cbn [Re.run]. unfold Re.chr. change (N_of_ascii "-") with 45.
    apply N.eqb_neq in Hx. now rewrite Hx. }
  induction v as [|x v IH]; intros bos; cbn [app Re.star].
  - unfold Re.space at 1. rewrite Hs. now apply Hk.
  - assert (x <> 45) as Hx by (intros ->; apply Hv; now left).
    rewrite IH by (intros Hin; apply Hv; now right).
    destruct (Re.space x); now apply Hk.
Qed.

Lemma match_episode_part_tail (ws1 ws2 digits ws3 rest : str) (bos : bool) :
  Forall (fun c => Unicode.is_space c = true) ws1 ->
  Forall (fun c => Unicode.is_space c = true) ws2 ->
  Forall (fun c => Unicode.is_space c = true) ws3 ->
  digits <> [] -> Forall (fun c => Unicode.is_decimal c = true) digits ->
  ~ In 10 rest ->
  Re.match_at TopAnimeStrm.re_episode_part bos
    (ws1 ++ [45] ++ ws2 ++ digits ++ ws3 ++ [91] ++ rest) = Some ([], None).
Proof.
  intros H1 H2 H3 Hne Hd Hrest. unfold Re.match_at, TopAnimeStrm.re_episode_part.
  cbn [Re.run].
  (* from the end of the pattern to its head *)
  assert (forall b g, Re.star Re.dot (Re.run [Re.Eol]) b rest g = Some ([], None)) as K6.
  { intros b g. rewrite <- (app_nil_r rest).
    apply star_greedy; [|exact I|reflexivity].
    apply Forall_forall. intros c Hc. apply list_elem_of_In in Hc. unfold Re.dot.
    apply negb_true_iff, N.eqb_neq. intros ->. now apply Hrest. }
  assert (forall b g, Re.run [Re.One (Re.chr "["); Re.Star Re.dot; Re.Eol] b
                        ([91] ++ rest) g = Some ([], None)) as K5.
  { intros b g. cbn [Re.run app]. unfold Re.chr. cbn. apply K6. }
  assert (forall b g, Re.star Re.space
                        (Re.run [Re.One (Re.chr "["); Re.Star Re.dot; Re.Eol]) b
                        (ws3 ++ [91] ++ rest) g = Some ([], None)) as K4.
  { intros b g. apply star_greedy; [exact H3 | reflexivity | intros b'; apply K5]. }
  destruct digits as [|d ds]; [congruence|]. inversion Hd as [|? ? Hd1 Hds]; subst.
  assert (forall b g,
            Re.star Re.digit
              (Re.star Re.space (Re.run [Re.One (Re.chr "["); Re.Star Re.dot; Re.Eol]))
              b (ds ++ ws3 ++ [91] ++ rest) g = Some ([], None)) as K3.
  { intros b g. apply star_greedy; [exact Hds | | intros b'; apply K4].
    destruct ws3 as [|h ws3]; [reflexivity|]. inversion H3; subst.
    now apply space_not_decimal. }
  apply star_greedy; [exact H1 | reflexivity |]. intros b.
  cbn [app]. unfold Re.chr at 1. change (N_of_ascii "-") with 45. cbn [N.eqb].
  rewrite N.eqb_refl.
  apply star_greedy; [exact H2 | now apply decimal_not_space |]. intros b'.
  cbn [app]. unfold Re.digit at 1. rewrite Hd1. apply K3.
Qed.

(** Removing the episode part of a name whose series part is stripped,
    is not empty and holds no hyphen. *)
Lemma sub_episode_part (n : nat) (name tail : str) (bos : bool) :
  (length (name ++ tail) < n)%nat ->
  (forall b, Re.match_at TopAnimeStrm.re_episode_part b tail = Some ([], None)) ->
  tail <> [] ->
  ~ In 45 name ->
  (forall a c, name = a ++ [c] -> Unicode.is_space c = false) ->
  Re.sub_go n TopAnimeStrm.re_episode_part [] bos (name ++ tail) = name.
Proof.
  intros Hlen Htail Hne Hno Hlast. revert bos n Hlen.
  induction name as [|c name IH]; intros bos n Hlen.
  - destruct n as [|n]; [lia|]. cbn [app Re.sub_go]. rewrite Htail.
    replace (length (@nil N) <? length tail)%nat with true
      by (symmetry; apply Nat.ltb_lt; destruct tail; [congruence | cbn; lia]).
    destruct n; [reflexivity|]. cbn [Re.sub_go app]. reflexivity.
  - destruct n as [|n]; [lia|]. cbn [app Re.sub_go].
    assert (Re.match_at TopAnimeStrm.re_episode_part bos (c :: name ++ tail) = None)
      as ->.
    { destruct (exists_last (l := c :: name)) as [v [d Hvd]]; [discriminate|].
      change (c :: name ++ tail) with ((c :: name) ++ tail). rewrite Hvd.
      rewrite <- app_assoc. cbn [app].
      unfold Re.match_at, TopAnimeStrm.re_episode_part.
      apply (star_space_no_hyphen
               [Re.Star Re.space; Re.Plus Re.digit; Re.Star Re.space;
                Re.One (Re.chr "["); Re.Star Re.dot; Re.Eol]).
      - intros Hin. apply Hno. rewrite Hvd. apply in_or_app. now left.
      - intros ->. apply Hno. rewrite Hvd. apply in_or_app. right. now left.
      - now apply (Hlast v d). }
    f_equal. apply IH.
    + intros Hin. apply Hno. now right.
    + intros a d ->. apply (Hlast (c :: a) d). reflexivity.
    + cbn in Hlen. lia.
Qed.

Lemma sub_bol_false (p : Re.pattern) (repl : str) (n : nat) (s : str) :
  Re.sub_go n (Re.Bol :: p) repl false s = s.
Proof.
  revert s. induction n as [|n IH]; intros s; [reflexivity|].
  cbn [Re.sub_go]. unfold Re.match_at. cbn [Re.run].
  destruct s as [|c s]; [reflexivity|]. now rewrite IH.
Qed.

Lemma sub_go_S (n : nat) (p : Re.pattern) (repl : str) (bos : bool) (s : str) :
  Re.sub_go (S n) p repl bos s
  = match Re.match_at p bos s with
    | Some (r, _) =>
        if (length r <? length s)%nat
        then repl ++ Re.sub_go n p repl false r
        else match s with [] => [] | c :: s' => c :: Re.sub_go n p repl false s' end
    | None => match s with [] => [] | c :: s' => c :: Re.sub_go n p repl false s' end
    end.
Proof. reflexivity. Qed.

Lemma match_ani_prefix (t : str) :
  Re.match_at TopAnimeStrm.re_ani_prefix true (91 :: 65 :: 78 :: 105 :: 93 :: t)
  = Re.star Re.space (Re.run []) false t None.
Proof. reflexivity. Qed.

(** Removing the tag at the head. *)
Lemma sub_ani_prefix (ws0 body : str) :
  Forall (fun c => Unicode.is_space c = true) ws0 ->
  match body with h :: _ => Unicode.is_space h = false | [] => True end ->
  Re.sub TopAnimeStrm.re_ani_prefix [] ([91; 65; 78; 105; 93] ++ ws0 ++ body) = body.
Proof.
  intros Hws Hbody. unfold Re.sub. cbn [length app].
  rewrite sub_go_S, match_ani_prefix.
  rewrite (star_greedy Re.space (Re.run []) ws0 body None (body, None));
    [|exact Hws|exact Hbody|reflexivity].
  match goal with
  | |- context [(length body <? ?n)%nat] =>
      replace (length body <? n)%nat with true
        by (symmetry; apply Nat.ltb_lt; cbn [length]; rewrite length_app; lia)
  end.
  cbn [app]. apply (sub_bol_false (Re.text "[ANi]" ++ [Re.Star Re.space])).
Qed.

(** X19.  A file name in the form of the source, the name of the series
    being stripped, not empty, and without hyphen or opening bracket,
    and the rest without newline: the series name is the name of the
    series, whatever the whitespace, the episode number and the
    bracketed rest.  Two episodes of a series have the same series
    key. *)
Theorem extract_anime_name_of_ani_file (ws0 name ws1 ws2 digits ws3 rest : str) :
  Forall (fun c => Unicode.is_space c = true) ws0 ->
  Forall (fun c => Unicode.is_space c = true) ws1 ->
  Forall (fun c => Unicode.is_space c = true) ws2 ->
  Forall (fun c => Unicode.is_space c = true) ws3 ->
  name <> [] -> trimmed name -> ~ In 45 name -> ~ In 91 name ->
  digits <> [] -> Forall (fun c => Unicode.is_decimal c = true) digits ->
  ~ In 10 rest ->
  TopAnimeStrm._extract_anime_name (ani_file ws0 name ws1 ws2 digits ws3 rest) = name.
Proof.
  intros H0 H1 H2 H3 Hne Htr Hhy Hbr Hdne Hd Hrest.
  unfold TopAnimeStrm._extract_anime_name, ani_file.
  destruct Htr as [Hl Hr].
  assert (forall a c, name = a ++ [c] -> Unicode.is_space c = false) as Hlast.
  { intros a c ->. rewrite rev_app_distr in Hr. cbn [rev app] in Hr.
    cbn [PyStr.lstrip] in Hr. destruct (Unicode.is_space c) eqn:Hc; [|reflexivity].
    exfalso. destruct (lstrip_suffix (rev a)) as [ws Hws]. rewrite Hr in Hws.
    apply (f_equal (@length N)) in Hws. rewrite length_app in Hws. cbn in Hws. lia. }
  rewrite sub_ani_prefix; [|exact H0|].
  2:{ destruct name as [|h name']; [congruence|]. cbn [app].
      cbn [PyStr.lstrip] in Hl. destruct (Unicode.is_space h) eqn:Hh; [|reflexivity].
      exfalso. destruct (lstrip_suffix name') as [ws Hws]. rewrite Hl in Hws.
      apply (f_equal (@length N)) in Hws. rewrite length_app in Hws. cbn in Hws. lia. }
  unfold Re.sub at 2.
  rewrite (sub_episode_part _ name (ws1 ++ [45] ++ ws2 ++ digits ++ ws3 ++ [91] ++ rest));
    try assumption; try lia.
  - unfold Re.sub. rewrite (sub_needs_char 91 TopAnimeStrm.re_quality);
      [|apply run_cons_needs_char, (run_one_needs_char "[")|exact Hbr].
    apply strip_trimmed. now split.
  - intros b. now apply match_episode_part_tail.
  - destruct ws1; discriminate.
Qed.

Lemma extract_anime_name_of_ani_file_witness :
  TopAnimeStrm._extract_anime_name (lit "[ANi] Example Show - 03 [1080P].mp4")
  = lit "Example Show"
  /\ TopAnimeStrm._extract_anime_name (lit "[ANi] Example Show - 04 [1080P][Baha].mp4")
     = lit "Example Show".
Proof.
  assert (forall digits rest,
            digits <> [] -> Forall (fun c => Unicode.is_decimal c = true) digits ->
            ~ In 10 rest ->
            TopAnimeStrm._extract_anime_name
              (ani_file (lit " ") (lit "Example Show") (lit " ") (lit " ") digits
                 (lit " ") rest) = lit "Example Show") as H.
  { intros digits rest Hdne Hd Hrest.
    assert (forall c (l : str), forallb (fun x => negb (x =? c)) l = true -> ~ In c l)
      as Hnot.
    { intros c l Hall Hin. rewrite forallb_forall in Hall. apply Hall in Hin.
      now rewrite N.eqb_refl in Hin. }
    apply extract_anime_name_of_ani_file; try assumption.
    - repeat constructor.
    - repeat constructor.
    - repeat constructor.
    - repeat constructor.
    - discriminate.
    - split; reflexivity.
    - apply Hnot. reflexivity.
    - apply Hnot. reflexivity. }
  split.
  - apply (H (lit "03") (lit "1080P].mp4")); [discriminate | repeat constructor |].
    intros Hin. cbn in Hin. repeat (destruct Hin as [Hin | Hin]; [discriminate|]).
    exact Hin.
  - apply (H (lit "04") (lit "1080P][Baha].mp4")); [discriminate | repeat constructor |].
    intros Hin. cbn in Hin. repeat (destruct Hin as [Hin | Hin]; [discriminate|]).
    exact Hin.
Defined.

(** ** Runs of the task and of the retry policy on concrete worlds *)

Lemma task_count_bounded_witness :
  let now := fun _ : unit => (2025, 7%nat) in
  let launch := fun e : unit => (Effects.Return tt, e) in
  let close := fun e : unit => (Effects.Return tt, e) in
  let browse := fun (_ : str) (e : unit) =>
                  (@Effects.Raise TopAnimeStrm.page (Effects.Collaborator 1 true), e) in
  let http_get := fun (_ : str) (e : unit) => (Effects.Return (lit "<rss/>"), e) in
  let parse_items := fun _ : str =>
    Effects.Return
      [(lit "[ANi] Show - 01 [1080P].mp4",
        lit "https://resources.ani.rip/2025-7/Show - 01.mp4?d=true");
       (lit "[ANi] Show - 01 [1080P].mp4",
        lit "https://resources.ani.rip/2025-7/Show - 01.mp4?d=true")] in
  let os_write := fun (_ _ : str) (_ : unit) => Effects.Written in
  let os_sleep := fun (_ : Z) (e : unit) => (Effects.Return tt, e) in
  let w := Effects.World (TopAnimeStrm.Plugin (Some (lit "/media/strm")) None)
             (∅ : gmap str str) tt [] in
  fst (TopAnimeStrm.__task now true launch browse close http_get parse_items
         os_write os_sleep false w) = Effects.Return 1
  /\ exists rss_info_list w1,
       TopAnimeStrm.get_latest_list http_get parse_items os_sleep w
       = (Effects.Return rss_info_list, w1)
       /\ 1 <= N.of_nat (length rss_info_list).
Proof.
  intros now launch close browse http_get parse_items os_write os_sleep w.
  split; [vm_compute; reflexivity|].
  apply (task_count_bounded now true launch browse close http_get parse_items
           os_write os_sleep false w
           (snd (TopAnimeStrm.__task now true launch browse close http_get
                   parse_items os_write os_sleep false w)) 1).
  vm_compute. reflexivity.
Defined.

Lemma retry_backoff_schedule_witness :
  let os_sleep := fun (_ : Z) (e : unit) => (Effects.Return tt, e) in
  let f := fun w : Effects.world TopAnimeStrm.plugin unit =>
             (@Effects.Raise N Effects.OSError, w) in
  let w := Effects.World (TopAnimeStrm.Plugin (Some (lit "/media/strm")) None)
             (∅ : gmap str str) tt [] in
  exists w',
    TopAnimeStrm.retry os_sleep Effects.is_Exception 3 2 3 true 0 f w
    = (Effects.Return 0, w')
    /\ Effects.trace w'
       = [Effects.Warn (Effects.RetryIn 2); Effects.Sleep 2;
          Effects.Warn (Effects.RetryIn 6); Effects.Sleep 6;
          Effects.Warn (Effects.RetryIn 18); Effects.Sleep 18;
          Effects.Warn Effects.CheckSeasonOrNetwork].
Proof.
  intros os_sleep f w.
  apply (retry_backoff_schedule os_sleep Effects.is_Exception 2 3 0 f 3 w).
  - intros i Hi. change (Z.to_nat 3) with 3%nat in Hi. unfold Effects.sleep_max.
    do 3 (destruct i as [|i]; [cbn; lia|]). lia.
  - intros i e _. exists e. reflexivity.
  - intros v. exists Effects.OSError, v. repeat split.
Defined.

Lemma retry_first_attempt_witness :
  let os_sleep := fun (_ : Z) (e : unit) => (Effects.Return tt, e) in
  let f := fun w : Effects.world TopAnimeStrm.plugin unit =>
             (@Effects.Raise N (Effects.Collaborator 1 false), w) in
  let w := Effects.World (TopAnimeStrm.Plugin (Some (lit "/media/strm")) None)
             (∅ : gmap str str) tt [] in
  TopAnimeStrm.retry os_sleep Effects.is_Exception 0 3 1 true 0 f w
  = (Effects.Return 0, after_giving_up w)
  /\ TopAnimeStrm.retry os_sleep Effects.is_Exception 3 3 1 true 0 f w
     = (Effects.Raise (Effects.Collaborator 1 false), w).
Proof.
  intros os_sleep f w. split.
  - apply (proj1 (retry_first_attempt os_sleep Effects.is_Exception 3 1 0 f 0 w)). lia.
  - apply (proj2 (retry_first_attempt os_sleep Effects.is_Exception 3 1 0 f 3 w));
      [lia | reflexivity | reflexivity].
Defined.

(** ** The season list: its retry policy and its browser session *)

Section SeasonList.
Import Effects.
Context {E : Type}.
Variable now : E -> N * nat.
Variable PLAYWRIGHT_AVAILABLE : bool.
Variable launch : E -> outcome unit * E.
Variable browse : str -> E -> outcome TopAnimeStrm.page * E.
Variable close : E -> outcome unit * E.
Variable os_sleep : Z -> E -> outcome unit * E.

Lemma get_ani_season_returns (idx_month : option nat)
    (w : world TopAnimeStrm.plugin E) :
  exists season w',
    TopAnimeStrm.__get_ani_season now idx_month w = (Return season, w')
    /\ env w' = env w /\ trace w' = trace w.
Proof.
  unfold TopAnimeStrm.__get_ani_season. destruct (now (env w)) as [y m].
  destruct (TopAnimeStrm.season_month _); eexists _, _; repeat split.
Qed.

(** What the body of the season list raises is no instance of
    [Exception]: its own handler takes the others. *)
Lemma season_list_body_raises (w w' : world TopAnimeStrm.plugin E) (e : exn) :
  TopAnimeStrm.season_list_body now PLAYWRIGHT_AVAILABLE launch browse close w
  = (Raise e, w') ->
  is_Exception e = false.
Proof.
  unfold TopAnimeStrm.season_list_body.
  destruct PLAYWRIGHT_AVAILABLE; cbn [negb]; [|discriminate].
  unfold bind at 1.
  destruct (get_ani_season_returns None w) as [season [w0 [-> _]]].
  unfold try_except.
  match goal with |- context [match ?m w0 with _ => _ end] =>
    destruct (m w0) as [[a|e1] w1] end; [discriminate|].
  destruct (is_Exception e1) eqn:He1; [discriminate|].
  intros [= <- _]. exact He1.
Qed.

Lemma season_list_is_body (w : world TopAnimeStrm.plugin E) :
  TopAnimeStrm.get_current_season_list now PLAYWRIGHT_AVAILABLE launch browse close
    os_sleep w
  = TopAnimeStrm.season_list_body now PLAYWRIGHT_AVAILABLE launch browse close w.
Proof.
  unfold TopAnimeStrm.get_current_season_list, TopAnimeStrm.retry.
  change (Z.to_nat 3) with 3%nat. cbn [TopAnimeStrm.f_retry_loop].
  destruct (TopAnimeStrm.season_list_body _ _ _ _ _ w) as [[a|e] w'] eqn:Hbody;
    [reflexivity|].
  now rewrite (season_list_body_raises _ _ _ Hbody).
Qed.

(** X20.  The retry policy of [get_current_season_list] never acts:
    whatever the clock, the browser and the page do, the decorated
    function is its body, with no pause, no retry and no closing
    warning, since the body takes every [Exception] itself. *)
Theorem season_list_retry_inert (w : world TopAnimeStrm.plugin E) :
  TopAnimeStrm.get_current_season_list now PLAYWRIGHT_AVAILABLE launch browse close
    os_sleep w
  = TopAnimeStrm.season_list_body now PLAYWRIGHT_AVAILABLE launch browse close w.
Proof.
  exact (season_list_is_body w).
Qed.

(** X21.  The browser of the season list is closed whatever the page
    does: once the launch has returned, the environment the call leaves
    is the one [close] makes of what the page fetch left, whether the
    fetch returned or raised. *)
Theorem season_list_closes_browser (w w0 w' : world TopAnimeStrm.plugin E)
    (season : option str) (e1 e2 : E) (page : outcome TopAnimeStrm.page)
    (o : outcome (list str)) :
  PLAYWRIGHT_AVAILABLE = true ->
  TopAnimeStrm.__get_ani_season now None w = (Return season, w0) ->
  launch (env w) = (Return tt, e1) ->
  browse (TopAnimeStrm.openani_root ++ TopAnimeStrm.format season
          ++ TopAnimeStrm.slash) e1 = (page, e2) ->
  TopAnimeStrm.get_current_season_list now PLAYWRIGHT_AVAILABLE launch browse close
    os_sleep w
  = (o, w') ->
  env w' = snd (close e2).
Proof.
  intros HPW Hseason Hlaunch Hbrowse. rewrite season_list_is_body.
  unfold TopAnimeStrm.season_list_body. rewrite HPW. cbn [negb].
  unfold bind at 1. rewrite Hseason.
  destruct (get_ani_season_returns None w) as [s' [w0' [Hs [Henv _]]]].
  rewrite Hseason in Hs. injection Hs as <- <-.
  unfold try_except, bind at 1, call at 1. rewrite Henv, Hlaunch.
  unfold try_finally, bind at 1, call at 1. cbn [env]. rewrite Hbrowse.
  destruct page as [p|x].
  - unfold bind at 1.
    assert (forall v : world TopAnimeStrm.plugin E,
              exists v', (if TopAnimeStrm.found_selector p then ret tt
                          else emit (Warn NoVideoElement)) v = (Return tt, v')
                         /\ env v' = env v) as Hsel
      by (intros v; destruct (TopAnimeStrm.found_selector p); eexists; split; reflexivity).
    match goal with |- context [(if TopAnimeStrm.found_selector p then _ else _) ?v] =>
      destruct (Hsel v) as [v' [-> Hv']]; cbn [env] in Hv' end.
    unfold bind, lift, ret.
    destruct (TopAnimeStrm.extract_video_files p) as [video_files|x];
      [destruct (TopAnimeStrm._clean_and_get_top15 video_files) as [l|x]|];
      unfold call; rewrite Hv'; destruct (close e2) as [[[]|y] e3]; cbn [snd env];
      try (intros [= _ <-]; reflexivity);
      try (destruct (is_Exception _); intros [= _ <-]; reflexivity).
  - unfold call. cbn [env]. destruct (close e2) as [[[]|y] e3]; cbn [snd];
      destruct (is_Exception _); intros [= _ <-]; reflexivity.
Qed.
End SeasonList.

Lemma season_list_closes_browser_witness :
  let now := fun _ : nat => (2025, 8%nat) in
  let launch := fun sessions : nat => (Effects.Return tt, S sessions) in
  let browse := fun (_ : str) (sessions : nat) =>
                  (@Effects.Raise TopAnimeStrm.page (Effects.Collaborator 1 true),
                   sessions) in
  let close := fun sessions : nat => (Effects.Return tt, pred sessions) in
  let os_sleep := fun (_ : Z) (sessions : nat) => (Effects.Return tt, sessions) in
  let w := Effects.World (TopAnimeStrm.Plugin (Some (lit "/media/strm")) None)
             (∅ : gmap str str) 0%nat [] in
  Effects.env
    (snd (TopAnimeStrm.get_current_season_list now true launch browse close
            os_sleep w))
  = 0%nat.
Proof.
  intros now launch browse close os_sleep w.
  apply (season_list_closes_browser now true launch browse close os_sleep w
           (snd (TopAnimeStrm.__get_ani_season now None w))
           (snd (TopAnimeStrm.get_current_season_list now true launch browse close
            os_sleep w))
           (Some (lit "2025-7")) 1%nat 1%nat
           (Effects.Raise (Effects.Collaborator 1 true))
           (fst (TopAnimeStrm.get_current_season_list now true launch browse close
            os_sleep w)));
    vm_compute; reflexivity.
Defined.

(** ** plugins/videostrm: the descriptor writer *)

Section VideoStrmCreate.
Import Effects.
Context {E : Type}.
Variable os_makedirs : str -> E -> outcome unit * E.
Variable os_write : str -> str -> E -> io_result.

Lemma create_strm_file_keeps (title source_url : str) (code : option str) :
  keeps_files (VideoStrm.create_strm_file os_makedirs os_write title source_url code).
Proof.
  intros w o w' Hrun path text Hpath.
  unfold VideoStrm.create_strm_file in Hrun. cbv [bind get_self] in Hrun.
  destruct (VideoStrm._storageplace (self w)) as [[|c storageplace]|];
    try (injection Hrun as _ <-; exact Hpath).
  cbv [call] in Hrun. destruct (os_makedirs (c :: storageplace) (env w)) as [[[]|x] e1];
    [|injection Hrun as _ <-; exact Hpath].
  cbv [path_exists ret] in Hrun. cbn [files] in Hrun.
  set (file_path := Py.path_join (c :: storageplace)
                      (VideoStrm.strm_name title code ++ VideoStrm.dot_strm)) in *.
  destruct (bool_decide (is_Some (files w !! file_path))) eqn:Hex.
  - injection Hrun as _ <-. exact Hpath.
  - apply bool_decide_eq_false_1 in Hex.
    assert (path <> file_path) as Hne.
    { intros ->. apply Hex. rewrite Hpath. eauto. }
    cbv [try_except write_file] in Hrun. cbn [env files self trace] in Hrun.
    destruct (os_write file_path source_url e1) as [| |partial];
      cbn [is_Exception] in Hrun; injection Hrun as _ <-; cbn [files];
      try exact Hpath; now rewrite lookup_insert_ne.
Qed.

(** X22.  Whatever the arguments and the outcome, [create_strm_file]
    leaves every file there is as it is: it writes at a path only when
    there is no file at it. *)
Theorem videostrm_create_keeps_files (title source_url : str) (code : option str) :
  keeps_files (VideoStrm.create_strm_file os_makedirs os_write title source_url code).
Proof.
  exact (create_strm_file_keeps title source_url code).
Qed.

(** X23.  A call of [create_strm_file] that returns [True]: the storage
    directory is configured, there was no file at the path of the
    descriptor, and the files after the call are the files before it
    with the source address at that path. *)
Theorem videostrm_create_true (title source_url : str) (code : option str)
    (w w' : world VideoStrm.plugin E) :
  VideoStrm.create_strm_file os_makedirs os_write title source_url code w
  = (Return true, w') ->
  exists storageplace,
    VideoStrm._storageplace (self w) = Some storageplace
    /\ storageplace <> []
    /\ let file_path :=
         Py.path_join storageplace
           (VideoStrm.strm_name title code ++ VideoStrm.dot_strm) in
       files w !! file_path = None
       /\ files w' = <[file_path := source_url]> (files w).
Proof.
  unfold VideoStrm.create_strm_file. cbv [bind get_self].
  destruct (VideoStrm._storageplace (self w)) as [[|c storageplace]|];
    try discriminate.
  cbv [call]. destruct (os_makedirs (c :: storageplace) (env w)) as [[[]|x] e1];
    [|discriminate].
  cbv [path_exists ret]. cbn [files].
  set (file_path := Py.path_join (c :: storageplace)
                      (VideoStrm.strm_name title code ++ VideoStrm.dot_strm)).
  destruct (bool_decide (is_Some (files w !! file_path))) eqn:Hex; [discriminate|].
  apply bool_decide_eq_false_1 in Hex.
  cbv [try_except write_file]. cbn [env files self trace].
  destruct (os_write file_path source_url e1) as [| |partial];
    cbn [is_Exception]; try discriminate.
  intros [= <-]. exists (c :: storageplace). repeat split; try discriminate.
  destruct (files w !! file_path) eqn:Hl; [|exact Hl].
  exfalso. apply Hex. eauto.
Qed.

End VideoStrmCreate.

Lemma videostrm_create_true_witness :
  let os_makedirs := fun (_ : str) (e : unit) => (Effects.Return tt, e) in
  let os_write := fun (_ _ : str) (_ : unit) => Effects.Written in
  let w := Effects.World (VideoStrm.Plugin (Some (lit "/media/strm")))
             (∅ : gmap str str) tt [] in
  let w' := snd (VideoStrm.create_strm_file os_makedirs os_write
                   (lit "A  title?") (lit "https://example.com/a.m3u8") None w) in
  Effects.files w' !! lit "/media/strm/A title.strm"
  = Some (lit "https://example.com/a.m3u8").
Proof.
  intros os_makedirs os_write w w'.
  destruct (videostrm_create_true os_makedirs os_write
              (lit "A  title?") (lit "https://example.com/a.m3u8") None w w')
    as [storageplace [Hs [_ [_ Hfiles]]]]; [vm_compute; reflexivity|].
  injection Hs as <-. rewrite Hfiles. apply lookup_insert_eq.
Defined.

(** ** plugins/videostrm: the keywords, the search and the task *)

Lemma split_go_newline (cur s : str) :
  ~ In 10 cur ->
  Forall (fun piece => ~ In 10 piece) (PyStr.split_go [10] 0 cur s).
Proof.
  revert cur. induction s as [|c s IH]; intros cur Hcur; cbn [PyStr.split_go].
  - now constructor.
  - cbn [PyStr.startswith]. destruct (10 =? c) eqn:Hc.
    + cbn [andb length Nat.sub]. constructor; [exact Hcur|].
      apply IH. intros [].
    + cbn [andb]. apply IH. intros Hin. apply in_app_or in Hin.
      destruct Hin as [Hin | [Heq | []]]; [now apply Hcur|].
      apply N.eqb_neq in Hc. congruence.
Qed.

(** X24.  The keywords the task reads off the configured text: none is
    empty, none begins or ends with whitespace, none holds a newline. *)
Theorem parse_keywords_clean (search_keywords : str) :
  Forall (fun keyword => keyword <> [] /\ trimmed keyword /\ ~ In 10 keyword)
    (VideoStrmTask.parse_keywords search_keywords).
Proof.
  unfold VideoStrmTask.parse_keywords, PyStr.split, VideoStrmTask.newline.
  pose proof (split_go_newline [] search_keywords (fun H => H)) as Hpieces.
  induction Hpieces as [|piece pieces Hpiece _ IH]; cbn [List.filter List.map];
    [constructor|].
  destruct (PyStr.eqb (PyStr.strip piece) []) eqn:Hne; cbn [negb List.map];
    [exact IH|].
  constructor; [|exact IH]. repeat split.
  - intros Heq. rewrite Heq in Hne. discriminate.
  - apply trimmed_strip.
  - apply trimmed_strip.
  - intros Hin. apply Hpiece. now apply strip_incl.
Qed.

Lemma lstrip_blank (s : str) :
  Forall (fun c => Unicode.is_space c = true) s -> PyStr.lstrip s = [].
Proof.
  induction 1 as [|c s Hc _ IH]; [reflexivity|]. cbn [PyStr.lstrip]. now rewrite Hc.
Qed.

Lemma split_go_blank (cur s : str) :
  Forall (fun c => Unicode.is_space c = true) cur ->
  Forall (fun c => Unicode.is_space c = true) s ->
  Forall (Forall (fun c => Unicode.is_space c = true)) (PyStr.split_go [10] 0 cur s).
Proof.
  intros Hcur Hs. revert cur Hcur.
  induction Hs as [|c s Hc _ IH]; intros cur Hcur; cbn [PyStr.split_go].
  - now repeat constructor.
  - destruct (PyStr.startswith (c :: s) [10]); cbn [length Nat.sub].
    + constructor; [exact Hcur|]. apply IH. constructor.
    + apply IH. apply Forall_app. split; [exact Hcur|]. now repeat constructor.
Qed.

Lemma parse_keywords_blank (search_keywords : str) :
  Forall (fun c => Unicode.is_space c = true) search_keywords ->
  VideoStrmTask.parse_keywords search_keywords = [].
Proof.
  intros Hs. unfold VideoStrmTask.parse_keywords, PyStr.split, VideoStrmTask.newline.
  pose proof (split_go_blank [] search_keywords (List.Forall_nil _) Hs) as Hpieces.
  induction Hpieces as [|piece pieces Hpiece _ IH]; cbn [List.filter List.map];
    [reflexivity|].
  assert (PyStr.strip piece = []) as ->
    by (unfold PyStr.strip; now rewrite (lstrip_blank piece Hpiece)).
  exact IH.
Qed.

(** *** The scan of the cards *)

Lemma upper_idem (s : str) : VideoStrmTask.upper (VideoStrmTask.upper s) = VideoStrmTask.upper s.
Proof.
  unfold VideoStrmTask.upper. rewrite List.map_map. apply List.map_ext. intros c.
  destruct ((97 <=? c) && (c <=? 122)) eqn:Hc; [|now rewrite Hc].
  apply andb_true_iff in Hc. destruct Hc as [H1 H2].
  apply N.leb_le in H1, H2.
  replace ((97 <=? c - 32) && (c - 32 <=? 122)) with false; [reflexivity|].
  symmetry. apply andb_false_iff. left. apply N.leb_gt. lia.
Qed.

Lemma add_card_distinct (_base_url : str) (results results' : list VideoStrmTask.video)
    (c : VideoStrmTask.card) :
  VideoStrmTask.add_card _base_url results c = Effects.Return results' ->
  codes_distinct results -> codes_distinct results'.
Proof.
  unfold VideoStrmTask.add_card. intros Hadd Hres.
  assert (forall a b : list VideoStrmTask.video,
            Effects.Return a = Effects.Return b -> a = b) as Hinj
    by (intros a b [= ->]; reflexivity).
  destruct (VideoStrmTask.href c) as [[|h href]|];
    try (apply Hinj in Hadd; subst; exact Hres).
  destruct (Re.search VideoStrmTask.re_code_path (h :: href));
    [|apply Hinj in Hadd; subst; exact Hres].
  destruct (Re.search VideoStrmTask.re_code (h :: href)) as [[rest group1]|];
    [|apply Hinj in Hadd; subst; exact Hres].
  set (code := VideoStrmTask.upper (default [] group1)) in *.
  destruct (match VideoStrmTask.title_elem c with
            | Some (Some text) => Effects.Return (PyStr.strip text)
            | Some None => Effects.Raise Effects.AttributeError
            | None => Effects.Return code
            end) as [title|e]; [|discriminate].
  destruct (existsb _ results) eqn:Hex; apply Hinj in Hadd; subst; [exact Hres|].
  destruct Hres as [Hnd Hup]. split.
  - rewrite List.map_app. cbn [List.map VideoStrmTask.code].
    apply NoDup_ListNoDup, NoDup_app. repeat split;
      [now apply NoDup_ListNoDup | | apply NoDup_singleton].
    intros x Hx Hx'. apply list_elem_of_In in Hx. apply list_elem_of_In in Hx'.
    destruct Hx' as [<- | []].
    apply in_map_iff in Hx. destruct Hx as [r [Hr Hin]].
    assert (existsb (fun r => PyStr.eqb (VideoStrmTask.code r) code) results = true)
      as Hex'; [|congruence].
    apply existsb_exists. exists r. split; [exact Hin|]. now apply eqb_true_iff.
  - apply Forall_app. split; [exact Hup|]. constructor; [|constructor].
    cbn [VideoStrmTask.code]. apply upper_idem.
Qed.

Lemma scan_cards_distinct (_base_url : str) (video_cards : list VideoStrmTask.card)
    (results : list VideoStrmTask.video) :
  codes_distinct results ->
  codes_distinct (fst (VideoStrmTask.scan_cards _base_url video_cards results)).
Proof.
  revert results. induction video_cards as [|c cards IH]; intros results Hres;
    cbn [VideoStrmTask.scan_cards]; [exact Hres|].
  destruct (VideoStrmTask.add_card _base_url results c) as [results'|e] eqn:Hadd;
    [|exact Hres].
  apply IH. eapply add_card_distinct; eassumption.
Qed.

Lemma scan_cards_raises (_base_url : str) (video_cards : list VideoStrmTask.card)
    (results : list VideoStrmTask.video) (e : Effects.exn) :
  snd (VideoStrmTask.scan_cards _base_url video_cards results) = Some e ->
  e = Effects.AttributeError.
Proof.
  revert results. induction video_cards as [|c cards IH]; intros results;
    cbn [VideoStrmTask.scan_cards]; [discriminate|].
  destruct (VideoStrmTask.add_card _base_url results c) as [results'|e'] eqn:Hadd;
    [apply IH|].
  cbn [snd]. intros [= <-]. unfold VideoStrmTask.add_card in Hadd.
  destruct (VideoStrmTask.href c) as [[|h href]|]; try discriminate.
  destruct (Re.search VideoStrmTask.re_code_path (h :: href)); [|discriminate].
  destruct (Re.search VideoStrmTask.re_code (h :: href)) as [[rest group1]|];
    [|discriminate].
  destruct (VideoStrmTask.title_elem c) as [[text|]|];
    try (destruct (existsb _ results); discriminate).
  now injection Hadd as <-.
Qed.

Section VideoStrmTaskProps.
Import Effects.
Context {E : Type}.
Variable _base_url : str.
Variable _search_keywords : option str.
Variable PLAYWRIGHT_AVAILABLE : bool.
Variable launch : E -> outcome unit * E.
Variable browse : str -> E -> outcome (list VideoStrmTask.card) * E.
Variable close : E -> outcome unit * E.
Variable get_video_source : str -> E -> outcome (option str) * E.
Variable os_makedirs : str -> E -> outcome unit * E.
Variable os_write : str -> str -> E -> io_result.
Variable os_sleep : Z -> E -> outcome unit * E.
Variable logger_warn : VideoStrmTask.notice -> E -> E.

Lemma handled_run (results : list VideoStrmTask.video) (e : exn)
    (w : world VideoStrm.plugin E) :
  exists o, @VideoStrmTask.handled E results e w = (o, w)
            /\ (forall r, o = Return r -> r = results).
Proof.
  unfold VideoStrmTask.handled. destruct (is_Exception e); eexists; split;
    try reflexivity; intros r [= <-]; reflexivity.
Qed.

(** What a search does: the list it returns is the empty list or the
    list a scan left, and only the environment changes. *)
Lemma search_videos_run (keyword : str) (w w' : world VideoStrm.plugin E)
    (o : outcome (list VideoStrmTask.video)) :
  VideoStrmTask.search_videos _base_url PLAYWRIGHT_AVAILABLE launch browse close
    logger_warn keyword w = (o, w') ->
  (self w' = self w /\ files w' = files w /\ trace w' = trace w)
  /\ forall results, o = Return results ->
       results = []
       \/ exists video_cards,
            results = fst (VideoStrmTask.scan_cards _base_url video_cards []).
Proof.
  unfold VideoStrmTask.search_videos.
  destruct PLAYWRIGHT_AVAILABLE; cbn [negb].
  2:{ intros [= <- <-]. split; [repeat split|]. intros results [= <-]. now left. }
  destruct (Urllib.quote keyword VideoStrmTask.slash) as [quoted|].
  2:{ intros [= <- <-]. split; [repeat split|]. intros results; discriminate. }
  unfold call. destruct (launch (env w)) as [[[]|e] e1].
  2:{ match goal with |- context [VideoStrmTask.handled ?r ?x ?v] =>
        destruct (handled_run r x v) as [o1 [-> Ho1]] end.
      intros [= <- <-]. split; [repeat split|]. intros results Hr. left.
      now apply Ho1. }
  cbn [env self files trace].
  destruct (browse _ e1) as [page e2].
  set (scan := match page with
               | Return video_cards =>
                   VideoStrmTask.scan_cards _base_url video_cards []
               | Raise e => ([], Some e)
               end).
  assert (fst scan = []
          \/ exists video_cards,
               fst scan = fst (VideoStrmTask.scan_cards _base_url video_cards []))
    as Hscan by (subst scan; destruct page; [right; eauto | now left]).
  destruct scan as [results raised]. cbn [fst] in Hscan. cbn [env self files trace].
  destruct (close e2) as [[[]|e] e3].
  - destruct raised as [e|].
    + match goal with |- context [VideoStrmTask.handled ?r ?x ?v] =>
        destruct (handled_run r x v) as [o1 [-> Ho1]] end.
      intros [= <- <-]. split; [repeat split|]. intros r Hr.
      apply Ho1 in Hr. now subst.
    + intros [= <- <-]. split; [repeat split|]. intros r [= <-]. exact Hscan.
  - match goal with |- context [VideoStrmTask.handled ?r ?x ?v] =>
      destruct (handled_run r x v) as [o1 [-> Ho1]] end.
    intros [= <- <-]. split; [repeat split|]. intros r Hr.
    apply Ho1 in Hr. now subst.
Qed.

(** X25.  The results of a search: no two have the same code, and every
    code is in upper case, whatever the page held and whether or not
    the scan of its cards came to its end. *)
Theorem search_videos_codes_distinct (keyword : str)
    (w w' : world VideoStrm.plugin E) (results : list VideoStrmTask.video) :
  VideoStrmTask.search_videos _base_url PLAYWRIGHT_AVAILABLE launch browse close
    logger_warn keyword w = (Return results, w') ->
  List.NoDup (List.map VideoStrmTask.code results)
  /\ Forall (fun r => VideoStrmTask.upper (VideoStrmTask.code r) = VideoStrmTask.code r)
       results.
Proof.
  intros Hrun. apply search_videos_run in Hrun. destruct Hrun as [_ Hres].
  destruct (Hres results eq_refl) as [-> | [video_cards ->]].
  - split; constructor.
  - apply scan_cards_distinct. split; constructor.
Qed.

(** X26.  A search whose browser starts, answers and closes: the call
    returns the list the scan of the cards left, also when the scan was
    ended by a title element without text, and does not raise. *)
Theorem search_videos_partial_results (keyword quoted : str)
    (w : world VideoStrm.plugin E) (e1 e2 e3 : E)
    (video_cards : list VideoStrmTask.card) :
  PLAYWRIGHT_AVAILABLE = true ->
  Urllib.quote keyword VideoStrmTask.slash = Some quoted ->
  launch (env w) = (Return tt, e1) ->
  browse (_base_url ++ VideoStrmTask.en_search ++ quoted) e1
  = (Return video_cards, e2) ->
  close e2 = (Return tt, e3) ->
  VideoStrmTask.search_videos _base_url PLAYWRIGHT_AVAILABLE launch browse close
    logger_warn keyword w
  = (Return (fst (VideoStrmTask.scan_cards _base_url video_cards [])),
     World (self w) (files w) e3 (trace w)).
Proof.
  intros HPW Hq Hl Hb Hc. unfold VideoStrmTask.search_videos.
  rewrite HPW, Hq. cbn [negb]. unfold call. rewrite Hl. cbn [env self files trace].
  rewrite Hb.
  destruct (VideoStrmTask.scan_cards _base_url video_cards []) as [results raised]
    eqn:Hscan.
  cbn [env self files trace]. rewrite Hc. destruct raised as [e|]; [|reflexivity].
  pose proof (scan_cards_raises _base_url video_cards [] e) as He.
  rewrite Hscan in He. rewrite (He eq_refl). reflexivity.
Qed.

Lemma search_videos_keeps (keyword : str) :
  keeps_files
    (VideoStrmTask.search_videos _base_url PLAYWRIGHT_AVAILABLE launch browse close
       logger_warn keyword).
Proof.
  intros w o w' Hrun path text H. apply search_videos_run in Hrun.
  destruct Hrun as [[_ [-> _]] _]. exact H.
Qed.

Lemma process_video_keeps (v : VideoStrmTask.video) :
  keeps_files (VideoStrmTask.process_video get_video_source os_makedirs os_write os_sleep v).
Proof.
  unfold VideoStrmTask.process_video.
  apply try_except_keeps; [|intros _; apply ret_keeps].
  apply bind_keeps; [apply call_keeps|]. intros source_url.
  apply bind_keeps.
  - destruct source_url as [[|c s]|]; try apply ret_keeps.
    apply create_strm_file_keeps.
  - intros created. apply bind_keeps; [apply sleep_keeps | intros _; apply ret_keeps].
Qed.

Lemma process_videos_keeps (videos : list VideoStrmTask.video) (total_created : N) :
  keeps_files
    (VideoStrmTask.process_videos get_video_source os_makedirs os_write os_sleep videos
       total_created).
Proof.
  revert total_created. induction videos as [|v videos IH]; intros total_created;
    cbn [VideoStrmTask.process_videos]; [apply ret_keeps|].
  apply bind_keeps; [apply process_video_keeps | intros created; apply IH].
Qed.

Lemma process_keywords_keeps (keywords : list str) (total_created : N) :
  keeps_files
    (VideoStrmTask.process_keywords _base_url PLAYWRIGHT_AVAILABLE launch browse close
       get_video_source os_makedirs os_write os_sleep logger_warn keywords total_created).
Proof.
  revert total_created. induction keywords as [|k keywords IH]; intros total_created;
    cbn [VideoStrmTask.process_keywords]; [apply ret_keeps|].
  apply bind_keeps; [apply search_videos_keeps|]. intros videos.
  apply bind_keeps; [apply process_videos_keeps | intros total; apply IH].
Qed.

(** X27.  A run of the task of [videostrm], whatever the keywords, the
    pages and the outcome: every file that was there before is there
    after it, with the same text. *)
Theorem videostrm_task_keeps_files :
  keeps_files
    (VideoStrmTask.__task _base_url _search_keywords PLAYWRIGHT_AVAILABLE launch
       browse close get_video_source os_makedirs os_write os_sleep logger_warn).
Proof.
  unfold VideoStrmTask.__task, VideoStrmTask.warn.
  destruct _search_keywords as [[|c s]|];
    try (apply bind_keeps; [apply call_keeps | intros _; apply ret_keeps]).
  destruct (VideoStrmTask.parse_keywords (c :: s)) as [|k keywords];
    [apply bind_keeps; [apply call_keeps | intros _; apply ret_keeps]|].
  apply process_keywords_keeps.
Qed.

(** X28.  No keyword to search for (nothing configured, or a text of
    whitespace only): the task gives its warning and does nothing
    else; no page is asked for and no file is written. *)
Theorem videostrm_task_no_keywords (w : world VideoStrm.plugin E) :
  match _search_keywords with
  | Some search_keywords => Forall (fun c => Unicode.is_space c = true) search_keywords
  | None => True
  end ->
  VideoStrmTask.__task _base_url _search_keywords PLAYWRIGHT_AVAILABLE launch
    browse close get_video_source os_makedirs os_write os_sleep logger_warn w
  = (Return 0,
     World (self w) (files w)
       (logger_warn
          (match _search_keywords with
           | Some (_ :: _) => VideoStrmTask.KeywordsEmpty
           | _ => VideoStrmTask.KeywordsMissing
           end) (env w))
       (trace w)).
Proof.
  unfold VideoStrmTask.__task. destruct _search_keywords as [[|c s]|]; intros Hs;
    try reflexivity.
  now rewrite (parse_keywords_blank (c :: s) Hs).
Qed.
End VideoStrmTaskProps.

Lemma search_videos_codes_distinct_witness :
  let launch := fun e : unit => (Effects.Return tt, e) in
  let close := fun e : unit => (Effects.Return tt, e) in
  let browse := fun (_ : str) (e : unit) =>
    (Effects.Return
       [VideoStrmTask.Card (Some (lit "/en/abc-123")) None;
        VideoStrmTask.Card (Some (lit "https://missav.live/en/ABC-123"))
          (Some (Some (lit " A title ")));
        VideoStrmTask.Card (Some (lit "/en/def-7")) (Some (Some (lit "Another")));
        VideoStrmTask.Card (Some (lit "/en/search/abc")) None], e) in
  let logger_warn := fun (_ : VideoStrmTask.notice) (e : unit) => e in
  let w := Effects.World (VideoStrm.Plugin (Some (lit "/media/strm")))
             (∅ : gmap str str) tt [] in
  List.NoDup [lit "ABC-123"; lit "DEF-7"]
  /\ fst (VideoStrmTask.search_videos (lit "https://missav.live") true launch browse
            close logger_warn (lit "abc") w)
     = Effects.Return
         [VideoStrmTask.Video (lit "ABC-123") (lit "https://missav.live/en/abc-123")
            (lit "ABC-123");
          VideoStrmTask.Video (lit "Another") (lit "https://missav.live/en/def-7")
            (lit "DEF-7")].
Proof.
  intros launch close browse logger_warn w. split; [|vm_compute; reflexivity].
  apply (proj1 (search_videos_codes_distinct (lit "https://missav.live") true launch
                  browse close logger_warn (lit "abc") w w
                  [VideoStrmTask.Video (lit "ABC-123")
                     (lit "https://missav.live/en/abc-123") (lit "ABC-123");
                   VideoStrmTask.Video (lit "Another")
                     (lit "https://missav.live/en/def-7") (lit "DEF-7")]
                  eq_refl)).
Defined.

Lemma search_videos_partial_results_witness :
  let launch := fun e : nat => (Effects.Return tt, S e) in
  let close := fun e : nat => (Effects.Return tt, pred e) in
  let browse := fun (_ : str) (e : nat) =>
    (Effects.Return
       [VideoStrmTask.Card (Some (lit "/en/abc-123")) None;
        VideoStrmTask.Card (Some (lit "/en/def-7")) (Some None);
        VideoStrmTask.Card (Some (lit "/en/ghi-9")) None], e) in
  let logger_warn := fun (_ : VideoStrmTask.notice) (e : nat) => e in
  let w := Effects.World (VideoStrm.Plugin (Some (lit "/media/strm")))
             (∅ : gmap str str) 0%nat [] in
  VideoStrmTask.search_videos (lit "https://missav.live") true launch browse
    close logger_warn (lit "a b") w
  = (Effects.Return
       [VideoStrmTask.Video (lit "ABC-123") (lit "https://missav.live/en/abc-123")
          (lit "ABC-123")], w).
Proof.
  intros launch close browse logger_warn w.
  apply (search_videos_partial_results (lit "https://missav.live") true launch browse
           close logger_warn (lit "a b") (lit "a%20b") w 1%nat 1%nat 0%nat
           [VideoStrmTask.Card (Some (lit "/en/abc-123")) None;
            VideoStrmTask.Card (Some (lit "/en/def-7")) (Some None);
            VideoStrmTask.Card (Some (lit "/en/ghi-9")) None]);
    reflexivity.
Defined.

Lemma videostrm_task_no_keywords_witness :
  let launch := fun e : list VideoStrmTask.notice => (Effects.Return tt, e) in
  let close := fun e : list VideoStrmTask.notice => (Effects.Return tt, e) in
  let browse := fun (_ : str) (e : list VideoStrmTask.notice) =>
                  (@Effects.Return (list VideoStrmTask.card) [], e) in
  let get_video_source := fun (_ : str) (e : list VideoStrmTask.notice) =>
                            (@Effects.Return (option str) None, e) in
  let os_makedirs := fun (_ : str) (e : list VideoStrmTask.notice) =>
                       (Effects.Return tt, e) in
  let os_write := fun (_ _ : str) (_ : list VideoStrmTask.notice) => Effects.Written in
  let os_sleep := fun (_ : Z) (e : list VideoStrmTask.notice) =>
                    (Effects.Return tt, e) in
  let logger_warn := fun (n : VideoStrmTask.notice) (e : list VideoStrmTask.notice) =>
                       e ++ [n] in
  let w := Effects.World (VideoStrm.Plugin (Some (lit "/media/strm")))
             (∅ : gmap str str) [] [] in
  VideoStrmTask.__task (lit "https://missav.live") (Some [32; 10; 9; 10]) true launch
    browse close get_video_source os_makedirs os_write os_sleep logger_warn w
  = (Effects.Return 0,
     Effects.World (VideoStrm.Plugin (Some (lit "/media/strm"))) ∅
       [VideoStrmTask.KeywordsEmpty] []).
Proof.
  intros launch close browse get_video_source os_makedirs os_write os_sleep logger_warn w.
  apply (videostrm_task_no_keywords (lit "https://missav.live") (Some [32; 10; 9; 10])
           true launch browse close get_video_source os_makedirs os_write os_sleep logger_warn w).
  repeat constructor.
Defined.

(** ** The merged list and the sanitized name on concrete inputs *)

Lemma later_layers_NoDup_witness :
  let p := TopAnimeStrm.Page true
             (lit "<a href='/2025-7/Show - 01.mp4'>Show - 01.mp4</a>")
             [ Some (lit "https://openani.an-i.workers.dev/2025-7/Show - 01.mp4") ]
             [ Some (lit "/2025-7/Show - 01.mp4"); Some (lit "/2025-7/Show - 02.mp4") ]
             [ Some (lit "Show - 02.mp4") ]
             (Some (lit "Show - 01.mp4 Show - 02.mp4")) in
  List.NoDup
    [ lit "Show - 01.mp4"; lit "Show - 02.mp4"; lit "/2025-7/Show - 01.mp4";
      lit "01.mp4"; lit "02.mp4" ].
Proof.
  intros p. apply (later_layers_NoDup p).
  - vm_compute. constructor; [intros [] | constructor].
  - vm_compute. reflexivity.
Defined.

Lemma sanitize_filename_properties_witness :
  no_trailing_space (VideoStrm._sanitize_filename (lit " A  title? "))
  /\ VideoStrm._sanitize_filename (lit " A  title? ") = lit "A title".
Proof.
  split; [|vm_compute; reflexivity].
  destruct (sanitize_filename_properties (lit " A  title? ")) as [_ [_ [_ [_ H]]]].
  apply H. vm_compute. lia.
Defined.
